(** * Recruitment chatbot: query understanding and retrieval routing

    A shallow embedding of [ChatService] (src/services/chatService.ts as
    found in src/src/services/embeddingService.ts, first [ChatService]
    class, [CACHE_TTL = 5 * 60 * 1000]) and of the embedding requests and
    vector searches of [EmbeddingService].

    Conventions.
    - A JavaScript string is a [list ascii]; a character stands for a
      UTF-16 code unit below 256 (the Latin-1 block).  [toLowerCase],
      [\s], [\w] and [trim] are the ECMAScript ones restricted to that
      block.
    - JavaScript numbers that hold counts and parsed digit strings are [Z]
      (exact below 2^53); ratios and fixed scores are [Q].  The numbers
      the service multiplies, sums, divides and prints -- salary amounts,
      score thresholds, the average score, the similarity percentage --
      are double-precision values ([Double]).
    - The relational store, the embeddings endpoint, the chat-completion
      endpoint, the clock and [Math.random] are oracles that answer from
      the list of events issued so far; the response cache is a [gmap]. *)

From Stdlib Require Import ZArith QArith Ascii String.
From stdpp Require Import gmap strings list.

Local Open Scope Z_scope.
Local Open Scope list_scope.

Abbreviation str := (list ascii).
Notation "$ s" := (list_ascii_of_string s%string) (at level 1, only parsing).

(** ** Characters *)

Module Char.

Definition code (c : ascii) : N := N_of_ascii c.

Definition between (lo hi : ascii) (c : ascii) : bool :=
  ((code lo <=? code c) && (code c <=? code hi))%N.

Definition isDigit (c : ascii) : bool := between "0" "9" c.
Definition isUpper (c : ascii) : bool := between "A" "Z" c.
Definition isLower (c : ascii) : bool := between "a" "z" c.

(** [\w] is [[A-Za-z0-9_]]. *)
Definition isWord (c : ascii) : bool :=
  isUpper c || isLower c || isDigit c || (code c =? 95)%N.

(** [\s] and [trim]: TAB, LF, VT, FF, CR, SP and NBSP. *)
Definition isSpace (c : ascii) : bool :=
  ((9 <=? code c) && (code c <=? 13) || (code c =? 32) || (code c =? 160))%N.

(** Line terminators, which [.] does not match. *)
Definition isLineTerminator (c : ascii) : bool :=
  ((code c =? 10) || (code c =? 13))%N.

(** [String.prototype.toLowerCase] on one code unit of the Latin-1 block:
    A-Z, and U+00C0..U+00DE except the multiplication sign U+00D7. *)
Definition toLower (c : ascii) : ascii :=
  if isUpper c
     || ((192 <=? code c) && (code c <=? 222) && negb (code c =? 215))%N
  then ascii_of_N (code c + 32) else c.

(** [toUpperCase] on a code unit below 128. *)
Definition toUpper (c : ascii) : ascii :=
  if isLower c then ascii_of_N (code c - 32) else c.

(** Case folding of the [i] flag (Canonicalize, non-unicode mode).  Every
    pattern character of the program is below 128, and no code unit
    >= 128 canonicalizes to one below 128, so folding a-z is enough. *)
Definition canon (c : ascii) : ascii := toUpper c.

(** The lower-case variant of a code unit below 128. *)
Definition toLowerAscii (c : ascii) : ascii :=
  if isUpper c then ascii_of_N (code c + 32) else c.

Definition eqb (a b : ascii) : bool := Ascii.eqb a b.

End Char.

(** ** Strings *)

Module Str.

Definition eqb (a b : str) : bool := bool_decide (a = b).

Definition toLowerCase (s : str) : str := map Char.toLower s.
Definition toUpperCase (s : str) : str := map Char.toUpper s.

Fixpoint trimStart (s : str) : str :=
  match s with
  | c :: s' => if Char.isSpace c then trimStart s' else s
  | [] => []
  end.

Definition trimEnd (s : str) : str := rev (trimStart (rev s)).
Definition trim (s : str) : str := trimEnd (trimStart s).

Fixpoint startsWith (s p : str) : bool :=
  match p, s with
  | [], _ => true
  | a :: p', b :: s' => Char.eqb a b && startsWith s' p'
  | _ :: _, [] => false
  end.

(** [s.includes(p)] *)
Fixpoint includes (s p : str) : bool :=
  startsWith s p ||
  match s with
  | [] => false
  | _ :: s' => includes s' p
  end.

(** [s.split(' ')]: never empty, [''.split(' ')] is [['']]. *)
Fixpoint split_space (s : str) : list str :=
  match s with
  | [] => [[]]
  | c :: s' =>
      if Char.eqb c " " then [] :: split_space s'
      else match split_space s' with
           | w :: ws => (c :: w) :: ws
           | [] => [[c]]
           end
  end.

(** [parts.join(sep)] *)
Fixpoint join (sep : str) (parts : list str) : str :=
  match parts with
  | [] => []
  | [w] => w
  | w :: ws => w ++ sep ++ join sep ws
  end.

Definition join_space (parts : list str) : str := join [" "%char] parts.

(** [s.replace(/\s+/g, ' ')]: every maximal run of white space becomes one
    space. *)
Fixpoint collapseFrom (inRun : bool) (s : str) : str :=
  match s with
  | [] => []
  | c :: s' =>
      if Char.isSpace c
      then (if inRun then collapseFrom true s'
            else " "%char :: collapseFrom true s')
      else c :: collapseFrom false s'
  end.

Definition collapseSpaces (s : str) : str := collapseFrom false s.

(** [s.replace(/[^\w\s]/g, ' ')] *)
Definition blankSpecials (s : str) : str :=
  map (fun c => if Char.isWord c || Char.isSpace c then c else " "%char) s.

(** [s.charAt(0).toUpperCase() + s.slice(1)], for a first character below
    128 *)
Definition capitalize (s : str) : str :=
  match s with
  | [] => []
  | c :: s' => Char.toUpper c :: s'
  end.

(** The number that a string of decimal digits writes: [parseInt] of it,
    as long as it is below 2^53. *)
Definition digitVal (c : ascii) : Z := Z.of_N (Char.code c) - 48.

Definition parseDigits (ds : str) : Z :=
  fold_left (fun acc c => 10 * acc + digitVal c) ds 0.

End Str.

(** ** Double-precision numbers

    The amounts the service computes with [parseInt], [*], [+], [/] and
    [toFixed] are IEEE 754 binary64 values: a rational [m * 2^k] with
    [|m| < 2^53] and [-1074 <= k <= 971], an infinity, or NaN.  Every
    operation rounds the exact result to the nearest such value, the one
    with the even [m] of two.  The sign of a zero is not kept: nothing
    below depends on it. *)

Module Double.

Inductive t : Type :=
| finite (q : Q)
| infinity (negative : bool)
| nan.

(** [floor (log2 (a / b))] for positive [a] and [b] *)
Definition floorLog2 (a b : Z) : Z :=
  let e := Z.log2 a - Z.log2 b in
  if a * 2 ^ Z.max 0 (- e) <? b * 2 ^ Z.max 0 e then e - 1 else e.

(** The integer nearest to [a / b] for a positive [b], the even one of
    two. *)
Definition nearestEven (a b : Z) : Z :=
  let m := a / b in
  match 2 * (a mod b) ?= b with
  | Lt => m
  | Eq => if Z.even m then m else m + 1
  | Gt => m + 1
  end.

(** [m * 2 ^ k], in lowest terms *)
Definition scaled (m k : Z) : Q :=
  if 0 <=? k then inject_Z (m * 2 ^ k) else Qred (m # Z.to_pos (2 ^ (- k))).

(** The double nearest to [a / b] for positive [a] and [b]: 53 significant
    bits, fewer below [2^-1022]; [None] when it is [2^1024] or more. *)
Definition roundPositive (a b : Z) : option Q :=
  let k := Z.max (floorLog2 a b - 52) (-1074) in
  let m := nearestEven (a * 2 ^ Z.max 0 (- k)) (b * 2 ^ Z.max 0 k) in
  if (0 <=? k) && (2 ^ 1024 <=? m * 2 ^ k) then None else Some (scaled m k).

Definition round (q : Q) : t :=
  match Qnum q with
  | 0 => finite 0
  | Zpos a =>
      match roundPositive (Zpos a) (Zpos (Qden q)) with
      | Some r => finite r
      | None => infinity false
      end
  | Zneg a =>
      match roundPositive (Zpos a) (Zpos (Qden q)) with
      | Some r => finite (- r)
      | None => infinity true
      end
  end.

Definition ofZ (n : Z) : t := round (inject_Z n).

Definition isNegative (q : Q) : bool := Qnum q <? 0.
Definition isZero (q : Q) : bool := Qnum q =? 0.

(** Truthiness of a number: neither zero nor NaN. *)
Definition truthy (x : t) : bool :=
  match x with
  | finite q => negb (isZero q)
  | infinity _ => true
  | nan => false
  end.

(** [x + y] *)
Definition add (x y : t) : t :=
  match x, y with
  | nan, _ | _, nan => nan
  | infinity a, infinity b => if Bool.eqb a b then infinity a else nan
  | infinity a, finite _ | finite _, infinity a => infinity a
  | finite a, finite b => round (a + b)
  end.

(** [x * y] *)
Definition mul (x y : t) : t :=
  match x, y with
  | nan, _ | _, nan => nan
  | infinity a, infinity b => infinity (xorb a b)
  | infinity a, finite q | finite q, infinity a =>
      if isZero q then nan else infinity (xorb a (isNegative q))
  | finite a, finite b => round (a * b)
  end.

(** [x / n] for the length [n] of a non-empty array *)
Definition divCount (x : t) (n : positive) : t :=
  match x with
  | finite q => round (q / inject_Z (Zpos n))
  | _ => x
  end.

(** [parseInt] of a string of decimal digits: the double nearest to the
    number they write, every digit taken into account (Infinity from
    [2^1024] on), and NaN for no digit at all. *)
Definition parseInt (digits : str) : t :=
  match digits with
  | [] => nan
  | _ => ofZ (Str.parseDigits digits)
  end.

(** The decimal digits of a natural number *)
Fixpoint digitsOf (fuel : nat) (n : Z) (acc : str) : str :=
  match fuel with
  | O => acc
  | S fuel' =>
      let acc' := ascii_of_N (Z.to_N (48 + n mod 10)) :: acc in
      if n <? 10 then acc' else digitsOf fuel' (n / 10) acc'
  end.

Definition decimal (n : Z) : str := digitsOf (S (Z.to_nat (Z.log2 n))) n [].

(** A string made from a number: its characters where [toFixed] writes
    them out, [String(x)] otherwise. *)
Inductive text : Type :=
| Chars (s : str)
| ToString (x : t).

(** The integer nearest to [a / b] for a positive [b], the larger one of
    two. *)
Definition halfUp (a b : Z) : Z :=
  if b <=? 2 * (a mod b) then a / b + 1 else a / b.

(** [x.toFixed(1)]: the sign, the integer [n] nearest to [10 * |x|] (the
    larger of two) with a point before its last digit; [String(x)] for NaN,
    the infinities and from [10^21] on. *)
Definition toFixed1 (x : t) : text :=
  match x with
  | finite q =>
      let a := Z.abs (Qnum q) in
      let b := Zpos (Qden q) in
      if 10 ^ 21 * b <=? a then ToString x
      else
        let n := halfUp (10 * a) b in
        Chars ((if isNegative q then $"-" else [])
               ++ decimal (n / 10) ++ $"." ++ decimal (n mod 10))
  | _ => ToString x
  end.

End Double.

(** ** Regular expressions

    The regular-expression literals of the program are kept as syntax and
    run by a backtracking matcher with the priorities of ECMAScript:
    leftmost start, alternatives left to right, greedy quantifiers. *)

Module Regex.

Inductive citem : Type :=
| CChar (c : ascii)
| CRange (lo hi : ascii)
| CWord
| CDigit
| CSpace.

Inductive regex : Type :=
| Lit (c : ascii)
| Class (items : list citem)
| Dot
| Eps
| Seq (r1 r2 : regex)
| Alt (r1 r2 : regex)
| Star (r : regex)
| Group (i : nat) (r : regex)
| WordB
| EndAnchor.

Declare Scope re_scope.
Delimit Scope re_scope with re.
Bind Scope re_scope with regex.
Infix ">>" := Seq (at level 60, right associativity) : re_scope.
Infix "<|>" := Alt (at level 70, right associativity) : re_scope.

Definition Plus (r : regex) : regex := Seq r (Star r).
Definition Opt (r : regex) : regex := Alt r Eps.

Fixpoint Rep (n : nat) (r : regex) : regex :=
  match n with
  | O => Eps
  | S n' => Seq r (Rep n' r)
  end.

Fixpoint RepUpTo (n : nat) (r : regex) : regex :=
  match n with
  | O => Eps
  | S n' => Opt (Seq r (RepUpTo n' r))
  end.

(** [r{lo,hi}] *)
Definition RepRange (lo hi : nat) (r : regex) : regex :=
  Seq (Rep lo r) (RepUpTo (hi - lo) r).

(** A run of literal characters. *)
Fixpoint Word (w : str) : regex :=
  match w with
  | [] => Eps
  | c :: w' => Seq (Lit c) (Word w')
  end.

(** [w1|w2|...] *)
Fixpoint Words (ws : list str) : regex :=
  match ws with
  | [] => Class []
  | [w] => Word w
  | w :: ws' => Alt (Word w) (Words ws')
  end.

Definition lit_match (ic : bool) (p c : ascii) : bool :=
  if ic then Char.eqb (Char.canon p) (Char.canon c) else Char.eqb p c.

Definition item_match (ic : bool) (it : citem) (c : ascii) : bool :=
  match it with
  | CChar p => lit_match ic p c
  | CRange lo hi =>
      Char.between lo hi c
      || (ic && (Char.between lo hi (Char.toUpper c)
                 || Char.between lo hi (Char.toLowerAscii c)))
  | CWord => Char.isWord c
  | CDigit => Char.isDigit c
  | CSpace => Char.isSpace c
  end.

(** Matcher state: the character before the position, the input from the
    position on, and the captures made so far (latest first). *)
Record mstate : Type := MState {
  prev : option ascii;
  rest : str;
  caps : list (nat * str)
}.

Definition isWordOpt (o : option ascii) : bool :=
  match o with
  | Some c => Char.isWord c
  | None => false
  end.

Definition at_boundary (st : mstate) : bool :=
  xorb (isWordOpt (prev st)) (isWordOpt (head (rest st))).

Definition consumed (st st' : mstate) : str :=
  take (length (rest st) - length (rest st'))%nat (rest st).

Definition step_char {A} (ok : ascii -> bool) (st : mstate)
    (k : mstate -> option A) : option A :=
  match rest st with
  | c :: s' => if ok c then k (MState (Some c) s' (caps st)) else None
  | [] => None
  end.

(** Greedy iteration; an iteration that consumes nothing is rejected. *)
Fixpoint star_loop {A} (body : mstate -> (mstate -> option A) -> option A)
    (fuel : nat) (st : mstate) (k : mstate -> option A) : option A :=
  match fuel with
  | O => k st
  | S fuel' =>
      match body st (fun st' =>
              if (length (rest st') <? length (rest st))%nat
              then star_loop body fuel' st' k else None) with
      | Some a => Some a
      | None => k st
      end
  end.

Fixpoint rmatch {A} (ic : bool) (r : regex) (st : mstate)
    (k : mstate -> option A) {struct r} : option A :=
  match r with
  | Lit c => step_char (lit_match ic c) st k
  | Class items => step_char (fun c => existsb (fun it => item_match ic it c) items) st k
  | Dot => step_char (fun c => negb (Char.isLineTerminator c)) st k
  | Eps => k st
  | Seq r1 r2 => rmatch ic r1 st (fun st1 => rmatch ic r2 st1 k)
  | Alt r1 r2 =>
      match rmatch ic r1 st k with
      | Some a => Some a
      | None => rmatch ic r2 st k
      end
  | Star r1 => star_loop (rmatch ic r1) (S (length (rest st))) st k
  | Group i r1 =>
      rmatch ic r1 st (fun st1 =>
        k (MState (prev st1) (rest st1) ((i, consumed st st1) :: caps st1)))
  | WordB => if at_boundary st then k st else None
  | EndAnchor => match rest st with [] => k st | _ :: _ => None end
  end.

(** What the matcher searches for: [matches ic r st st'] says that [r]
    can match from [st] and leave [st']. *)
Inductive matches (ic : bool) : regex -> mstate -> mstate -> Prop :=
| matches_Lit c x s p cs :
    lit_match ic c x = true ->
    matches ic (Lit c) (MState p (x :: s) cs) (MState (Some x) s cs)
| matches_Class items x s p cs :
    existsb (fun it => item_match ic it x) items = true ->
    matches ic (Class items) (MState p (x :: s) cs) (MState (Some x) s cs)
| matches_Dot x s p cs :
    Char.isLineTerminator x = false ->
    matches ic Dot (MState p (x :: s) cs) (MState (Some x) s cs)
| matches_Eps st :
    matches ic Eps st st
| matches_Seq r1 r2 st st1 st2 :
    matches ic r1 st st1 -> matches ic r2 st1 st2 ->
    matches ic (Seq r1 r2) st st2
| matches_AltL r1 r2 st st' :
    matches ic r1 st st' -> matches ic (Alt r1 r2) st st'
| matches_AltR r1 r2 st st' :
    matches ic r2 st st' -> matches ic (Alt r1 r2) st st'
| matches_StarNil r st :
    matches ic (Star r) st st
| matches_StarCons r st st1 st2 :
    matches ic r st st1 ->
    (length (rest st1) < length (rest st))%nat ->
    matches ic (Star r) st1 st2 ->
    matches ic (Star r) st st2
| matches_Group i r st st1 :
    matches ic r st st1 ->
    matches ic (Group i r) st
      (MState (prev st1) (rest st1) ((i, consumed st st1) :: caps st1))
| matches_WordB st :
    at_boundary st = true -> matches ic WordB st st
| matches_End st :
    rest st = [] -> matches ic EndAnchor st st.

(** A regular-expression literal: its body and its [i] flag. *)
Record pattern : Type := Pattern { body : regex; icase : bool }.

(** The array returned by [exec] / [String.prototype.match]. *)
Record match_result : Type := MatchResult {
  m_index : nat;
  m_text : str;
  m_caps : list (nat * str)
}.

(** [match[i]] for [i >= 1]; [None] is [undefined]. *)
Definition group (m : match_result) (i : nat) : option str :=
  snd <$> List.find (fun e => Nat.eqb (fst e) i) (m_caps m).

Fixpoint exec_from (p : pattern) (before : option ascii) (idx : nat)
    (s : str) : option match_result :=
  match rmatch (icase p) (body p) (MState before s []) Some with
  | Some st =>
      Some (MatchResult idx (take (length s - length (rest st))%nat s) (caps st))
  | None =>
      match s with
      | [] => None
      | c :: s' => exec_from p (Some c) (S idx) s'
      end
  end.

Definition exec (p : pattern) (s : str) : option match_result :=
  exec_from p None 0 s.

Definition test (p : pattern) (s : str) : bool :=
  match exec p s with Some _ => true | None => false end.

End Regex.

Import Regex.

(** ** JavaScript values the service computes with *)

(** A JavaScript number that results from a division. *)
Inductive number : Type :=
| Num (q : Q)
| NaN
| Infinity.

(** [a / b] for two sizes. *)
Definition divide (a b : nat) : number :=
  match b, a with
  | O, O => NaN
  | O, S _ => Infinity
  | S _, _ => Num (Z.of_nat a # Pos.of_nat b)
  end.

(** [x > q] *)
Definition number_gt (x : number) (q : Q) : bool :=
  match x with
  | Num p => negb (Qle_bool p q)
  | NaN => false
  | Infinity => true
  end.

(** Truthiness of a [string | null]. *)
Definition truthy (o : option str) : bool :=
  match o with
  | Some (_ :: _) => true
  | _ => false
  end.

(** [o || ''] *)
Definition orEmpty (o : option str) : str :=
  match o with
  | Some s => s
  | None => []
  end.

(** Stable sort, the order of [Array.prototype.sort]; [nonpos a b] says
    that the comparator gives [cmp(a, b) <= 0], so that [a] stays before
    [b]. *)
Section Sort.

Context {A : Type} (nonpos : A -> A -> bool).

Fixpoint insert_sorted (x : A) (l : list A) : list A :=
  match l with
  | [] => [x]
  | y :: l' => if nonpos x y then x :: l else y :: insert_sorted x l'
  end.

Definition sort (l : list A) : list A := foldr insert_sorted [] l.

End Sort.

Inductive operator : Type := lt | gt.

Inductive role : Type := user | assistant.

(** A conversation turn, [{ role, content }]. *)
Record turn : Type := Turn { msg_role : role; content : str }.

Inductive query_type : Type :=
| greeting
| recruitment
| off_topic
| help
| unclear.

Record classification : Type := Classification {
  type : query_type;
  confidence : Q
}.

Global Instance operator_eq_dec : EqDecision operator.
Proof. solve_decision. Defined.
Global Instance role_eq_dec : EqDecision role.
Proof. solve_decision. Defined.
Global Instance query_type_eq_dec : EqDecision query_type.
Proof. solve_decision. Defined.


(** ** The external store and services *)

(** The [skills] column: null, a string, or an array of strings. *)
Inductive skills_value : Type :=
| SkillsNull
| SkillsText (s : str)
| SkillsArray (l : list str).

(** The [similarity_score] that the semantic search adds to a row: the
    string of [toFixed(1)], or the number 0. *)
Inductive score_value : Type :=
| ScoreText (s : Double.text)
| ScoreNumber (x : Double.t).

(** A row of the store.  Only the columns the service reads are kept;
    [similarity_score] and [experienceYears] are the two properties the
    service adds to candidate rows. *)
Record row : Type := Row {
  id : str;
  name : option str;
  email : option str;
  status : option str;
  interview_result : option str;
  skills : skills_value;
  experience : option str;
  resume_text : option str;
  overall_score : option Q;
  title : option str;
  description : option str;
  embedding : option str;
  similarity_score : option score_value;
  experienceYears : option Q
}.

(** A row returned by the vector-match procedure. *)
Record match_row : Type := MatchRow {
  candidate_id : str;
  similarity : option Q
}.

Inductive table : Type :=
| hr_job_candidates
| hr_jobs
| hr_clients
| hr_client_contacts
| job_statuses
| resume_embeddings.

(** The filter calls of the query builder: [.not(column, 'is', null)],
    [.eq], [.ilike], [.filter(column, op, value)], [.or] and [.in]. *)
Inductive filter_clause : Type :=
| f_not_null (column : str)
| f_eq (column value : str)
| f_ilike (column pat : str)
| f_filter (column op : str) (value : Double.t)
| f_or (expr : str)
| f_in (column : str) (values : list str).

Record ordering : Type := Ordering {
  order_column : str;
  ascending : bool;
  nullsFirst : option bool
}.

Record request : Type := Request {
  from : table;
  select : str;
  where_ : list filter_clause;
  order : option ordering;
  limit : option Z
}.

(** What a store call resolves to: [{ data, error: null }],
    [{ data: null, error }] with the error's message, or a rejected
    promise. *)
Inductive response (A : Type) : Type :=
| Data (rows : A)
| Failure (error : str)
| Rejected (message : str).
Arguments Data {A} rows.
Arguments Failure {A} error.
Arguments Rejected {A} message.

Record stats : Type := Stats {
  totalJobs : Z;
  totalCandidates : Z;
  totalClients : Z;
  totalContacts : Z;
  totalStatuses : Z;
  averageCandidateScore : Double.text;
  screening : nat;
  selected : nat;
  rejected : nat
}.

Inductive result_type : Type :=
| top_candidates_for_skill
| top_candidates
| all_candidates
| candidate_followup
| candidate_full_details
| job_details
| semantic_search
| candidates_by_experience
| candidates_by_score
| candidates_by_salary
| candidates_by_skill
| candidates_by_job_title
| jobs_by_title
| candidates_by_status
| candidates_by_location
| clients_and_contacts
| jobs
| job_statuses_list
| candidates_broad_search
| candidate_by_name_phrase
| candidate_by_name_keywords_and
| candidate_by_name_keywords_or
| no_results
| error.

(** The [data] object of a search result, by shape. *)
Inductive result_data : Type :=
| Candidates (candidates : list row)
| CandidatesFor (candidates : list row) (searchTerm : str) (requestedCount : Z)
| CandidatesFollowup (candidates : list row) (contextName : str)
| CandidatesSemantic (candidates : list row)
| CandidatesBroad (candidates : list row) (searchTerm : str)
| Jobs (jobs : list row)
| Clients (clients : list row) (contacts : option (list row)) (activeOnly : bool)
| Statuses (statuses : list row).

Record search_result : Type := SearchResult {
  res_type : result_type;
  data : option result_data
}.

Global Instance result_type_eq_dec : EqDecision result_type.
Proof. solve_decision. Defined.
Global Instance table_eq_dec : EqDecision table.
Proof. solve_decision. Defined.

(** The rows a result carries. *)
Definition result_rows (d : result_data) : list row :=
  match d with
  | Candidates l | CandidatesFor l _ _ | CandidatesFollowup l _
  | CandidatesSemantic l | CandidatesBroad l _ | Jobs l | Clients l _ _
  | Statuses l => l
  end.

(** The data handed to the analytics prompt. *)
Record report_data : Type := ReportData {
  summary_report : bool;
  top_jobs_by_applications : option (option (list row));
  candidate_pipeline_distribution : option (option (list row))
}.

(** Bodies sent to the chat-completion endpoint.  A prompt is kept as the
    values its text is assembled from. *)
Inductive completion_request : Type :=
| ChatPrompt (queryType : query_type) (st : stats)
    (searchResults : option search_result) (recent : list turn)
    (requestedCount : option Z) (userMessage : str)
| JDExtractionPrompt (jobDescription : str)
| JDRankingPrompt (jobDescription : str) (candidates : list row)
| AnalyticsPrompt (reportData : report_data).

(** What the chat-completion call yields: a success body with the generated
    text, a non-success status with the upstream message, or a failure to
    obtain or read a body. *)
Inductive completion : Type :=
| Completed (text : str)
| NotOk (upstream : str)
| Failed (message : str).

Inductive rpc_call : Type :=
| match_candidates (query_embedding : str) (match_threshold : Q) (match_count : Z)
| match_candidates_to_job (job_embedding : str) (match_threshold : Q) (match_count : Z)
| get_top_jobs_by_application_count (limit_count : Z)
| get_candidate_status_distribution.

(** Who issues a read: one of the router's strategies, in the order the
    router tries them, or another part of the service. *)
Inductive origin : Type :=
| TopForCriterion
| TopByScore
| AllCandidates
| FollowUp
| EmailSearch
| PhoneSearch
| JobIdSearch
| SemanticSearch
| ExperienceSearch
| ScoreSearch
| SalarySearch
| SkillSearch
| JobTitleSearch
| StatusSearch
| LocationSearch
| ClientSearch
| JobSearch
| StatusTypes
| CatchAll
| NameSearch
| Other.

(** Everything the service does to the outside, in the order it does it. *)
Inductive event : Type :=
| Read (by_ : origin) (r : request)
| ReadOne (r : request)
| CountRows (t : table)
| Rpc (c : rpc_call)
| Embed (input : str)
| Complete (c : completion_request)
| Now
| Random
| CacheSet (key : str) (answer : str) (timestamp : Z).

(** The outside world answers each call from the events so far. *)
Record world : Type := World {
  on_read : list event -> request -> response (list row);
  on_read_one : list event -> request -> response row;
  on_count : list event -> table -> response Z;
  on_match : list event -> rpc_call -> response (list match_row);
  on_rpc : list event -> rpc_call -> response (list row);
  on_embed : list event -> str -> option str;
  on_complete : list event -> completion_request -> completion;
  on_now : list event -> Z;
  on_random : list event -> nat;
  (** [JSON.parse] of the object found in a completion, read at [.skills];
      it throws when the text holds no such object. *)
  parse_skills : str -> str + list str;
  (** [JSON.parse] of a stored embedding; [None] when it throws. *)
  parse_embedding : str -> option str
}.

Record cache_entry : Type := CacheEntry {
  cached_response : str;
  timestamp : Z
}.

Record state : Type := State {
  responseCache : gmap str cache_entry;
  trace : list event
}.

(** ** Computations with effects and exceptions *)

Inductive outcome (A : Type) : Type :=
| Returns (a : A)
| Throws (message : str).
Arguments Returns {A} a.
Arguments Throws {A} message.

Definition M (A : Type) : Type := state -> outcome A * state.

Definition ret {A} (a : A) : M A := fun s => (Returns a, s).

Definition throw {A} (message : str) : M A := fun s => (Throws message, s).

Definition bind {A B} (m : M A) (f : A -> M B) : M B :=
  fun s =>
    match m s with
    | (Returns a, s') => f a s'
    | (Throws e, s') => (Throws e, s')
    end.

(** [try { m } catch (error) { h(error.message) }] *)
Definition try_catch {A} (m : M A) (h : str -> M A) : M A :=
  fun s =>
    match m s with
    | (Returns a, s') => (Returns a, s')
    | (Throws e, s') => h e s'
    end.

Notation "'let*' x ':=' m 'in' k" := (bind m (fun x => k))
  (at level 10, x pattern, m at level 100, k at level 200).

Definition emit (e : event) : M unit :=
  fun s => (Returns tt, State (responseCache s) (trace s ++ [e])).

Definition get_trace : M (list event) := fun s => (Returns (trace s), s).

Definition get_cache : M (gmap str cache_entry) :=
  fun s => (Returns (responseCache s), s).

(** [responseCache.set(key, { response, timestamp })] *)
Definition cache_set (key answer : str) (now : Z) : M unit :=
  fun s =>
    (Returns tt,
     State (<[key := CacheEntry answer now]> (responseCache s))
           (trace s ++ [CacheSet key answer now])).

(** Await a call that resolves to [{ data }] or rejects; the caller reads
    [data] only. *)
Definition await {A} (e : event) (answer : list event -> response A)
    : M (option A) :=
  let* t := get_trace in
  let* _ := emit e in
  match answer t with
  | Data a => ret (Some a)
  | Failure _ => ret None
  | Rejected msg => throw msg
  end.

Definition from_ (t : table) : request := Request t $"*" [] None None.
Definition where_also (f : filter_clause) (r : request) : request :=
  Request (from r) (select r) (where_ r ++ [f]) (order r) (limit r).
Definition order_by (column : str) (asc : bool) (nulls : option bool)
    (r : request) : request :=
  Request (from r) (select r) (where_ r) (Some (Ordering column asc nulls)) (limit r).
Definition limit_to (n : Z) (r : request) : request :=
  Request (from r) (select r) (where_ r) (order r) (Some n).
Definition selecting (columns : str) (r : request) : request :=
  Request (from r) columns (where_ r) (order r) (limit r).

(** [data && data.length > 0] *)
Definition nonempty {A} (o : option (list A)) : option (list A) :=
  match o with
  | Some (x :: l) => Some (x :: l)
  | _ => None
  end.

Notation "r '.>' f" := (f r) (at level 45, left associativity, only parsing).

(** [`%${s}%`] *)
Definition percent (s : str) : str := $"%" ++ s ++ $"%".

Definition read (w : world) (by_ : origin) (r : request)
    : M (option (list row)) :=
  await (Read by_ r) (fun t => on_read w t r).

(** ** [EmbeddingService] *)

Module EmbeddingService.

Section WithWorld.

Variable w : world.

(** [generateEmbedding]: its own [catch] turns every failure into
    [{ success: false }], here [None]. *)
Definition generateEmbedding (text : str) : M (option str) :=
  let cleanText := take (Z.to_nat 8000) (Str.trim (Str.collapseSpaces text)) in
  let* t := get_trace in
  let* _ := emit (Embed cleanText) in
  ret (on_embed w t cleanText).

(** [generateBatchEmbeddings]: the texts are embedded one after the other.
    The pause of [delayMs] between two requests is a timer of the caller;
    it issues nothing and is not an event. *)
Fixpoint generateBatchEmbeddings (texts : list str) (delayMs : Z)
    : M (list (option str)) :=
  match texts with
  | [] => ret []
  | text :: texts' =>
      let* result := generateEmbedding text in
      let* results := generateBatchEmbeddings texts' delayMs in
      ret (result :: results)
  end.

(** [match?.similarity ? (match.similarity * 100).toFixed(1) : 0] *)
Definition mergedScore (matches : list match_row) (candidate : row) : score_value :=
  match List.find (fun d => Str.eqb (candidate_id d) (id candidate)) matches with
  | Some (MatchRow _ (Some sim)) =>
      let similarity := Double.round sim in
      if Double.truthy similarity
      then ScoreText (Double.toFixed1 (Double.mul similarity (Double.finite 100)))
      else ScoreNumber (Double.finite 0)
  | _ => ScoreNumber (Double.finite 0)
  end.

Definition withSimilarity (matches : list match_row) (c : row) : row :=
  Row (id c) (name c) (email c) (status c) (interview_result c) (skills c)
      (experience c) (resume_text c) (overall_score c) (title c)
      (description c) (embedding c) (Some (mergedScore matches c))
      (experienceYears c).

Definition searchSimilarCandidates (query : str) (limit : Z) (threshold : Q)
    : M (list row) :=
  try_catch
    (let* result := generateEmbedding query in
     match result with
     | None => throw $"Failed to generate query embedding"
     | Some embedding =>
         let call := match_candidates embedding threshold limit in
         let* t := get_trace in
         let* _ := emit (Rpc call) in
         match on_match w t call with
         | Rejected msg => throw msg
         | Failure err => throw err
         | Data [] => ret []
         | Data matches =>
             let candidateIds := map candidate_id matches in
             let* candidates :=
               read w SemanticSearch
                 (where_also (f_in $"id" candidateIds) (from_ hr_job_candidates)) in
             ret (match candidates with
                  | Some l => map (withSimilarity matches) l
                  | None => []
                  end)
         end
     end)
    (fun _ => ret []).

Definition findSimilarCandidates (candidateId : str) (limit : Z) : M (list row) :=
  try_catch
    (let request :=
       selecting $"embedding"
         (where_also (f_eq $"candidate_id" candidateId) (from_ resume_embeddings)) in
     let* found := await (ReadOne request) (fun t => on_read_one w t request) in
     match found with
     | None => throw $"Candidate embedding not found"
     | Some embeddingRow =>
         match parse_embedding w (orEmpty (embedding embeddingRow)) with
         | None => throw $"Unexpected token"
         | Some query_embedding =>
             let call := match_candidates query_embedding (7 # 10) (limit + 1) in
             let* matched := await (Rpc call) (fun t => on_match w t call) in
             let similarIds :=
               match matched with
               | Some l =>
                   take (Z.to_nat limit)
                     (map candidate_id
                        (filter (fun d => candidate_id d <> candidateId) l))
               | None => []
               end in
             match similarIds with
             | [] => ret []
             | _ =>
                 let* candidates :=
                   read w Other
                     (where_also (f_in $"id" similarIds)
                                 (from_ hr_job_candidates)) in
                 ret (match candidates with Some l => l | None => [] end)
             end
         end
     end)
    (fun _ => ret []).

Definition matchCandidatesToJD (jdText : str) (limit : Z) (threshold : Q)
    : M (list row) :=
  try_catch
    (let* result := generateEmbedding jdText in
     match result with
     | None => throw $"Failed to generate JD embedding"
     | Some embedding =>
         let call := match_candidates_to_job embedding threshold limit in
         let* t := get_trace in
         let* _ := emit (Rpc call) in
         match on_rpc w t call with
         | Rejected msg => throw msg
         | Failure err => throw err
         | Data l => ret l
         end
     end)
    (fun _ => ret []).

End WithWorld.

End EmbeddingService.

(** ** [ChatService]: extractors, classifier and similarity *)

Module ChatService.

Definition digit : regex := Class [CDigit].
Definition space : regex := Class [CSpace].
Definition wordChar : regex := Class [CWord].
(** [[\w.-]] *)
Definition emailChar : regex := Class [CWord; CChar "."; CChar "-"].
(** [[A-Z][a-z]+] *)
Definition capitalized : regex :=
  (Class [CRange "A" "Z"] >> Plus (Class [CRange "a" "z"]))%re.

(** [/[\w.-]+@[\w.-]+\.\w+/] *)
Definition emailBody : regex :=
  (Plus emailChar >> Lit "@" >> Plus emailChar >> Lit "." >> Plus wordChar)%re.
Definition emailPattern : pattern := Pattern emailBody false.

Definition extractEmail (query : str) : option str :=
  m_text <$> exec emailPattern query.

(** [/(\+91)?[\s-]?([6-9]\d{9})/] *)
Definition phonePattern : pattern :=
  Pattern (Opt (Group 1 (Word $"+91")) >> Opt (Class [CSpace; CChar "-"])
           >> Group 2 (Class [CRange "6" "9"] >> Rep 9 digit))%re false.

Definition extractPhone (query : str) : option str :=
  m ← exec phonePattern query; group m 2.

(** [/([A-Z]{2,4}\d+)/i] *)
Definition jobIdPattern : pattern :=
  Pattern (Group 1 (RepRange 2 4 (Class [CRange "A" "Z"]) >> Plus digit))%re true.

Definition extractJobId (query : str) : option str :=
  (fun m => Str.toUpperCase (m_text m)) <$> exec jobIdPattern query.

(** [/(\d+)\s*year/i] and [/(\d+)\s*month/i] *)
Definition yearPattern : pattern :=
  Pattern (Group 1 (Plus digit) >> Star space >> Word $"year")%re true.
Definition monthPattern : pattern :=
  Pattern (Group 1 (Plus digit) >> Star space >> Word $"month")%re true.

Definition groupInt (p : pattern) (i : nat) (s : str) : Z :=
  match exec p s with
  | Some m => Str.parseDigits (orEmpty (group m i))
  | None => 0
  end.

Definition parseExperience (experienceText : str) : Q :=
  match experienceText with
  | [] => 0
  | _ =>
      let years := groupInt yearPattern 1 experienceText in
      let months := groupInt monthPattern 1 experienceText in
      (inject_Z years + inject_Z months / 12)%Q
  end.

Record experience_filter : Type := ExperienceFilter {
  years : Z;
  exp_operator : operator
}.

(** [/(?:above|more than|over|greater than|>)\s*(\d+)\s*year|(?:less than|below|under|<)\s*(\d+)\s*year/i] *)
Definition experiencePattern : pattern :=
  Pattern
    ((Words [$"above"; $"more than"; $"over"; $"greater than"; $">"]
        >> Star space >> Group 1 (Plus digit) >> Star space >> Word $"year")
     <|>
     (Words [$"less than"; $"below"; $"under"; $"<"]
        >> Star space >> Group 2 (Plus digit) >> Star space >> Word $"year"))%re
    true.

Definition extractExperience (query : str) : option experience_filter :=
  match exec experiencePattern query with
  | Some m =>
      let digits := if truthy (group m 1) then group m 1 else group m 2 in
      let lower := Str.toLowerCase query in
      let op := if Str.includes lower $"above" || Str.includes lower $"more"
                   || Str.includes lower $"over" || Str.includes lower $"greater"
                then gt else lt in
      Some (ExperienceFilter (Str.parseDigits (orEmpty digits)) op)
  | None => None
  end.

Record salary_filter : Type := SalaryFilter {
  amount : Double.t;
  sal_operator : operator
}.

(** [/(\d+)\s*(l|lakh|lpa)/i] *)
Definition salaryPattern : pattern :=
  Pattern (Group 1 (Plus digit) >> Star space
           >> Group 2 (Words [$"l"; $"lakh"; $"lpa"]))%re true.

Definition extractSalary (query : str) : option salary_filter :=
  match exec salaryPattern query with
  | None => None
  | Some m =>
      let amount := Double.mul (Double.parseInt (orEmpty (group m 1)))
                               (Double.finite 100000) in
      let op := if Str.includes query $"below" || Str.includes query $"under"
                then lt else gt in
      Some (SalaryFilter amount op)
  end.

Record score_filter : Type := ScoreFilter {
  score : Double.t;
  score_operator : operator
}.

(** [/score\s*(above|below|over|under|>|<)\s*(\d+)/i] *)
Definition scorePattern : pattern :=
  Pattern (Word $"score" >> Star space
           >> Group 1 (Words [$"above"; $"below"; $"over"; $"under"; $">"; $"<"])
           >> Star space >> Group 2 (Plus digit))%re true.

(** [/(below|under|<)/] *)
Definition lowerComparatorPattern : pattern :=
  Pattern (Group 1 (Words [$"below"; $"under"; $"<"])) false.

Definition extractScore (query : str) : option score_filter :=
  match exec scorePattern query with
  | None => None
  | Some m =>
      let score := Double.parseInt (orEmpty (group m 2)) in
      let op := if test lowerComparatorPattern (orEmpty (group m 1))
                then lt else gt in
      Some (ScoreFilter score op)
  end.

(** [text.toLowerCase().replace(/[^\w\s]/g, ' ').replace(/\s+/g, ' ').trim()] *)
Definition normalizeForSearch (text : str) : str :=
  Str.trim (Str.collapseSpaces (Str.blankSpecials (Str.toLowerCase text))).

(** [(a, b) => b.length - a.length] is at most 0 *)
Definition byLengthDesc (a b : str) : bool :=
  Z.of_nat (length b) - Z.of_nat (length a) <=? 0.

(** The longest vocabulary entry contained in the normalized query; among
    entries of equal length the one listed first. *)
Definition longestMatch (vocabulary : list str) (query : str) : option str :=
  let lowerQuery := normalizeForSearch query in
  let matches :=
    sort byLengthDesc (filter (fun w => Str.includes lowerQuery w = true) vocabulary) in
  head matches.

Definition skillKeywords : list str :=
  [ $"javascript"; $"typescript"; $"react"; $"node"; $"python"; $"java";
    $"dialogflow"; $"playwright"; $"aws"; $"azure"; $"gcp"; $"servicenow";
    $"service now";
    $"sql"; $"mongodb"; $"kubernetes"; $"docker"; $"angular"; $"vue";
    $"sap"; $"fico"; $"abap"; $"hana"; $"erp"; $"crm"; $"power bi"; $"powerbi";
    $"tableau"; $"excel"; $"data science"; $"machine learning"; $"ml";
    $"ai"; $"artificial intelligence"; $"deep learning"; $"nlp";
    $"c++"; $"c#"; $"golang"; $"rust"; $"php"; $"ruby"; $"scala";
    $"jenkins"; $"gitlab"; $"github"; $"devops"; $"ci/cd"; $"cicd";
    $"sap fico"; $"sap mm"; $"sap sd"; $"sap hana"; $"sap abap" ].

Definition extractSkill (query : str) : option str :=
  longestMatch skillKeywords query.

Definition jobTitles : list str :=
  [ $"data scientist"; $"data analyst"; $"data engineer";
    $"software engineer"; $"software developer"; $"developer";
    $"full stack"; $"fullstack"; $"frontend"; $"front end"; $"backend";
    $"back end";
    $"devops engineer"; $"devops";
    $"sap consultant"; $"sap fico"; $"sap mm"; $"sap sd"; $"sap hana";
    $"sap abap";
    $"business analyst"; $"business intelligence";
    $"project manager"; $"product manager";
    $"qa engineer"; $"quality assurance"; $"tester";
    $"ui/ux designer"; $"ux designer"; $"ui designer";
    $"cloud architect"; $"solution architect"; $"technical architect";
    $"machine learning engineer"; $"ml engineer"; $"ai engineer";
    $"data analyst"; $"mis executive"; $"mis analyst";
    $"accounts executive"; $"accountant"; $"finance manager" ].

Definition extractJobTitle (query : str) : option str :=
  longestMatch jobTitles query.

(** Character-overlap similarity used for typo tolerance. *)
Definition calculateSimilarity (str1 str2 : str) : number :=
  let s1 := normalizeForSearch str1 in
  let s2 := normalizeForSearch str2 in
  if Str.eqb s1 s2 then Num 1
  else if Str.includes s1 s2 || Str.includes s2 s1 then Num (8 # 10)
  else
    let chars1 : gset ascii := list_to_set s1 in
    let chars2 : gset ascii := list_to_set s2 in
    let intersection := filter (fun x => x ∈ chars2) chars1 in
    let union := chars1 ∪ chars2 in
    divide (size intersection) (size union).

(** [/\*\*([A-Z][a-z]+\s+[A-Z][a-z]+(?:\s+[A-Z][a-z]+)?)\*\*/] *)
Definition boldNamePattern : pattern :=
  Pattern (Word $"**"
           >> Group 1 (capitalized >> Plus space >> capitalized
                       >> Opt (Plus space >> capitalized))
           >> Word $"**")%re false.

(** [/Email:\s*[\w.-]+@[\w.-]+\.\w+/i] *)
Definition emailLabelPattern : pattern :=
  Pattern (Word $"Email:" >> Star space >> emailBody)%re true.

(** [/(?:Candidate|Name):\s*\*\*([A-Z][a-z]+\s+[A-Z][a-z]+)\*\*/i] *)
Definition nameBeforeEmailPattern : pattern :=
  Pattern (Words [$"Candidate"; $"Name"] >> Lit ":" >> Star space >> Word $"**"
           >> Group 1 (capitalized >> Plus space >> capitalized)
           >> Word $"**")%re true.

(** [arr.slice(-n)] *)
Definition lastN {A} (n : nat) (l : list A) : list A :=
  drop (length l - n)%nat l.

Fixpoint firstName (msgs : list turn) : option str :=
  match msgs with
  | [] => None
  | msg :: msgs' =>
      match exec boldNamePattern (content msg) with
      | Some m => group m 1
      | None =>
          match exec emailLabelPattern (content msg),
                exec nameBeforeEmailPattern (content msg) with
          | Some _, Some m => group m 1
          | _, _ => firstName msgs'
          end
      end
  end.

Definition extractNameFromHistory (conversationHistory : list turn)
    : option str :=
  let recentAssistant :=
    lastN 3 (filter (fun m => msg_role m = assistant) conversationHistory) in
  firstName recentAssistant.

(** The three patterns of [extractNameFromQuery], all with the [i] flag. *)
Definition nameQueryPatterns : list pattern :=
  [ Pattern (Words [$"similar to"; $"like"; $"candidates like"] >> Plus space
             >> Group 1 (capitalized >> Opt (Plus space >> capitalized)))%re true;
    Pattern (Words [$"find"; $"show"; $"get"] >> Plus space
             >> Group 1 (capitalized >> Plus space >> capitalized))%re true;
    Pattern (Group 1 (capitalized >> Plus space >> capitalized) >> Plus space
             >> Words [$"profile"; $"details"; $"information"])%re true ].

Fixpoint firstGroup1 (patterns : list pattern) (query : str) : option str :=
  match patterns with
  | [] => None
  | p :: ps =>
      match exec p query with
      | Some m => group m 1
      | None => firstGroup1 ps query
      end
  end.

Definition extractNameFromQuery (query : str) : option str :=
  firstGroup1 nameQueryPatterns query.

(** [/(?:top|first|best|show|list|give me|find)\s+(\d+)/i] and
    [/(\d+)\s+(?:candidates|jobs|clients|people|profiles)/i] *)
Definition countPatterns : list pattern :=
  [ Pattern (Words [$"top"; $"first"; $"best"; $"show"; $"list"; $"give me"; $"find"]
             >> Plus space >> Group 1 (Plus digit))%re true;
    Pattern (Group 1 (Plus digit) >> Plus space
             >> Words [$"candidates"; $"jobs"; $"clients"; $"people"; $"profiles"])%re
            true ].

Fixpoint firstCount (patterns : list pattern) (query : str) : option Z :=
  match patterns with
  | [] => None
  | p :: ps =>
      match exec p query with
      | Some m =>
          let count := Str.parseDigits (orEmpty (group m 1)) in
          if (1 <=? count) && (count <=? 100) then Some count
          else firstCount ps query
      | None => firstCount ps query
      end
  end.

Definition extractRequestedCount (query : str) : option Z :=
  firstCount countPatterns query.

Definition semanticKeywords : list str :=
  [ $"similar to"; $"like"; $"candidates with expertise in"; $"find someone who";
    $"looking for"; $"good fit for"; $"experience in"; $"background in";
    $"specializes in"; $"expert in"; $"proficient in"; $"skilled in";
    $"who knows"; $"familiar with" ].

(** [keywords.some(kw => s.includes(kw))] *)
Definition includesAny (s : str) (keywords : list str) : bool :=
  existsb (fun kw => Str.includes s kw) keywords.

Definition shouldUseSemanticSearch (query : str) : bool :=
  includesAny (Str.toLowerCase query) semanticKeywords.

Definition greetings : list str :=
  [ $"hi"; $"hello"; $"hey"; $"good morning"; $"good afternoon";
    $"good evening"; $"greetings" ].

Definition helpKeywords : list str :=
  [ $"help"; $"what can you do"; $"how do you work"; $"capabilities"; $"features" ].

Definition recruitmentKeywords : list str :=
  [ $"candidate"; $"job"; $"position"; $"opening"; $"vacancy"; $"role"; $"hire";
    $"hiring";
    $"resume"; $"cv"; $"skill"; $"experience"; $"interview"; $"status";
    $"application";
    $"salary"; $"ctc"; $"compensation"; $"location"; $"qualification";
    $"education";
    $"client"; $"project"; $"screening"; $"selected"; $"rejected"; $"pipeline";
    $"analytics"; $"report"; $"metrics"; $"jd"; $"job description"; $"profile" ].

(** [/\b[A-Z][a-z]+(?:\s+[A-Z][a-z]+)+\b/] *)
Definition namePattern : pattern :=
  Pattern (WordB >> capitalized >> Plus (Plus space >> capitalized) >> WordB)%re
          false.

Definition classifyQuery (query : str) : classification :=
  let lowerQuery := Str.trim (Str.toLowerCase query) in
  if existsb (fun g => Str.eqb lowerQuery g
                       || Str.startsWith lowerQuery (g ++ $" ")) greetings
  then Classification greeting 1
  else if includesAny lowerQuery helpKeywords
  then Classification help (9 # 10)
  else
    let hasRecruitmentKeyword := includesAny lowerQuery recruitmentKeywords in
    let hasIdentifier :=
      truthy (extractEmail query) || truthy (extractPhone query)
      || truthy (extractJobId query) in
    if hasRecruitmentKeyword || hasIdentifier
    then Classification recruitment (9 # 10)
    else if test namePattern query
            && (length (Str.split_space query) <=? 5)%nat
    then Classification recruitment (7 # 10)
    else if (length (Str.split_space query) <=? 3)%nat
            && negb hasRecruitmentKeyword
    then Classification unclear (5 # 10)
    else Classification off_topic (8 # 10).


(** ** [ChatService.smartSearch]: the retrieval router *)

(** [/(?:top|best|show|list|find)\s+(\d+)?\s*(?:candidates?)?\s+(?:of|for|with|in)\s+(.+)/i] *)
Definition topCandidatesOfPattern : pattern :=
  Pattern (Words [$"top"; $"best"; $"show"; $"list"; $"find"] >> Plus space
           >> Opt (Group 1 (Plus digit)) >> Star space
           >> Opt (Word $"candidate" >> Opt (Lit "s")) >> Plus space
           >> Words [$"of"; $"for"; $"with"; $"in"] >> Plus space
           >> Group 2 (Plus Dot))%re true.

(** [/(?:top|best|highest)\s+\d+\s*(?:candidates?)?/i] *)
Definition topCandidatesPattern : pattern :=
  Pattern (Words [$"top"; $"best"; $"highest"] >> Plus space >> Plus digit
           >> Star space >> Opt (Word $"candidate" >> Opt (Lit "s")))%re true.

(** [/(?:all|every|show)\s+(?:the\s+)?candidates?(?:\s+list)?$/i] *)
Definition allCandidatesPattern : pattern :=
  Pattern (Words [$"all"; $"every"; $"show"] >> Plus space
           >> Opt (Word $"the" >> Plus space)
           >> Word $"candidate" >> Opt (Lit "s")
           >> Opt (Plus space >> Word $"list") >> EndAnchor)%re true.

(** [candidate.skills ? (Array.isArray(candidate.skills)
      ? candidate.skills.join(' ') : candidate.skills) : ''] *)
Definition skillsText (c : row) : str :=
  match skills c with
  | SkillsArray l => Str.join_space l
  | SkillsText s => s
  | SkillsNull => []
  end.

(** Typo-tolerant containment of [searchNormalized] in one field: the
    field contains it, or every word of it is contained in or similar to
    the field. *)
Definition fieldMatches (searchNormalized field : str) : bool :=
  let normalized := normalizeForSearch field in
  Str.includes normalized searchNormalized
  || forallb (fun word =>
                Str.includes normalized word
                || number_gt (calculateSimilarity normalized word) (7 # 10))
             (Str.split_space searchNormalized).

Definition matchesCriterion (searchTerm : str) (fields : row -> list str)
    (candidate : row) : bool :=
  existsb (fieldMatches (normalizeForSearch searchTerm)) (fields candidate).

Definition textFields (c : row) : list str :=
  [skillsText c; orEmpty (experience c); orEmpty (resume_text c)].

(** [requestedLimit || 20] *)
Definition defaultLimitOf (requestedLimit : option Z) : Z :=
  match requestedLimit with
  | Some n => if n =? 0 then 20 else n
  | None => 20
  end.

(** [arr.slice(0, n)] *)
Definition slice0 {A} (n : Z) (l : list A) : list A :=
  if n <? 0 then take (length l - Z.to_nat (- n))%nat l else take (Z.to_nat n) l.

Definition found (ty : result_type) (d : result_data) : option search_result :=
  Some (SearchResult ty (Some d)).

(** [data && data.length > 0 ? { type, data: make(data) } : fall through] *)
Definition ifRows (ty : result_type) (make : list row -> result_data)
    (data : option (list row)) : option search_result :=
  match nonempty data with
  | Some l => found ty (make l)
  | None => None
  end.

(** The guard shared by the two score-ranked listings. *)
Definition noIdentifierOrSkill (query : str) : bool :=
  negb (truthy (extractEmail query)) && negb (truthy (extractPhone query))
  && negb (truthy (extractSkill query)).

Definition followUpKeywords : list str :=
  [ $"applied"; $"date"; $"when"; $"status"; $"interview"; $"skills";
    $"experience"; $"salary"; $"their"; $"his"; $"her"; $"what about";
    $"tell me more" ].

Definition isFollowUp (query : str) : bool :=
  let lowerQuery := Str.toLowerCase query in
  includesAny lowerQuery followUpKeywords
  && (length (Str.split_space lowerQuery) <? 8)%nat
  && negb (truthy (extractEmail query))
  && negb (truthy (extractPhone query)).

(** [statusKeywords], in the order [for ... in] visits its keys. *)
Definition statusKeywords : list (str * list str) :=
  [ ($"screening", [$"screening"; $"reviewing"; $"in review"]);
    ($"selected", [$"selected"; $"hired"; $"accepted"; $"passed"; $"succeeded"]);
    ($"rejected", [$"rejected"; $"declined"; $"failed"; $"not selected"]);
    ($"interview", [$"interview"; $"interviewing"; $"scheduled"]);
    ($"offered", [$"offered"; $"offer"; $"offer stage"]) ].

Definition matchedStatusKey (lowerQuery : str) : option str :=
  fst <$> List.find (fun entry => includesAny lowerQuery (snd entry)) statusKeywords.

(** The column and the value the status strategy filters on. *)
Definition statusFilter (lowerQuery : str) : option (str * str) :=
  match matchedStatusKey lowerQuery with
  | Some key =>
      let column :=
        if bool_decide (key ∈ [$"screening"; $"offered"])
        then $"status" else $"interview_result" in
      let statusValue := Str.capitalize key in
      Some (column, statusValue)
  | None => None
  end.

Definition locations : list str :=
  [ $"bangalore"; $"bengaluru"; $"chennai"; $"hyderabad"; $"pune"; $"mumbai";
    $"delhi"; $"coimbatore" ].

Definition jobKeywords : list str :=
  [ $"job"; $"position"; $"opening"; $"vacancy"; $"role" ].

Definition catchAllStopWords : list str :=
  [ $"the"; $"show"; $"find"; $"list"; $"give"; $"get"; $"me"; $"all" ].

Definition nameStopWords : list str :=
  [ $"can"; $"get"; $"give"; $"details"; $"of"; $"about"; $"show"; $"find";
    $"the"; $"list"; $"all"; $"are"; $"who"; $"hi"; $"applied"; $"date";
    $"when"; $"top"; $"best" ].

(** Word-level match of the catch-all search: the field contains the
    terms, or at least 70% of the words are contained in the field or
    similar (above 0.75) to one of its words. *)
Definition broadFieldMatches (searchNormalized field : str) : bool :=
  let normalized := normalizeForSearch field in
  Str.includes normalized searchNormalized
  || let searchWords := Str.split_space searchNormalized in
     let matchedWords :=
       filter (fun word =>
                 Str.includes normalized word
                 || existsb (fun fw =>
                      number_gt (calculateSimilarity fw word) (75 # 100))
                      (Str.split_space normalized) = true) searchWords in
     (7 * Z.of_nat (length searchWords) <=? 10 * Z.of_nat (length matchedWords)).

(** [(a, b) => (b.overall_score || 0) - (a.overall_score || 0)] is at most 0 *)
Definition scoreOrZero (c : row) : Q :=
  match overall_score c with Some q => q | None => 0 end.
Definition byScoreDesc (a b : row) : bool :=
  Qle_bool (scoreOrZero b - scoreOrZero a) 0.

Definition withExperienceYears (c : row) : row :=
  Row (id c) (name c) (email c) (status c) (interview_result c) (skills c)
      (experience c) (resume_text c) (overall_score c) (title c)
      (description c) (embedding c) (similarity_score c)
      (Some (parseExperience (orEmpty (experience c)))).

Definition experienceHolds (f : experience_filter) (c : row) : bool :=
  let y := match experienceYears c with Some q => q | None => 0%Q end in
  match exp_operator f with
  | gt => negb (Qle_bool y (inject_Z (years f)))
  | lt => negb (Qle_bool (inject_Z (years f)) y)
  end.

(** [operator === 'gt' ? 'gte' : 'lte'] *)
Definition comparison (op : operator) : str :=
  match op with gt => $"gte" | lt => $"lte" end.

(** The skill strategy's test of one candidate. *)
Definition hasSkill (skill : str) (candidate : row) : bool :=
  let skillsArray :=
    match skills candidate with
    | SkillsNull | SkillsText [] => None
    | SkillsArray l => Some l
    | SkillsText s => Some [s]
    end in
  match skillsArray with
  | None => false
  | Some l =>
      existsb (fun candidateSkill =>
        let normalized := normalizeForSearch candidateSkill in
        let searchNormalized := normalizeForSearch skill in
        Str.includes normalized searchNormalized
        || Str.includes searchNormalized normalized
        || number_gt (calculateSimilarity normalized searchNormalized) (7 # 10)) l
  end.

Definition jobFields (job : row) : list str :=
  [ orEmpty (title job);
    match skills job with
    | SkillsArray l => Str.join_space l
    | SkillsText s => s
    | SkillsNull => []
    end;
    orEmpty (description job) ].

Definition candidates_table : request := from_ hr_job_candidates.

(** Run the strategies in order up to the first that returns a result. *)
Fixpoint firstResult (l : list (M (option search_result)))
    : M (option search_result) :=
  match l with
  | [] => ret None
  | attempt :: l' =>
      let* r := attempt in
      match r with
      | Some result => ret (Some result)
      | None => firstResult l'
      end
  end.

(** The router proper: the first result of the strategies, the "no
    results" marker when all fall through, and type [error] when one of
    them throws. *)
Definition route (l : list (M (option search_result))) : M search_result :=
  try_catch
    (let* r := firstResult l in
     match r with
     | Some result => ret result
     | None => ret (SearchResult no_results None)
     end)
    (fun _ => ret (SearchResult error None)).

Section Router.

Variable w : world.
Variable query : str.
Variable conversationHistory : list turn.
Variable requestedLimit : option Z.

Let lowerQuery : str := Str.toLowerCase query.
Let defaultLimit : Z := defaultLimitOf requestedLimit.

(** SPECIAL: "top X candidates of/for Y": the best-scored candidates whose
    text fields contain the criterion. *)
Definition topForCriterion : M (option search_result) :=
  match exec topCandidatesOfPattern query with
  | None => ret None
  | Some topMatch =>
      let count := if truthy (group topMatch 1)
                   then Str.parseDigits (orEmpty (group topMatch 1))
                   else defaultLimit in
      let searchTerm := Str.trim (orEmpty (group topMatch 2)) in
      let* allCandidates :=
        read w TopForCriterion
          (candidates_table .> where_also (f_not_null $"overall_score")
             .> order_by $"overall_score" false None .> limit_to 200) in
      match nonempty allCandidates with
      | None => ret None
      | Some l =>
          let matchedCandidates :=
            List.filter (matchesCriterion searchTerm textFields) l in
          match slice0 count matchedCandidates with
          | [] => ret None
          | topResults =>
              ret (found top_candidates_for_skill
                     (CandidatesFor topResults searchTerm count))
          end
      end
  end.

(** SPECIAL: "top X candidates" without specific criteria. *)
Definition topByScore : M (option search_result) :=
  if test topCandidatesPattern lowerQuery && noIdentifierOrSkill query
  then
    let* data :=
      read w TopByScore
        (candidates_table .> where_also (f_not_null $"overall_score")
           .> order_by $"overall_score" false None .> limit_to defaultLimit) in
    ret (ifRows top_candidates Candidates data)
  else ret None.

(** SPECIAL: "all candidates" without filters. *)
Definition allCandidates : M (option search_result) :=
  if test allCandidatesPattern lowerQuery && noIdentifierOrSkill query
  then
    let* data :=
      read w AllCandidates
        (candidates_table .> order_by $"overall_score" false (Some false)
           .> limit_to defaultLimit) in
    ret (ifRows all_candidates Candidates data)
  else ret None.

(** Follow-up question: search the name found in the recent assistant
    turns. *)
Definition followUp : M (option search_result) :=
  if isFollowUp query && (0 <? length conversationHistory)%nat
  then
    match extractNameFromHistory conversationHistory with
    | Some (c :: cs) =>
        let contextName := c :: cs in
        let* data :=
          read w FollowUp
            (candidates_table .> where_also (f_ilike $"name" (percent contextName))
               .> limit_to 5) in
        ret (ifRows candidate_followup
               (fun l => CandidatesFollowup l contextName) data)
    | _ => ret None
    end
  else ret None.

(** 1. Email search *)
Definition emailSearch : M (option search_result) :=
  match extractEmail query with
  | Some (c :: cs) =>
      let email := c :: cs in
      let* data :=
        read w EmailSearch (candidates_table .> where_also (f_eq $"email" email)) in
      ret (ifRows candidate_full_details Candidates data)
  | _ => ret None
  end.

(** 2. Phone search *)
Definition phoneSearch : M (option search_result) :=
  match extractPhone query with
  | Some (c :: cs) =>
      let phone := c :: cs in
      let* data :=
        read w PhoneSearch
          (candidates_table .> where_also (f_ilike $"phone" (percent phone))) in
      ret (ifRows candidate_full_details Candidates data)
  | _ => ret None
  end.

(** 3. Job id search *)
Definition jobIdSearch : M (option search_result) :=
  match extractJobId query with
  | Some (c :: cs) =>
      let jobId := c :: cs in
      let* data :=
        read w JobIdSearch (from_ hr_jobs .> where_also (f_eq $"job_id" jobId)) in
      ret (ifRows job_details Jobs data)
  | _ => ret None
  end.

(** 4. Semantic search; a failure falls back to the strategies below. *)
Definition semanticSearch : M (option search_result) :=
  if shouldUseSemanticSearch query
  then
    try_catch
      (let* semanticResults :=
         EmbeddingService.searchSimilarCandidates w query 10 (7 # 10) in
       ret (ifRows semantic_search CandidatesSemantic (Some semanticResults)))
      (fun _ => ret None)
  else ret None.

(** 5. Experience filter, computed from the free-text [experience] column. *)
Definition experienceSearch : M (option search_result) :=
  match extractExperience query with
  | None => ret None
  | Some experienceFilter =>
      let* allCandidates :=
        read w ExperienceSearch
          (candidates_table .> where_also (f_not_null $"experience")) in
      let filtered :=
        match allCandidates with
        | Some l =>
            slice0 30 (List.filter (experienceHolds experienceFilter)
                         (map withExperienceYears l))
        | None => []
        end in
      ret (ifRows candidates_by_experience Candidates (Some filtered))
  end.

(** 6. Score filter *)
Definition scoreSearch : M (option search_result) :=
  match extractScore query with
  | None => ret None
  | Some scoreFilter =>
      let* data :=
        read w ScoreSearch
          (candidates_table .> where_also (f_not_null $"overall_score")
             .> where_also (f_filter $"overall_score"
                              (comparison (score_operator scoreFilter))
                              (score scoreFilter))
             .> order_by $"overall_score" false None .> limit_to defaultLimit) in
      ret (ifRows candidates_by_score Candidates data)
  end.

(** 7. Salary filter *)
Definition salarySearch : M (option search_result) :=
  match extractSalary query with
  | None => ret None
  | Some salaryFilter =>
      let* data :=
        read w SalarySearch
          (candidates_table .> where_also (f_not_null $"expected_salary")
             .> where_also (f_filter $"expected_salary"
                              (comparison (sal_operator salaryFilter))
                              (amount salaryFilter))
             .> limit_to defaultLimit) in
      ret (ifRows candidates_by_salary Candidates data)
  end.

(** 8. Skill search over a sample of 100 candidates. *)
Definition skillSearch : M (option search_result) :=
  match extractSkill query with
  | Some (c :: cs) =>
      let skill := c :: cs in
      let* allCandidates :=
        read w SkillSearch (candidates_table .> limit_to 100) in
      match nonempty allCandidates with
      | None => ret None
      | Some l =>
          let matchedCandidates := List.filter (hasSkill skill) l in
          let limitedResults := slice0 defaultLimit matchedCandidates in
          ret (ifRows candidates_by_skill Candidates (Some limitedResults))
      end
  | _ => ret None
  end.

(** 8.5. Job title search: candidates first, then job postings. *)
Definition jobTitleSearch : M (option search_result) :=
  match extractJobTitle query with
  | Some (c :: cs) =>
      let jobTitle := c :: cs in
      let* allCandidates :=
        read w JobTitleSearch (candidates_table .> limit_to 100) in
      let limitedResults :=
        match nonempty allCandidates with
        | Some l =>
            slice0 defaultLimit
              (List.filter
                 (matchesCriterion jobTitle
                    (fun c => textFields c ++ [orEmpty (name c)])) l)
        | None => []
        end in
      match limitedResults with
      | _ :: _ => ret (found candidates_by_job_title (Candidates limitedResults))
      | [] =>
          let* allJobs := read w JobTitleSearch (from_ hr_jobs .> limit_to 50) in
          let limitedJobs :=
            match nonempty allJobs with
            | Some l =>
                slice0 defaultLimit
                  (List.filter
                     (fun job =>
                        existsb (fun field =>
                          Str.includes (normalizeForSearch field)
                                       (normalizeForSearch jobTitle))
                          (jobFields job)) l)
            | None => []
            end in
          ret (ifRows jobs_by_title Jobs (Some limitedJobs))
      end
  | _ => ret None
  end.

(** 9. Status queries *)
Definition statusSearch : M (option search_result) :=
  match statusFilter lowerQuery with
  | None => ret None
  | Some (column, statusValue) =>
      let* data :=
        read w StatusSearch
          (candidates_table .> where_also (f_eq column statusValue)
             .> limit_to defaultLimit) in
      ret (ifRows candidates_by_status Candidates data)
  end.

(** 10. Location search *)
Definition locationSearch : M (option search_result) :=
  match List.find (fun loc => Str.includes lowerQuery loc) locations with
  | None => ret None
  | Some matchedLocation =>
      let* data :=
        read w LocationSearch
          (candidates_table
             .> where_also (f_ilike $"location" (percent matchedLocation))
             .> limit_to defaultLimit) in
      ret (ifRows candidates_by_location Candidates data)
  end.

(** 11. Client search; the contacts are fetched whatever the clients are. *)
Definition clientSearch : M (option search_result) :=
  if Str.includes lowerQuery $"client"
  then
    let wantsActive := Str.includes lowerQuery $"active" in
    let wantsAll := Str.includes lowerQuery $"all" || Str.includes lowerQuery $"every" in
    let clientQuery :=
      if wantsActive
      then from_ hr_clients .> where_also (f_eq $"status" $"Active")
      else from_ hr_clients in
    let clientLimit := if wantsAll then 100 else defaultLimit in
    let* clients := read w ClientSearch (clientQuery .> limit_to clientLimit) in
    let* contacts :=
      read w ClientSearch (from_ hr_client_contacts .> limit_to clientLimit) in
    ret (ifRows clients_and_contacts (fun l => Clients l contacts wantsActive)
           clients)
  else ret None.

(** 12. Job search *)
Definition jobSearch : M (option search_result) :=
  if includesAny lowerQuery jobKeywords
  then
    let jobQuery :=
      if Str.includes lowerQuery $"active" || Str.includes lowerQuery $"open"
      then from_ hr_jobs .> where_also (f_eq $"status" $"Active")
      else from_ hr_jobs in
    let* data := read w JobSearch (jobQuery .> limit_to defaultLimit) in
    ret (ifRows jobs Jobs data)
  else ret None.

(** 13. Status types *)
Definition statusTypes : M (option search_result) :=
  if Str.includes lowerQuery $"status"
     && (Str.includes lowerQuery $"type" || Str.includes lowerQuery $"list"
         || Str.includes lowerQuery $"available")
  then
    let* data :=
      read w StatusTypes (from_ job_statuses .> order_by $"display_order" true None) in
    ret (ifRows job_statuses_list Statuses data)
  else ret None.

(** 13.5. Catch-all search on the words of the query. *)
Definition catchAll : M (option search_result) :=
  let searchTerms :=
    Str.join_space
      (List.filter (fun word => (2 <? length word)%nat
                                && negb (bool_decide (word ∈ catchAllStopWords)))
                   (Str.split_space lowerQuery)) in
  if (3 <? length searchTerms)%nat
  then
    let* allCandidates := read w CatchAll (candidates_table .> limit_to 100) in
    match nonempty allCandidates with
    | None => ret None
    | Some l =>
        let matchedCandidates :=
          List.filter
            (fun candidate =>
               existsb (broadFieldMatches (normalizeForSearch searchTerms))
                       (textFields candidate)) l in
        let sortedResults := slice0 defaultLimit (sort byScoreDesc matchedCandidates) in
        ret (ifRows candidates_broad_search
               (fun l => CandidatesBroad l searchTerms) (Some sortedResults))
    end
  else ret None.

(** 14. Name search: full phrase, all keywords, any keyword, and as a last
    resort the text columns. *)
Definition nameSearch : M (option search_result) :=
  let potentialName :=
    Str.trim
      (Str.join_space
         (List.filter (fun word => negb (bool_decide (word ∈ nameStopWords))
                                   && (2 <=? length word)%nat)
                      (Str.split_space lowerQuery))) in
  match potentialName with
  | [] => ret None
  | _ =>
      let* fullPhraseData :=
        read w NameSearch
          (candidates_table .> where_also (f_ilike $"name" (percent potentialName))) in
      match nonempty fullPhraseData with
      | Some l => ret (found candidate_by_name_phrase (Candidates l))
      | None =>
          let keywords := Str.split_space potentialName in
          let candidateQuery :=
            fold_left (fun q kw => q .> where_also (f_ilike $"name" (percent kw)))
                      keywords candidates_table in
          let* andData := read w NameSearch (candidateQuery .> limit_to 10) in
          match nonempty andData with
          | Some l => ret (found candidate_by_name_keywords_and (Candidates l))
          | None =>
              let searchPattern :=
                Str.join $","
                  (map (fun kw => $"name.ilike.%" ++ kw ++ $"%") keywords) in
              let* orData :=
                read w NameSearch
                  (candidates_table .> where_also (f_or searchPattern) .> limit_to 10) in
              match nonempty orData with
              | Some l => ret (found candidate_by_name_keywords_or (Candidates l))
              | None =>
                  let* broadSearch :=
                    read w NameSearch
                      (candidates_table
                         .> where_also
                              (f_or ($"skills.ilike.%" ++ potentialName
                                     ++ $"%,experience.ilike.%" ++ potentialName
                                     ++ $"%,resume_text.ilike.%" ++ potentialName
                                     ++ $"%"))
                         .> limit_to defaultLimit) in
                  ret (ifRows candidates_broad_search
                         (fun l => CandidatesBroad l potentialName) broadSearch)
              end
          end
      end
  end.

(** The strategies in the order the router tries them. *)
Definition strategies : list (M (option search_result)) :=
  [ topForCriterion; topByScore; allCandidates; followUp;
    emailSearch; phoneSearch; jobIdSearch; semanticSearch;
    experienceSearch; scoreSearch; salarySearch;
    skillSearch; jobTitleSearch; statusSearch; locationSearch;
    clientSearch; jobSearch; statusTypes; catchAll; nameSearch ].

Definition smartSearch : M search_result := route strategies.

End Router.

(** ** [ChatService.sendMessage] and the handlers it dispatches to *)

Definition CACHE_TTL : Z := 5 * 60 * 1000.

(** What [sendMessage] resolves to.  A reply assembled from a fixed
    template is kept as the template's name and the values put into it;
    [Text] is a string passed on unchanged (a generated or cached answer). *)
Inductive chat_response : Type :=
| Text (answer : str)
| GreetingText (variant : nat) (st : stats)
| Clarification (searchTerm : str)
| JDMatchList (matches : list row)
| JDRanking (content : str)
| JDNoCandidates
| JDError (message : str)
| AnalyticsError (message : str)
| SimilarCandidatesList (originalName : str) (candidates : list row).

Section Handlers.

Variable w : world.

(** [await fetch('https://api.openai.com/v1/chat/completions', ...)] *)
Definition complete (c : completion_request) : M completion :=
  let* t := get_trace in
  let* _ := emit (Complete c) in
  ret (on_complete w t c).

(** A completion whose non-success status or unreadable body is raised
    with a fixed message. *)
Definition completeOrThrow (c : completion_request) (notOk : str) : M str :=
  let* r := complete c in
  match r with
  | Completed text => ret text
  | NotOk _ => throw notOk
  | Failed msg => throw msg
  end.

(** The five head-count requests of [Promise.all]: all are issued, then
    awaited. *)
Fixpoint resolveCounts (t : list event) (tables : list table)
    : M (list (option Z)) :=
  match tables with
  | [] => ret []
  | tb :: tables' =>
      match on_count w t tb with
      | Rejected msg => throw msg
      | Data n =>
          let* l := resolveCounts (t ++ [CountRows tb]) tables' in ret (Some n :: l)
      | Failure _ =>
          let* l := resolveCounts (t ++ [CountRows tb]) tables' in ret (None :: l)
      end
  end.

Fixpoint emitAll (l : list event) : M unit :=
  match l with
  | [] => ret tt
  | e :: l' => let* _ := emit e in emitAll l'
  end.

Definition countAll (tables : list table) : M (list (option Z)) :=
  let* t := get_trace in
  let* _ := emitAll (map CountRows tables) in
  resolveCounts t tables.

(** [count || 0] at position [i] *)
Definition countAt (counts : list (option Z)) (i : nat) : Z :=
  match counts !! i with
  | Some (Some n) => n
  | _ => 0
  end.

Definition countWhere (p : row -> bool) (candidates : option (list row)) : nat :=
  match candidates with
  | Some l => length (List.filter p l)
  | None => O
  end.

Definition isText (column : row -> option str) (value : str) (c : row) : bool :=
  match column c with
  | Some s => Str.eqb s value
  | None => false
  end.

Definition zeroStats : stats := Stats 0 0 0 0 0 (Double.Chars $"0") 0 0 0.

Definition getStats : M stats :=
  try_catch
    (let* counts :=
       countAll [hr_jobs; hr_job_candidates; hr_clients; hr_client_contacts;
                 job_statuses] in
     let* candidates :=
       read w Other
         (candidates_table .> selecting $"overall_score, status, interview_result"
            .> where_also (f_not_null $"overall_score")) in
     let averageScore :=
       match candidates with
       | Some (c :: l) =>
           Double.toFixed1
             (Double.divCount
                (fold_left (fun sum c => Double.add sum (Double.round (scoreOrZero c)))
                           (c :: l) (Double.finite 0))
                (Pos.of_succ_nat (length l)))
       | _ => Double.Chars $"0"
       end in
     ret (Stats (countAt counts 0) (countAt counts 1) (countAt counts 2)
                (countAt counts 3) (countAt counts 4) averageScore
                (countWhere (isText status $"Screening") candidates)
                (countWhere (isText interview_result $"selected") candidates)
                (countWhere (isText interview_result $"rejected") candidates)))
    (fun _ => ret zeroStats).

Definition getRankedCandidatesFromJD (jobDescription : str) : M chat_response :=
  try_catch
    (let* ragMatches :=
       try_catch (EmbeddingService.matchCandidatesToJD w jobDescription 15 (75 # 100))
                 (fun _ => ret []) in
     match ragMatches with
     | _ :: _ => ret (JDMatchList ragMatches)
     | [] =>
         let* rawContent :=
           completeOrThrow (JDExtractionPrompt jobDescription)
                           $"AI extraction failed" in
         match parse_skills w rawContent with
         | inl message => throw message
         | inr criteriaSkills =>
             let skillQuery :=
               Str.join $","
                 (map (fun skill => $"skills.ilike.%" ++ skill ++ $"%") criteriaSkills) in
             let* candidates :=
               read w Other
                 (candidates_table
                    .> selecting $"name, email, phone, experience, skills, overall_score, location, status"
                    .> where_also (f_or skillQuery) .> limit_to 30) in
             match nonempty candidates with
             | None => ret JDNoCandidates
             | Some l =>
                 let* content :=
                   completeOrThrow (JDRankingPrompt jobDescription l)
                                   $"AI ranking failed" in
                 ret (JDRanking content)
             end
         end
     end)
    (fun message => ret (JDError message)).

(** An aggregation procedure whose reported error is raised. *)
Definition rpcOrThrow (c : rpc_call) : M (option (list row)) :=
  let* t := get_trace in
  let* _ := emit (Rpc c) in
  match on_rpc w t c with
  | Data l => ret (Some l)
  | Failure err => throw err
  | Rejected msg => throw msg
  end.

Definition rpc (c : rpc_call) : M (option (list row)) :=
  await (Rpc c) (fun t => on_rpc w t c).

Definition getAnalyticsReport (userQuery : str) : M chat_response :=
  try_catch
    (let* topJobs :=
       if Str.includes userQuery $"top jobs" || Str.includes userQuery $"most applications"
       then let* d := rpcOrThrow (get_top_jobs_by_application_count 5) in ret (Some d)
       else ret None in
     let* pipeline :=
       if Str.includes userQuery $"pipeline"
          || Str.includes userQuery $"candidate distribution"
       then let* d := rpcOrThrow get_candidate_status_distribution in ret (Some d)
       else ret None in
     let* reportData :=
       match topJobs, pipeline with
       | None, None =>
           let* jobData := rpc (get_top_jobs_by_application_count 5) in
           let* pipelineData := rpc get_candidate_status_distribution in
           ret (ReportData true (Some jobData) (Some pipelineData))
       | _, _ => ret (ReportData false topJobs pipeline)
       end in
     let* content :=
       completeOrThrow (AnalyticsPrompt reportData) $"Report generation failed" in
     ret (Text content))
    (fun message => ret (AnalyticsError message)).

(** [message.length > 250 && (...)] *)
Definition isJD (message : str) : bool :=
  let lowerMessage := Str.trim (Str.toLowerCase message) in
  (250 <? length message)%nat
  && (Str.includes lowerMessage $"responsibilities"
      || Str.includes lowerMessage $"requirements"
      || (Str.includes lowerMessage $"skills"
          && Str.includes lowerMessage $"experience")).

Definition isAnalytics (message : str) : bool :=
  let lowerMessage := Str.trim (Str.toLowerCase message) in
  Str.includes lowerMessage $"report" || Str.includes lowerMessage $"analytics"
  || Str.includes lowerMessage $"distribution"
  || Str.includes lowerMessage $"pipeline overview".

Definition asksForSimilar (message : str) : bool :=
  let lowerMessage := Str.trim (Str.toLowerCase message) in
  Str.includes lowerMessage $"similar candidates to"
  || Str.includes lowerMessage $"candidates like".

(** [formatSimilarCandidatesResponse] calls [substring] on the [skills] of
    every row that has some: an array has no such method. *)
Definition skillsIsArray (candidate : row) : bool :=
  match skills candidate with
  | SkillsArray _ => true
  | _ => false
  end.

(** The similar-candidates handler; [None] when it falls through.  A
    [TypeError] of the formatting is caught like a failure of the lookup. *)
Definition similarCandidates (message : str) : M (option chat_response) :=
  if asksForSimilar message
  then
    match extractNameFromQuery message with
    | Some (c :: cs) =>
        let candidateName := c :: cs in
        let request :=
          candidates_table .> selecting $"id, name"
            .> where_also (f_ilike $"name" (percent candidateName)) in
        let* candidate := await (ReadOne request) (fun t => on_read_one w t request) in
        match candidate with
        | None => ret None
        | Some candidate =>
            try_catch
              (let* similar := EmbeddingService.findSimilarCandidates w (id candidate) 5 in
               match similar with
               | _ :: _ =>
                   if existsb skillsIsArray similar
                   then throw $"candidate.skills.substring is not a function"
                   else ret (Some (SimilarCandidatesList (orEmpty (name candidate))
                                                         similar))
               | [] => ret None
               end)
              (fun _ => ret None)
        end
    | _ => ret None
    end
  else ret None.

Definition now : M Z :=
  let* t := get_trace in
  let* _ := emit Now in
  ret (on_now w t).

(** [Math.floor(Math.random() * responses.length)] for three responses. *)
Definition randomIndex : M nat :=
  let* t := get_trace in
  let* _ := emit Random in
  ret (on_random w t mod 3)%nat.

(** The cache lookup of a recruitment query: the stored answer if it is
    younger than [CACHE_TTL] and the request carries no history. *)
Definition cacheLookup (cacheKey : str) (conversationHistory : list turn)
    : M (option str) :=
  let* cache := get_cache in
  match cache !! cacheKey with
  | None => ret None
  | Some cached =>
      let* t := now in
      if (t - timestamp cached <? CACHE_TTL)
         && (length conversationHistory =? 0)%nat
      then ret (Some (cached_response cached))
      else ret None
  end.

Definition generateAndCache (message : str) (classification : classification)
    (st : stats) (requestedCount : option Z)
    (conversationHistory : list turn) : M chat_response :=
  let lowerMessage := Str.trim (Str.toLowerCase message) in
  let* searchResults :=
    if bool_decide (type classification = recruitment)
    then let* r := smartSearch w message conversationHistory requestedCount in
         ret (Some r)
    else ret None in
  let prompt :=
    ChatPrompt (type classification) st searchResults
               (lastN 6 conversationHistory) requestedCount message in
  let* response := complete prompt in
  match response with
  | NotOk upstream => throw ($"OpenAI: " ++ upstream)
  | Failed msg => throw msg
  | Completed answer =>
      let* _ :=
        if bool_decide (type classification = recruitment)
           && (length conversationHistory =? 0)%nat
        then let* t := now in cache_set lowerMessage answer t
        else ret tt in
      ret (Text answer)
  end.

Definition sendMessage (message : str) (jobId : str)
    (conversationHistory : list turn) : M chat_response :=
  let lowerMessage := Str.trim (Str.toLowerCase message) in
  let classification := classifyQuery message in
  let requestedCount := extractRequestedCount message in
  let* st := getStats in
  match type classification with
  | greeting =>
      let* i := randomIndex in ret (GreetingText i st)
  | unclear =>
      ret (Clarification (Str.trim message))
  | _ =>
      if isJD message then getRankedCandidatesFromJD message
      else if isAnalytics message then getAnalyticsReport lowerMessage
      else
        let* similar := similarCandidates message in
        match similar with
        | Some reply => ret reply
        | None =>
            let* cached :=
              if bool_decide (type classification = recruitment)
              then cacheLookup lowerMessage conversationHistory
              else ret None in
            match cached with
            | Some answer => ret (Text answer)
            | None =>
                generateAndCache message classification st requestedCount
                                 conversationHistory
            end
        end
  end.

(** [getAllJobs]: the fifty most recently posted jobs; a reported error
    is raised and, like a rejected read, caught into the empty list. *)
Definition getAllJobs : M (list row) :=
  try_catch
    (let request :=
       from_ hr_jobs .> order_by $"posted_date" false None .> limit_to 50 in
     let* t := get_trace in
     let* _ := emit (Read Other request) in
     match on_read w t request with
     | Data rows => ret rows
     | Failure err => throw err
     | Rejected msg => throw msg
     end)
    (fun _ => ret []).

(** [clearCache] *)
Definition clearCache : M unit :=
  fun s => (Returns tt, State ∅ (trace s)).

End Handlers.

End ChatService.

Import ChatService.

(** ** Vocabulary of the specifications *)

(** The effect of one event on the response cache. *)
Definition apply_event (c : gmap str cache_entry) (e : event)
    : gmap str cache_entry :=
  match e with
  | CacheSet key answer now => <[key := CacheEntry answer now]> c
  | _ => c
  end.

(** [runs P m]: from every state, [m] only appends events, all of them
    satisfying [P], and changes the cache only as these events say. *)
Definition runs {A} (P : event -> Prop) (m : M A) : Prop :=
  forall s, exists evs,
    trace (m s).2 = trace s ++ evs
    /\ responseCache (m s).2 = fold_left apply_event evs (responseCache s)
    /\ Forall P evs.

Definition isCacheSet (e : event) : bool :=
  match e with CacheSet _ _ _ => true | _ => false end.

Definition isComplete (e : event) : bool :=
  match e with Complete _ => true | _ => false end.

(** An event that does not write the cache. *)
Definition no_write (e : event) : Prop := isCacheSet e = false.

(** An event that neither writes the cache nor calls the generation API. *)
Definition quiet (e : event) : Prop :=
  isCacheSet e = false /\ isComplete e = false.

(** Number of calls to the text-generation API among some events. *)
Definition completions (evs : list event) : nat :=
  length (List.filter isComplete evs).

(** A strategy that falls through from every state. *)
Definition yields_nothing (m : M (option search_result)) : Prop :=
  forall s, (m s).1 = Returns None.

(** Every read of the store reports an error or no rows. *)
Definition store_unavailable (w : world) : Prop :=
  forall t r, (exists err, on_read w t r = Failure err)
              \/ on_read w t r = Data [].

(** The exact-match lookup of the email strategy. *)
Definition emailRequest (email : str) : request :=
  candidates_table .> where_also (f_eq $"email" email).

(** The exact-match lookup of the status strategy. *)
Definition statusRequest (column value : str) (limit : Z) : request :=
  candidates_table .> where_also (f_eq column value) .> limit_to limit.

Definition isSkillRead (e : event) : bool :=
  match e with Read SkillSearch _ => true | _ => false end.

Definition isEmailRead (e : event) : bool :=
  match e with Read EmailSearch _ => true | _ => false end.

(** [starts_with e m]: whatever the state, the first thing [m] does to the
    outside is [e]. *)
Definition starts_with {A} (e : event) (m : M A) : Prop :=
  forall s, exists evs, trace (m s).2 = trace s ++ e :: evs.

(** A query with both an email-shaped substring and a skill keyword. *)
Definition email_and_skill_query : str := $"find candidates with python a@b.co".

(** Two strings that differ at most in the case of their letters. *)
Definition same_ignoring_case (a b : str) : Prop :=
  Forall2 (fun x y => Char.canon x = Char.canon y) a b.

(** The units of [salaryPattern], in the order of its alternatives. *)
Definition salaryUnits : list str := [$"l"; $"lakh"; $"lpa"].

(** The body of [salaryPattern], with [+] and the alternatives spelt out. *)
Definition salaryBody : regex :=
  (Group 1 (Class [CDigit] >> Star (Class [CDigit]))
   >> Star (Class [CSpace])
   >> Group 2 (Word $"l" <|> Word $"lakh" <|> Word $"lpa"))%re.

(** [salary_mention query pre ds]: after the prefix [pre] the query
    continues with the digits [ds], optional white space, and "l", "lakh"
    or "lpa" in either case. *)
Definition salary_mention (query pre ds : str) : Prop :=
  ds <> []
  /\ Forall (fun c => Char.isDigit c = true) ds
  /\ exists ws unit after,
       query = pre ++ ds ++ ws ++ unit ++ after
       /\ Forall (fun c => Char.isSpace c = true) ws
       /\ Exists (fun u => same_ignoring_case u unit) salaryUnits.

(** A recruitment query answered by generation, and one that the
    analytics handler takes. *)
Definition skill_query : str := $"python candidates".
Definition analytics_query : str := $"candidate report".

(** ** Example worlds *)

Definition down {A} : response A := Failure $"service unavailable".

Definition noStats : list event -> table -> response Z := fun _ _ => down.

(** A store and services that are down: every call reports an error. *)
Definition unavailable_world : world :=
  World (fun _ _ => down) (fun _ _ => down) noStats (fun _ _ => down)
        (fun _ _ => down) (fun _ _ => None) (fun _ _ => NotOk $"unavailable")
        (fun _ => 0) (fun _ => O) (fun _ => inl $"Invalid AI response")
        (fun _ => None).

Definition asha : row :=
  Row $"1" (Some $"Asha Rao") (Some $"a@b.co") (Some $"Screening") None
      (SkillsArray [$"python"; $"cobol"; $"java"]) None None (Some 85%Q)
      None None None None None.

(** A store that answers every read with the one candidate [asha]; the
    generation endpoint answers with the number of events so far, so no
    two of its answers are the same; the clock stands still. *)
Definition one_candidate_world : world :=
  World (fun _ _ => Data [asha]) (fun _ _ => down) noStats (fun _ _ => down)
        (fun _ _ => down) (fun _ _ => None)
        (fun t _ => Completed (repeat "a"%char (length t)))
        (fun _ => 0) (fun _ => O) (fun _ => inl $"Invalid AI response")
        (fun _ => None).

(** Four more candidates: two that know COBOL with other scores, one that
    knows it and has no score, and one with the highest score who does
    not. *)
Definition bina : row :=
  Row $"2" (Some $"Bina Shah") (Some $"bina@b.co") (Some $"Screening") None
      (SkillsText $"cobol, jcl") None None (Some 60%Q)
      None None None None None.

Definition chen : row :=
  Row $"3" (Some $"Chen Li") (Some $"chen@b.co") None None
      (SkillsArray [$"cobol"]) None None None
      None None None None None.

Definition dev : row :=
  Row $"4" (Some $"Dev Nair") (Some $"dev@b.co") None None
      (SkillsArray [$"java"]) (Some $"4 years") (Some $"java developer")
      (Some 99%Q)
      None None None None None.

Definition esha : row :=
  Row $"5" (Some $"Esha Roy") (Some $"esha@b.co") None None
      (SkillsText $"COBOL and DB2") None None (Some 92%Q)
      None None None None None.

(** A store that answers every read with these five candidates, not in the
    order of their scores. *)
Definition unranked_world : world :=
  World (fun _ _ => Data [bina; asha; chen; dev; esha]) (fun _ _ => down)
        noStats (fun _ _ => down)
        (fun _ _ => down) (fun _ _ => None)
        (fun t _ => Completed (repeat "a"%char (length t)))
        (fun _ => 0) (fun _ => O) (fun _ => inl $"Invalid AI response")
        (fun _ => None).

Definition initial : state := State ∅ [].

(** ** Vocabulary of the further properties *)

(** *** Normal forms *)

Definition startsWithSpace (s : str) : bool :=
  match s with
  | c :: _ => Char.isSpace c
  | [] => false
  end.

(** The maximal runs of characters other than white space, in order. *)
Fixpoint tokens (s : str) : list str :=
  match s with
  | [] => []
  | c :: s' =>
      if Char.isSpace c then tokens s'
      else if startsWithSpace s' then [c] :: tokens s'
      else match tokens s' with
           | w :: ws => (c :: w) :: ws
           | [] => [[c]]
           end
  end.

(** A lower-case letter, a digit or the underscore. *)
Definition isNormalChar (c : ascii) : bool :=
  Char.isLower c || Char.isDigit c || Char.eqb c "_".

Definition isNormalWord (w : str) : Prop :=
  w <> [] /\ Forall (fun c => isNormalChar c = true) w.

(** The text [generateEmbedding] sends for [text]. *)
Definition cleanText (text : str) : str :=
  take (Z.to_nat 8000) (Str.trim (Str.collapseSpaces text)).

(** [longest_contained vocabulary text result]: [result] is the first of
    the longest entries of [vocabulary] that [text] contains, or [None]
    when it contains none. *)
Definition longest_contained (vocabulary : list str) (text : str)
    (result : option str) : Prop :=
  match result with
  | None => Forall (fun w => Str.includes text w = false) vocabulary
  | Some w =>
      exists pre post,
        vocabulary = pre ++ w :: post
        /\ Str.includes text w = true
        /\ Forall (fun x => Str.includes text x = true
                            -> (length x < length w)%nat) pre
        /\ Forall (fun x => Str.includes text x = true
                            -> (length x <= length w)%nat) post
  end.

(** *** Identifiers *)

Definition isLetter (c : ascii) : bool := Char.isUpper c || Char.isLower c.

(** [[\w.-]] *)
Definition isEmailChar (c : ascii) : bool :=
  Char.isWord c || Char.eqb "." c || Char.eqb "-" c.

(** [P] holds of some substring of [query]. *)
Definition occurs_in (P : str -> Prop) (query : str) : Prop :=
  exists pre t post, query = pre ++ t ++ post /\ P t.

(** A digit from 6 to 9 followed by nine digits. *)
Definition phone_number (p : str) : Prop :=
  exists d ds,
    p = d :: ds /\ Char.between "6" "9" d = true
    /\ length ds = 9%nat /\ Forall (fun c => Char.isDigit c = true) ds.

(** [local@domain.tld] *)
Definition email_address (e : str) : Prop :=
  exists local domain tld,
    e = local ++ "@"%char :: domain ++ "."%char :: tld
    /\ local <> [] /\ domain <> [] /\ tld <> []
    /\ Forall (fun c => isEmailChar c = true) local
    /\ Forall (fun c => isEmailChar c = true) domain
    /\ Forall (fun c => Char.isWord c = true) tld.

(** Two to four letters followed by digits. *)
Definition job_code (letters digits : str) : Prop :=
  (2 <= length letters <= 4)%nat
  /\ Forall (fun c => isLetter c = true) letters
  /\ digits <> [] /\ Forall (fun c => Char.isDigit c = true) digits.

(** Some substring of [query] is two to four letters followed by digits. *)
Definition has_job_code (query : str) : Prop :=
  exists pre letters digits post,
    query = pre ++ letters ++ digits ++ post /\ job_code letters digits.

(** The query holds an email address, a phone number or a job code. *)
Definition has_identifier (query : str) : Prop :=
  occurs_in email_address query \/ occurs_in phone_number query
  \/ has_job_code query.

(** *** Results and failures *)

(** [ensures Q E m]: from every state, [m] returns a value that satisfies
    [Q], or it throws a message that satisfies [E]. *)
Definition ensures {A} (Q : A -> Prop) (E : str -> Prop) (m : M A) : Prop :=
  forall s, match (m s).1 with
            | Returns a => Q a
            | Throws message => E message
            end.

(** Some read of the store is rejected. *)
Definition rejects (w : world) : Prop :=
  exists t r msg, on_read w t r = Rejected msg.

(** The rows of [d] are an answer of the store to [r]. *)
Definition answered (w : world) (r : request) (d : option (list row)) : Prop :=
  match d with
  | Some rows => exists t, on_read w t r = Data rows
  | None => True
  end.

(** The skill strategy's sample of candidates. *)
Definition skillRequest : request := candidates_table .> limit_to 100.

(** The experience strategy's request. *)
Definition experienceRequest : request :=
  candidates_table .> where_also (f_not_null $"experience").

(** The tables [getStats] counts and the rows it reads. *)
Definition statsTables : list table :=
  [hr_jobs; hr_job_candidates; hr_clients; hr_client_contacts; job_statuses].

Definition statsRequest : request :=
  candidates_table .> selecting $"overall_score, status, interview_result"
    .> where_also (f_not_null $"overall_score").

(** The request of [getAllJobs]. *)
Definition allJobsRequest : request :=
  from_ hr_jobs .> order_by $"posted_date" false None .> limit_to 50.

(** What every result of a strategy satisfies: it carries at least one
    row, its type is neither "no results" nor "error", and the rows of the
    skill and the experience strategies are the store's rows that pass the
    strategy's filter, cut to the limit. *)
Definition result_inv (w : world) (query : str) (limit : Z) (r : search_result)
    : Prop :=
  (exists d, data r = Some d /\ result_rows d <> [])
  /\ res_type r <> no_results /\ res_type r <> error
  /\ (res_type r = candidates_by_skill ->
      exists skill all,
        extractSkill query = Some skill
        /\ (exists t, on_read w t skillRequest = Data all)
        /\ data r = Some (Candidates (slice0 limit (List.filter (hasSkill skill) all))))
  /\ (res_type r = candidates_by_experience ->
      exists f all,
        extractExperience query = Some f
        /\ (exists t, on_read w t experienceRequest = Data all)
        /\ data r
           = Some (Candidates
                     (slice0 30 (List.filter (experienceHolds f)
                                   (map withExperienceYears all))))).

(** Every row is followed only by rows that score no higher. *)
Fixpoint bestFirst (l : list row) : Prop :=
  match l with
  | [] => True
  | a :: l' =>
      Forall (fun b => (scoreOrZero b <= scoreOrZero a)%Q) l' /\ bestFirst l'
  end.

(** The column and value pairs of the status strategy. *)
Definition statusPairs : list (str * str) :=
  [ ($"status", $"Screening"); ($"interview_result", $"Selected");
    ($"interview_result", $"Rejected"); ($"interview_result", $"Interview");
    ($"status", $"Offered") ].

Definition isAssistant (m : turn) : Prop := msg_role m = assistant.

(** The failures that [sendMessage] passes on: the generation endpoint
    answers with an error status or without a readable body, or the
    candidate lookup of the similar-candidates handler is rejected. *)
Definition generation_failure (w : world) (message : str) : Prop :=
  (exists t c upstream,
      on_complete w t c = NotOk upstream /\ message = $"OpenAI: " ++ upstream)
  \/ (exists t c, on_complete w t c = Failed message)
  \/ (exists t r, on_read_one w t r = Rejected message).

(** *** Kinds of events *)

Definition isRead (e : event) : bool :=
  match e with Read _ _ => true | _ => false end.

(** A read of the store, an embedding request or a vector match. *)
Definition isRetrieval (e : event) : bool :=
  match e with
  | Read _ _ | Embed _ | Rpc (match_candidates _ _ _) => true
  | _ => false
  end.

(** A read issued by one of the router's strategies. *)
Definition isRouterRead (e : event) : bool :=
  match e with
  | Read Other _ => false
  | Read _ _ => true
  | _ => false
  end.

(** An event of [getStats]: a head count or a read outside the router. *)
Definition isStatsEvent (e : event) : bool :=
  match e with
  | CountRows _ | Read Other _ => true
  | _ => false
  end.

(** What [findSimilarCandidates] may issue: the lookup of the stored
    embedding, the match procedure, and reads of candidates whose ids are
    at most [n] and do not include [candidateId]. *)
Definition excludes (candidateId : str) (n : nat) (e : event) : Prop :=
  match e with
  | Read _ r =>
      exists ids, where_ r = [f_in $"id" ids] /\ (candidateId ∉ ids)
                  /\ (length ids <= n)%nat
  | ReadOne _ | Rpc _ => True
  | _ => False
  end.

(** [reportCalls n evs]: [evs] is at most [n] calls of aggregation
    procedures followed by at most one call of the generation API. *)
Fixpoint reportCalls (n : nat) (evs : list event) : bool :=
  match evs, n with
  | [], _ | [Complete _], _ => true
  | Rpc _ :: evs', S n' => reportCalls n' evs'
  | _, _ => false
  end.

(** *** Example inputs *)

Definition cobol_query : str := $"cobol".
Definition help_query : str := $"what can you do".

(** A cache that holds an answer to [skill_query] stored at time 0, and one
    whose answer was stored [CACHE_TTL] before time 0. *)
Definition fresh_cache : state :=
  State {[ skill_query := CacheEntry $"cached answer" 0 ]} [].
Definition stale_cache : state :=
  State {[ skill_query := CacheEntry $"cached answer" (- CACHE_TTL) ]} [].

(** An earlier exchange. *)
Definition earlier_turns : list turn :=
  [Turn user $"hello"; Turn assistant $"Hello! How can I help?"].

(** * Verified properties *)

(** ** Requested result counts *)

Lemma firstCount_range patterns query n :
  firstCount patterns query = Some n -> 1 <= n <= 100.
Proof.
  induction patterns as [|p ps IH]; simpl; [discriminate|].
  destruct (exec p query) as [m|]; [|exact IH].
  destruct (_ && _) eqn:Hrange; [|exact IH].
  intros [= <-]. apply andb_true_iff in Hrange as [H1 H2]. lia.
Qed.

(** C5: for every query, [extractRequestedCount] returns either null or an
    integer between 1 and 100; the query "top 500" yields null. *)
Theorem extractRequestedCount_in_range :
  (forall query,
      extractRequestedCount query = None
      \/ exists n, extractRequestedCount query = Some n /\ 1 <= n <= 100)
  /\ extractRequestedCount $"top 500" = None.
Proof.
  split; [|reflexivity].
  intros query. destruct (extractRequestedCount query) as [n|] eqn:H; [right|by left].
  exists n. split; [reflexivity|]. exact (firstCount_range _ _ _ H).
Qed.

(** ** Similarity *)

Lemma str_eqb_refl (s : str) : Str.eqb s s = true.
Proof. unfold Str.eqb. by apply bool_decide_eq_true. Qed.

Lemma str_eqb_sym (a b : str) : Str.eqb a b = Str.eqb b a.
Proof. unfold Str.eqb. apply bool_decide_ext. split; congruence. Qed.

Lemma divide_defined a b : b <> O -> exists q, divide a b = Num q.
Proof. destruct b; [done|]. intros _. simpl. eauto. Qed.

(** The division of [calculateSimilarity] is never by zero: when it is
    reached the two normalized strings differ, so one of them has a
    character. *)
Lemma calculateSimilarity_defined str1 str2 :
  exists q, calculateSimilarity str1 str2 = Num q.
Proof.
  unfold calculateSimilarity.
  set (s1 := normalizeForSearch str1). set (s2 := normalizeForSearch str2).
  destruct (Str.eqb s1 s2) eqn:Heq; [eauto|].
  destruct (_ || _); [eauto|].
  apply divide_defined. intros Hsize.
  apply size_empty_inv in Hsize.
  assert (s1 = [] /\ s2 = []) as [H1 H2].
  { split.
    - destruct s1 as [|c s1']; [done|]. exfalso.
      apply (not_elem_of_empty (C := gset ascii) c). rewrite <- Hsize.
      apply elem_of_union_l, elem_of_list_to_set. by left.
    - destruct s2 as [|c s2']; [done|]. exfalso.
      apply (not_elem_of_empty (C := gset ascii) c). rewrite <- Hsize.
      apply elem_of_union_r, elem_of_list_to_set. by left. }
  rewrite H1, H2 in Heq. by rewrite str_eqb_refl in Heq.
Qed.

(** C6: [calculateSimilarity(s, s)] is 1.0 for every string; on two empty
    strings it is defined (1.0), and no call divides by zero. *)
Theorem calculateSimilarity_self :
  (forall s, calculateSimilarity s s = Num 1)
  /\ calculateSimilarity [] [] = Num 1
  /\ (forall a b, calculateSimilarity a b <> NaN
                  /\ calculateSimilarity a b <> Infinity).
Proof.
  split; [|split].
  - intros s. unfold calculateSimilarity. by rewrite str_eqb_refl.
  - reflexivity.
  - intros a b. destruct (calculateSimilarity_defined a b) as [q ->]. done.
Qed.

(** C9: [calculateSimilarity] is symmetric in its two arguments. *)
Theorem calculateSimilarity_sym (a b : str) :
  calculateSimilarity a b = calculateSimilarity b a.
Proof.
  unfold calculateSimilarity.
  set (s1 := normalizeForSearch a). set (s2 := normalizeForSearch b).
  rewrite (str_eqb_sym s2 s1).
  destruct (Str.eqb s1 s2); [done|].
  rewrite (orb_comm (Str.includes s2 s1)).
  destruct (_ || _); [done|].
  set (c1 := list_to_set s1 : gset ascii). set (c2 := list_to_set s2 : gset ascii).
  assert (filter (fun x => x ∈ c2) c1 = c1 ∩ c2) as ->.
  { apply set_eq. intros x. rewrite elem_of_filter, elem_of_intersection. tauto. }
  assert (filter (fun x => x ∈ c1) c2 = c1 ∩ c2) as ->.
  { apply set_eq. intros x. rewrite elem_of_filter, elem_of_intersection. tauto. }
  by rewrite (union_comm_L c2 c1).
Qed.

(** ** Classification *)

(** Counterexample to C1: "what's the weather" has three words and no
    recruitment keyword, so it is classified as unclear, not off_topic. *)
Lemma classifyQuery_weather_not_off_topic :
  type (classifyQuery $"what's the weather") = unclear
  /\ type (classifyQuery $"what's the weather") <> off_topic.
Proof. split; [vm_compute; reflexivity|vm_compute; discriminate]. Qed.

(** C1 (amended): "hello" is a greeting, "show me candidates with Python
    skills" is recruitment, "ok" and the three-word "what's the weather"
    are unclear; off_topic needs more than three words, as in "what's the
    weather today". *)
Theorem classifyQuery_examples :
  type (classifyQuery $"hello") = greeting
  /\ type (classifyQuery $"show me candidates with Python skills") = recruitment
  /\ type (classifyQuery $"what's the weather") = unclear
  /\ type (classifyQuery $"ok") = unclear
  /\ type (classifyQuery $"what's the weather today") = off_topic.
Proof. repeat split; vm_compute; reflexivity. Qed.

(** ** The effect monad *)

Lemma runs_ret {A} P (a : A) : runs P (ret a).
Proof. intros s. exists []. simpl. by rewrite app_nil_r. Qed.

Lemma runs_throw {A} P msg : runs P (@throw A msg).
Proof. intros s. exists []. simpl. by rewrite app_nil_r. Qed.

Lemma runs_get_trace P : runs P get_trace.
Proof. intros s. exists []. simpl. by rewrite app_nil_r. Qed.

Lemma runs_get_cache P : runs P get_cache.
Proof. intros s. exists []. simpl. by rewrite app_nil_r. Qed.

Lemma runs_emit (P : event -> Prop) e :
  P e -> isCacheSet e = false -> runs P (emit e).
Proof.
  intros He Hc s. exists [e]. simpl. split; [done|]. split; [|by constructor].
  by destruct e.
Qed.

Lemma runs_cache_set (P : event -> Prop) key answer t :
  P (CacheSet key answer t) -> runs P (cache_set key answer t).
Proof. intros He s. exists [CacheSet key answer t]. simpl. by repeat constructor. Qed.

Lemma runs_bind {A B} P (m : M A) (f : A -> M B) :
  runs P m -> (forall a, runs P (f a)) -> runs P (bind m f).
Proof.
  intros Hm Hf s. unfold bind.
  destruct (Hm s) as (evs1 & Ht1 & Hc1 & HP1).
  destruct (m s) as [[a|e] s1]; simpl in *.
  - destruct (Hf a s1) as (evs2 & Ht2 & Hc2 & HP2).
    exists (evs1 ++ evs2). rewrite Ht2, Hc2, Ht1, Hc1, fold_left_app, <- app_assoc.
    by rewrite Forall_app.
  - by exists evs1.
Qed.

Lemma runs_try_catch {A} P (m : M A) (h : str -> M A) :
  runs P m -> (forall e, runs P (h e)) -> runs P (try_catch m h).
Proof.
  intros Hm Hh s. unfold try_catch.
  destruct (Hm s) as (evs1 & Ht1 & Hc1 & HP1).
  destruct (m s) as [[a|e] s1]; simpl in *.
  - by exists evs1.
  - destruct (Hh e s1) as (evs2 & Ht2 & Hc2 & HP2).
    exists (evs1 ++ evs2). rewrite Ht2, Hc2, Ht1, Hc1, fold_left_app, <- app_assoc.
    by rewrite Forall_app.
Qed.

Lemma runs_weaken {A} (P Q : event -> Prop) (m : M A) :
  (forall e, P e -> Q e) -> runs P m -> runs Q m.
Proof.
  intros HPQ Hm s. destruct (Hm s) as (evs & Ht & Hc & HP).
  exists evs. repeat split; [done..|]. eapply Forall_impl; eauto.
Qed.

(** One step of a proof that a computation [runs]: follow the structure of
    the computation, splitting on whatever it branches on. *)
Ltac runs_step :=
  lazymatch goal with
  | |- runs _ (ret _) => apply runs_ret
  | |- runs _ (throw _) => apply runs_throw
  | |- runs _ get_trace => apply runs_get_trace
  | |- runs _ get_cache => apply runs_get_cache
  | |- runs _ (emit _) => apply runs_emit; [try done; try (by split)|done]
  | |- runs _ (cache_set _ _ _) => apply runs_cache_set
  | |- runs _ (bind _ _) => apply runs_bind; [|intros ?]
  | |- runs _ (try_catch _ _) => apply runs_try_catch; [|intros ?]
  | |- runs _ (match ?x with _ => _ end) => destruct x
  | |- runs _ (let _ := _ in _) => cbv zeta
  end.

Ltac runs_auto := repeat runs_step.

Lemma runs_await {A} (P : event -> Prop) e (answer : list event -> response A) :
  P e -> isCacheSet e = false -> runs P (await e answer).
Proof. intros. unfold await. runs_auto. Qed.

Lemma runs_read P w o r : P (Read o r) -> runs P (read w o r).
Proof. intros. by apply runs_await. Qed.

Ltac runs_io :=
  repeat first
    [ runs_step
    | apply runs_read; try done; try (by split)
    | apply runs_await; [try done; try (by split)|done] ].

(** ** Events of the services *)

Lemma generateEmbedding_runs w text : runs quiet (EmbeddingService.generateEmbedding w text).
Proof. unfold EmbeddingService.generateEmbedding. runs_io. Qed.

Lemma searchSimilarCandidates_runs w query limit threshold :
  runs quiet (EmbeddingService.searchSimilarCandidates w query limit threshold).
Proof.
  unfold EmbeddingService.searchSimilarCandidates.
  runs_io; try apply generateEmbedding_runs; runs_io.
Qed.

Lemma findSimilarCandidates_runs w candidateId limit :
  runs quiet (EmbeddingService.findSimilarCandidates w candidateId limit).
Proof. unfold EmbeddingService.findSimilarCandidates. runs_io. Qed.

Lemma matchCandidatesToJD_runs w jdText limit threshold :
  runs quiet (EmbeddingService.matchCandidatesToJD w jdText limit threshold).
Proof.
  unfold EmbeddingService.matchCandidatesToJD.
  runs_io; try apply generateEmbedding_runs; runs_io.
Qed.

(** Split a goal about a literal list into one goal per element. *)
Ltac split_Forall :=
  lazymatch goal with
  | |- Forall _ (_ :: _) => apply List.Forall_cons; [|split_Forall]
  | |- Forall _ [] => apply List.Forall_nil
  end.

Section RouterEvents.

Variable w : world.
Variable query : str.
Variable conversationHistory : list turn.
Variable requestedLimit : option Z.

(** Every strategy only reads. *)
Lemma strategies_run :
  Forall (runs quiet) (strategies w query conversationHistory requestedLimit).
Proof.
  unfold strategies. split_Forall.
  - unfold topForCriterion. runs_io.
  - unfold topByScore. runs_io.
  - unfold allCandidates. runs_io.
  - unfold followUp. runs_io.
  - unfold emailSearch. runs_io.
  - unfold phoneSearch. runs_io.
  - unfold jobIdSearch. runs_io.
  - unfold semanticSearch. runs_io; try apply searchSimilarCandidates_runs; runs_io.
  - unfold experienceSearch. runs_io.
  - unfold scoreSearch. runs_io.
  - unfold salarySearch. runs_io.
  - unfold skillSearch. runs_io.
  - unfold jobTitleSearch. runs_io.
  - unfold statusSearch. runs_io.
  - unfold locationSearch. runs_io.
  - unfold clientSearch. runs_io.
  - unfold jobSearch. runs_io.
  - unfold statusTypes. runs_io.
  - unfold catchAll. runs_io.
  - unfold nameSearch. runs_io.
Qed.

Lemma firstResult_runs P l : Forall (runs P) l -> runs P (firstResult l).
Proof.
  induction 1 as [|m l Hm Hl IH]; simpl; [apply runs_ret|].
  apply runs_bind; [done|]. intros [r|]; [apply runs_ret|done].
Qed.

Lemma smartSearch_runs :
  runs quiet (smartSearch w query conversationHistory requestedLimit).
Proof.
  unfold smartSearch, route. apply runs_try_catch; [|intros; apply runs_ret].
  apply runs_bind; [apply firstResult_runs, strategies_run|].
  intros [r|]; apply runs_ret.
Qed.

End RouterEvents.

(** ** Falling through to "no results" *)

Lemma firstResult_nothing l :
  Forall yields_nothing l -> yields_nothing (firstResult l).
Proof.
  induction 1 as [|m l Hm Hl IH]; intros s; simpl; [done|].
  unfold bind. specialize (Hm s). destruct (m s) as [[[r|]|e] s1]; simpl in Hm;
    try discriminate. apply IH.
Qed.

Lemma smartSearch_falls_through w query history requestedLimit :
  Forall yields_nothing (strategies w query history requestedLimit) ->
  forall s, (smartSearch w query history requestedLimit s).1
            = Returns (SearchResult no_results None).
Proof.
  intros H s. unfold smartSearch, route, try_catch, bind.
  pose proof (firstResult_nothing _ H s) as Hn.
  destruct (firstResult _ s) as [[[r|]|e] s1]; simpl in Hn; by try discriminate.
Qed.

Section Unavailable.

Variable w : world.
Hypothesis Hdown : store_unavailable w.

(** A read of an unavailable store hands [null] or [[]] to what follows. *)
Lemma bind_read_unavailable {A} o r (k : option (list row) -> M A) s :
  exists d, (d = None \/ d = Some [])
            /\ bind (read w o r) k s
               = k d (State (responseCache s) (trace s ++ [Read o r])).
Proof.
  unfold bind, read, await, bind, get_trace, emit; simpl.
  destruct (Hdown (trace s) r) as [[err ->] | ->]; simpl; eauto.
Qed.

Ltac fall_through :=
  repeat first
    [ reflexivity
    | match goal with
      | |- context [bind (read w ?o ?r) ?k ?s] =>
          let d := fresh "d" in
          destruct (bind_read_unavailable o r k s) as (d & [-> | ->] & ->);
          cbn beta iota
      end
    | progress simpl
    | match goal with
      | |- ((match ?x with _ => _ end) _).1 = _ => destruct x
      end ].

Lemma searchSimilarCandidates_unavailable query limit threshold s :
  (EmbeddingService.searchSimilarCandidates w query limit threshold s).1
  = Returns [].
Proof.
  unfold EmbeddingService.searchSimilarCandidates, try_catch.
  unfold bind at 1.
  destruct (EmbeddingService.generateEmbedding w query s) as [[[e|]|x] s1];
    try reflexivity.
  unfold bind at 1. simpl. unfold bind at 1. simpl.
  destruct (on_match w _ _) as [[|m ms]| |]; try reflexivity.
  match goal with
  | |- context [bind (read w ?o ?r) ?k ?s] =>
      destruct (bind_read_unavailable o r k s) as (d & [-> | ->] & ->)
  end; reflexivity.
Qed.

Lemma strategies_unavailable query history requestedLimit :
  Forall yields_nothing (strategies w query history requestedLimit).
Proof.
  unfold strategies. split_Forall; intros s.
  - unfold topForCriterion. fall_through.
  - unfold topByScore. fall_through.
  - unfold allCandidates. fall_through.
  - unfold followUp. fall_through.
  - unfold emailSearch. fall_through.
  - unfold phoneSearch. fall_through.
  - unfold jobIdSearch. fall_through.
  - unfold semanticSearch. destruct (shouldUseSemanticSearch query); [|done].
    unfold try_catch, bind.
    pose proof (searchSimilarCandidates_unavailable query 10 (7 # 10) s) as Hs.
    destruct (EmbeddingService.searchSimilarCandidates _ _ _ _ _) as [[l|e] s1];
      simpl in Hs; [|done]. by injection Hs as ->.
  - unfold experienceSearch. fall_through.
  - unfold scoreSearch. fall_through.
  - unfold salarySearch. fall_through.
  - unfold skillSearch. fall_through.
  - unfold jobTitleSearch. fall_through.
  - unfold statusSearch. fall_through.
  - unfold locationSearch. fall_through.
  - unfold clientSearch. fall_through.
  - unfold jobSearch. fall_through.
  - unfold statusTypes. fall_through.
  - unfold catchAll. fall_through.
  - unfold nameSearch. fall_through.
Qed.

End Unavailable.

(** [smartSearch] never throws: its [catch] turns a rejected read into a
    result of type error. *)
Lemma smartSearch_returns w query history requestedLimit s :
  exists result, (smartSearch w query history requestedLimit s).1 = Returns result.
Proof.
  unfold smartSearch, route, try_catch, bind.
  destruct (firstResult _ s) as [[[r|]|e] s1]; simpl; eauto.
Qed.

(** C7: when no retrieval strategy yields data -- in particular when every
    read of the external store reports an error or no rows, which each
    strategy treats as no data before the next one is tried --
    [smartSearch] returns the "no results" marker; it does not throw. *)
Theorem smartSearch_no_results w query history requestedLimit :
  Forall yields_nothing (strategies w query history requestedLimit)
  \/ store_unavailable w ->
  forall s, (smartSearch w query history requestedLimit s).1
            = Returns (SearchResult no_results None).
Proof.
  intros [H | H]; apply smartSearch_falls_through; [done|].
  by apply strategies_unavailable.
Qed.

(** C7 at a concrete input: the store is down and the query is
    "who's in screening". *)
Lemma smartSearch_no_results_witness :
  store_unavailable unavailable_world
  /\ (smartSearch unavailable_world $"who's in screening" [] None initial).1
     = Returns (SearchResult no_results None).
Proof.
  assert (store_unavailable unavailable_world) as H
    by (intros t r; left; by eexists).
  split; [exact H|].
  apply (smartSearch_no_results unavailable_world $"who's in screening" [] None).
  right. exact H.
Defined.

(** ** Order of the email and the skill strategies *)

Lemma route_skip m l s s1 :
  m s = (Returns None, s1) -> route (m :: l) s = route l s1.
Proof. intros H. unfold route, try_catch, bind. simpl. unfold bind. by rewrite H. Qed.

Lemma route_skip_ret l s : route (ret None :: l) s = route l s.
Proof. by apply route_skip. Qed.

Lemma route_found m l s s1 result :
  m s = (Returns (Some result), s1) -> route (m :: l) s = (Returns result, s1).
Proof. intros H. unfold route, try_catch, bind. simpl. unfold bind. by rewrite H. Qed.

Lemma route_thrown m l s s1 e :
  m s = (Throws e, s1) -> route (m :: l) s = (Returns (SearchResult error None), s1).
Proof. intros H. unfold route, try_catch, bind. simpl. unfold bind. by rewrite H. Qed.

Lemma route_runs P l : Forall (runs P) l -> runs P (route l).
Proof.
  intros H. unfold route. apply runs_try_catch; [|intros; apply runs_ret].
  apply runs_bind; [by apply firstResult_runs|]. intros [r|]; apply runs_ret.
Qed.

Lemma truthy_negb_false (o : option str) : truthy o = true -> negb (truthy o) = false.
Proof. by intros ->. Qed.

Lemma topForCriterion_no_skill_read w query requestedLimit :
  runs (fun e => isSkillRead e = false) (topForCriterion w query requestedLimit).
Proof. unfold topForCriterion. runs_io. Qed.

(** C2 (amended): for a query with an email-shaped substring and a skill
    keyword on which the "top N of/for X" strategy, tried first, returns
    nothing, [smartSearch] issues the exact-email lookup before any skill
    search; and when that lookup returns nonempty rows, the result is
    [candidate_full_details] with these rows and no skill search is
    issued at all. *)
Theorem email_strategy_before_skill w query history requestedLimit s email :
  extractEmail query = Some email ->
  truthy (Some email) = true ->
  truthy (extractSkill query) = true ->
  (topForCriterion w query requestedLimit s).1 = Returns None ->
  let s1 := (topForCriterion w query requestedLimit s).2 in
  let final := smartSearch w query history requestedLimit s in
  (exists before after,
      trace final.2
      = trace s ++ before ++ Read EmailSearch (emailRequest email) :: after
      /\ Forall (fun e => isSkillRead e = false) before)
  /\ (forall rows,
        on_read w (trace s1) (emailRequest email) = Data rows -> rows <> [] ->
        final.1 = Returns (SearchResult candidate_full_details
                             (Some (Candidates rows)))
        /\ Forall (fun e => isSkillRead e = false)
                  (drop (length (trace s)) (trace final.2))).
Proof.
  intros Hemail Htruthy Hskill Htop s1 final.
  assert (truthy (extractEmail query) = true) as Hid by (by rewrite Hemail).
  destruct (topForCriterion_no_skill_read w query requestedLimit s)
    as (before & Ht1 & _ & Hbefore). fold s1 in Ht1.
  assert (final = route (emailSearch w query
                         :: drop 5 (strategies w query history requestedLimit)) s1)
    as Hfinal.
  { unfold final, smartSearch. unfold strategies at 1.
    rewrite (route_skip _ _ s s1) by (subst s1; by destruct (topForCriterion _ _ _ s) as [[[?|]|?] ?]).
    assert (topByScore w query requestedLimit = ret None) as ->.
    { unfold topByScore, noIdentifierOrSkill.
      by rewrite (truthy_negb_false _ Hid), andb_false_r. }
    rewrite route_skip_ret.
    assert (allCandidates w query requestedLimit = ret None) as ->.
    { unfold allCandidates, noIdentifierOrSkill.
      by rewrite (truthy_negb_false _ Hid), andb_false_r. }
    rewrite route_skip_ret.
    assert (followUp w query history = ret None) as ->.
    { unfold followUp, isFollowUp.
      by rewrite (truthy_negb_false _ Hid), andb_false_r. }
    by rewrite route_skip_ret. }
  destruct email as [|c cs]; [discriminate|].
  set (req := emailRequest (c :: cs)) in *.
  set (s2 := State (responseCache s1) (trace s1 ++ [Read EmailSearch req])).
  assert (emailSearch w query s1
          = match on_read w (trace s1) req with
            | Data rows => (Returns (ifRows candidate_full_details Candidates (Some rows)), s2)
            | Failure _ => (Returns None, s2)
            | Rejected msg => (Throws msg, s2)
            end) as Hsearch.
  { unfold emailSearch. rewrite Hemail.
    unfold bind, read, await, bind, get_trace, emit. simpl.
    change (where_also _ candidates_table) with req.
    by destruct (on_read w (trace s1) req). }
  assert (exists after, trace final.2 = trace s2 ++ after) as [after Hafter].
  { rewrite Hfinal.
    assert (Forall (runs quiet) (drop 5 (strategies w query history requestedLimit)))
      as Hrest by apply Forall_drop, strategies_run.
    destruct (on_read w (trace s1) req) as [[|r rows]| |msg] eqn:Hresp.
    - rewrite (route_skip _ _ s1 s2) by exact Hsearch.
      destruct (route_runs _ _ Hrest s2) as (evs & -> & _). eauto.
    - erewrite route_found by exact Hsearch. exists []. by rewrite app_nil_r.
    - rewrite (route_skip _ _ s1 s2) by exact Hsearch.
      destruct (route_runs _ _ Hrest s2) as (evs & -> & _). eauto.
    - erewrite route_thrown by exact Hsearch. exists []. by rewrite app_nil_r. }
  split.
  - exists before, after. split; [|done].
    rewrite Hafter. simpl. rewrite Ht1, <- !app_assoc. done.
  - intros rows Hrows Hne. rewrite Hfinal.
    rewrite Hrows in Hsearch. destruct rows as [|r rows]; [done|].
    erewrite route_found by exact Hsearch. simpl. split; [done|].
    rewrite Ht1, <- app_assoc, drop_app_length.
    apply Forall_app. split; [done|]. by repeat constructor.
Qed.

(** Counterexample to C2: the query holds an email and a skill keyword and
    the store would answer the email lookup with a row, yet the "top N
    of/for X" strategy answers first; the email lookup is never issued. *)
Lemma email_strategy_preempted :
  extractEmail email_and_skill_query = Some $"a@b.co"
  /\ extractSkill email_and_skill_query = Some $"python"
  /\ (forall t, on_read one_candidate_world t (emailRequest $"a@b.co") = Data [asha])
  /\ (smartSearch one_candidate_world email_and_skill_query [] None initial).1
     = Returns (SearchResult top_candidates_for_skill
                  (Some (CandidatesFor [asha] $"python a@b.co" 20)))
  /\ existsb isEmailRead
       (trace (smartSearch one_candidate_world email_and_skill_query [] None initial).2)
     = false.
Proof. repeat split; vm_compute; reflexivity. Qed.

(** C2 (amended) at a concrete input: "python a@b.co" against a store
    that knows the address. *)
Lemma email_strategy_before_skill_witness :
  extractEmail $"python a@b.co" = Some $"a@b.co"
  /\ truthy (extractSkill $"python a@b.co") = true
  /\ (topForCriterion one_candidate_world $"python a@b.co" None initial).1
     = Returns None
  /\ (smartSearch one_candidate_world $"python a@b.co" [] None initial).1
     = Returns (SearchResult candidate_full_details (Some (Candidates [asha]))).
Proof.
  assert (extractEmail $"python a@b.co" = Some $"a@b.co") as H1
    by (vm_compute; reflexivity).
  assert (truthy (extractSkill $"python a@b.co") = true) as H2
    by (vm_compute; reflexivity).
  assert ((topForCriterion one_candidate_world $"python a@b.co" None initial).1
          = Returns None) as H3 by (vm_compute; reflexivity).
  split; [exact H1|]. split; [exact H2|]. split; [exact H3|].
  destruct (email_strategy_before_skill one_candidate_world $"python a@b.co" []
              None initial $"a@b.co" H1 eq_refl H2 H3) as [_ H].
  apply (H [asha]); [reflexivity|discriminate].
Defined.

(** ** The status strategy *)

Lemma starts_with_read {A} P w o r (k : option (list row) -> M A) :
  (forall d, runs P (k d)) -> starts_with (Read o r) (bind (read w o r) k).
Proof.
  intros Hk s. unfold bind at 1.
  assert (exists x, read w o r s
                    = (x, State (responseCache s) (trace s ++ [Read o r])))
    as [x ->].
  { unfold read, await, bind, get_trace, emit. simpl.
    destruct (on_read w (trace s) r); simpl; eauto. }
  destruct x as [d|e]; simpl.
  - destruct (Hk d (State (responseCache s) (trace s ++ [Read o r])))
      as (evs & -> & _). simpl. exists evs. by rewrite <- app_assoc.
  - by exists [].
Qed.

Lemma starts_with_bind {A B} P e (m : M A) (f : A -> M B) :
  starts_with e m -> (forall a, runs P (f a)) -> starts_with e (bind m f).
Proof.
  intros Hm Hf s. unfold bind. destruct (Hm s) as (evs & Ht).
  destruct (m s) as [[a|x] s1]; simpl in *; [|eauto].
  destruct (Hf a s1) as (evs2 & -> & _). rewrite Ht.
  exists (evs ++ evs2). by rewrite <- app_assoc.
Qed.

Lemma starts_with_try_catch {A} P e (m : M A) (h : str -> M A) :
  starts_with e m -> (forall x, runs P (h x)) -> starts_with e (try_catch m h).
Proof.
  intros Hm Hh s. unfold try_catch. destruct (Hm s) as (evs & Ht).
  destruct (m s) as [[a|x] s1]; simpl in *; [eauto|].
  destruct (Hh x s1) as (evs2 & -> & _). rewrite Ht.
  exists (evs ++ evs2). by rewrite <- app_assoc.
Qed.

Lemma route_starts_with P e m l :
  starts_with e m -> Forall (runs P) l -> starts_with e (route (m :: l)).
Proof.
  intros Hm Hl. unfold route. simpl.
  apply (starts_with_try_catch P); [|intros; apply runs_ret].
  apply (starts_with_bind P); [|intros [r|]; apply runs_ret].
  apply (starts_with_bind P); [done|].
  intros [r|]; [apply runs_ret|by apply firstResult_runs].
Qed.

Section StatusStrategy.

Variable w : world.
Variable requestedLimit : option Z.

(** On a query that none of the thirteen strategies before it reacts to
    and that names a status, the first request of the router is the
    status lookup. *)
Lemma status_lookup_first query column value :
  exec topCandidatesOfPattern query = None ->
  test topCandidatesPattern (Str.toLowerCase query) = false ->
  test allCandidatesPattern (Str.toLowerCase query) = false ->
  isFollowUp query && (0 <? length (@nil turn))%nat = false ->
  extractEmail query = None -> extractPhone query = None ->
  extractJobId query = None -> shouldUseSemanticSearch query = false ->
  extractExperience query = None -> extractScore query = None ->
  extractSalary query = None -> extractSkill query = None ->
  extractJobTitle query = None ->
  statusFilter (Str.toLowerCase query) = Some (column, value) ->
  starts_with
    (Read StatusSearch (statusRequest column value (defaultLimitOf requestedLimit)))
    (smartSearch w query [] requestedLimit).
Proof.
  intros H1 H2 H3 H4 H5 H6 H7 H8 H9 H10 H11 H12 H13 H14 s.
  unfold smartSearch, strategies.
  assert (topForCriterion w query requestedLimit = ret None) as ->
    by (unfold topForCriterion; by rewrite H1).
  assert (topByScore w query requestedLimit = ret None) as ->
    by (unfold topByScore; by rewrite H2).
  assert (allCandidates w query requestedLimit = ret None) as ->
    by (unfold allCandidates; by rewrite H3).
  assert (followUp w query [] = ret None) as ->
    by (unfold followUp; by rewrite H4).
  assert (emailSearch w query = ret None) as ->
    by (unfold emailSearch; by rewrite H5).
  assert (phoneSearch w query = ret None) as ->
    by (unfold phoneSearch; by rewrite H6).
  assert (jobIdSearch w query = ret None) as ->
    by (unfold jobIdSearch; by rewrite H7).
  assert (semanticSearch w query = ret None) as ->
    by (unfold semanticSearch; by rewrite H8).
  assert (experienceSearch w query = ret None) as ->
    by (unfold experienceSearch; by rewrite H9).
  assert (scoreSearch w query requestedLimit = ret None) as ->
    by (unfold scoreSearch; by rewrite H10).
  assert (salarySearch w query requestedLimit = ret None) as ->
    by (unfold salarySearch; by rewrite H11).
  assert (skillSearch w query requestedLimit = ret None) as ->
    by (unfold skillSearch; by rewrite H12).
  assert (jobTitleSearch w query requestedLimit = ret None) as ->
    by (unfold jobTitleSearch; by rewrite H13).
  rewrite !route_skip_ret.
  revert s. apply (route_starts_with quiet).
  - unfold statusSearch. rewrite H14.
    apply (starts_with_read quiet). intros d. apply runs_ret.
  - pose proof (strategies_run w query [] requestedLimit) as Hall.
    unfold strategies in Hall.
    exact (Forall_drop _ 14 _ Hall).
Qed.

End StatusStrategy.

(** C4: the status strategy maps "who's in screening" to an exact-match
    filter on column [status] with value "Screening", and "selected
    candidates" to one on column [interview_result] with value
    "Selected"; on either query [smartSearch] issues that request first. *)
Theorem status_mapping :
  statusFilter (Str.toLowerCase $"who's in screening")
  = Some ($"status", $"Screening")
  /\ statusFilter (Str.toLowerCase $"selected candidates")
     = Some ($"interview_result", $"Selected")
  /\ (forall w requestedLimit,
        starts_with
          (Read StatusSearch
             (statusRequest $"status" $"Screening" (defaultLimitOf requestedLimit)))
          (smartSearch w $"who's in screening" [] requestedLimit))
  /\ (forall w requestedLimit,
        starts_with
          (Read StatusSearch
             (statusRequest $"interview_result" $"Selected"
                            (defaultLimitOf requestedLimit)))
          (smartSearch w $"selected candidates" [] requestedLimit)).
Proof.
  split; [vm_compute; reflexivity|]. split; [vm_compute; reflexivity|].
  split; intros w requestedLimit; apply status_lookup_first;
    vm_compute; reflexivity.
Qed.

(** ** Events of [sendMessage] *)

Lemma quiet_no_write e : quiet e -> no_write e.
Proof. by intros [? _]. Qed.

Lemma emitAll_runs P l :
  Forall P l -> Forall (fun e => isCacheSet e = false) l -> runs P (emitAll l).
Proof.
  induction 1 as [|e l He Hl IH]; intros Hc; simpl; [apply runs_ret|].
  apply Forall_cons_1 in Hc as [Hce Hc].
  apply runs_bind; [by apply runs_emit|]. intros _. by apply IH.
Qed.

Lemma resolveCounts_runs P w t tables : runs P (resolveCounts w t tables).
Proof.
  revert t. induction tables as [|tb tables IH]; intros t; simpl; [apply runs_ret|].
  destruct (on_count w t tb); runs_auto; apply IH.
Qed.

Lemma getStats_runs w : runs quiet (getStats w).
Proof.
  unfold getStats, countAll. runs_io.
  - apply emitAll_runs; by repeat constructor.
  - apply resolveCounts_runs.
Qed.

Lemma getRankedCandidatesFromJD_runs w jobDescription :
  runs no_write (getRankedCandidatesFromJD w jobDescription).
Proof.
  unfold getRankedCandidatesFromJD, completeOrThrow, complete.
  runs_io.
  eapply runs_weaken; [apply quiet_no_write|apply matchCandidatesToJD_runs].
Qed.

Lemma getAnalyticsReport_runs w userQuery :
  runs no_write (getAnalyticsReport w userQuery).
Proof.
  unfold getAnalyticsReport, completeOrThrow, complete, rpcOrThrow, rpc.
  runs_io.
Qed.

Lemma similarCandidates_runs w message :
  runs quiet (similarCandidates w message).
Proof.
  unfold similarCandidates. runs_io. apply findSimilarCandidates_runs.
Qed.

Lemma cacheLookup_runs w cacheKey history :
  runs quiet (cacheLookup w cacheKey history).
Proof. unfold cacheLookup, now. runs_io. Qed.

Section SendMessageEvents.

Variable w : world.
Variable message jobId : str.
Variable conversationHistory : list turn.

(** A cache write happens only for a recruitment message without history. *)
Let guarded (e : event) : Prop :=
  isCacheSet e = true ->
  type (classifyQuery message) = recruitment /\ conversationHistory = [].

Lemma quiet_guarded e : quiet e -> guarded e.
Proof. intros [H _] H'. congruence. Qed.

Lemma no_write_guarded e : no_write e -> guarded e.
Proof. intros H H'. unfold no_write in H. congruence. Qed.

Lemma generateAndCache_runs st requestedCount :
  runs guarded
    (generateAndCache w message (classifyQuery message) st requestedCount
                      conversationHistory).
Proof.
  unfold generateAndCache, complete, now.
  apply runs_bind.
  { destruct (bool_decide _); [|apply runs_ret].
    apply runs_bind; [|intros; apply runs_ret].
    eapply runs_weaken; [apply quiet_guarded|apply smartSearch_runs]. }
  intros searchResults. apply runs_bind; [runs_io; by apply no_write_guarded|].
  intros [answer|upstream|msg]; [|apply runs_throw..].
  apply runs_bind; [|intros; apply runs_ret].
  destruct (bool_decide _ && _) eqn:Hguard; [|apply runs_ret].
  apply andb_true_iff in Hguard as [Hrec Hlen].
  apply bool_decide_eq_true in Hrec. apply Nat.eqb_eq in Hlen.
  runs_io; try by apply no_write_guarded.
  intros _. split; [done|]. by destruct conversationHistory.
Qed.

Lemma sendMessage_runs :
  runs guarded (sendMessage w message jobId conversationHistory).
Proof.
  unfold sendMessage. apply runs_bind.
  { eapply runs_weaken; [apply quiet_guarded|apply getStats_runs]. }
  intros st.
  assert (runs guarded
    (if isJD message then getRankedCandidatesFromJD w message
     else if isAnalytics message
     then getAnalyticsReport w (Str.trim (Str.toLowerCase message))
     else
       let* similar := similarCandidates w message in
       match similar with
       | Some reply => ret reply
       | None =>
           let* cached :=
             if bool_decide (type (classifyQuery message) = recruitment)
             then cacheLookup w (Str.trim (Str.toLowerCase message)) conversationHistory
             else ret None in
           match cached with
           | Some answer => ret (Text answer)
           | None =>
               generateAndCache w message (classifyQuery message) st
                 (extractRequestedCount message) conversationHistory
           end
       end)) as Hrest.
  { destruct (isJD message).
    { eapply runs_weaken; [apply no_write_guarded|apply getRankedCandidatesFromJD_runs]. }
    destruct (isAnalytics message).
    { eapply runs_weaken; [apply no_write_guarded|apply getAnalyticsReport_runs]. }
    apply runs_bind.
    { eapply runs_weaken; [apply quiet_guarded|apply similarCandidates_runs]. }
    intros [reply|]; [apply runs_ret|].
    apply runs_bind.
    { destruct (bool_decide _); [|apply runs_ret].
      eapply runs_weaken; [apply quiet_guarded|apply cacheLookup_runs]. }
    intros [answer|]; [apply runs_ret|]. apply generateAndCache_runs. }
  destruct (type (classifyQuery message)); try exact Hrest.
  - unfold randomIndex. runs_io.
  - apply runs_ret.
Qed.

End SendMessageEvents.

Lemma fold_apply_event_no_write evs c :
  Forall no_write evs -> fold_left apply_event evs c = c.
Proof.
  intros H. revert c. induction H as [|e evs He _ IH]; intros c; simpl; [done|].
  rewrite IH. by destruct e.
Qed.

(** C10: [sendMessage] writes the response cache only for a message
    classified as recruitment and sent with an empty conversation history;
    for every other message and for a recruitment message with history the
    cache after the call is the cache before it and no write is issued. *)
Theorem cache_written_only_for_recruitment_without_history
    w message jobId conversationHistory s :
  exists evs,
    trace (sendMessage w message jobId conversationHistory s).2 = trace s ++ evs
    /\ (forall key answer t,
          CacheSet key answer t ∈ evs ->
          type (classifyQuery message) = recruitment
          /\ conversationHistory = [])
    /\ (type (classifyQuery message) <> recruitment \/ conversationHistory <> [] ->
        responseCache (sendMessage w message jobId conversationHistory s).2
        = responseCache s
        /\ Forall (fun e => isCacheSet e = false) evs).
Proof.
  destruct (sendMessage_runs w message jobId conversationHistory s)
    as (evs & Ht & Hc & HP).
  exists evs. split; [done|]. split.
  - intros key answer t Hin. rewrite Forall_forall in HP. by apply (HP _ Hin).
  - intros Hnot.
    assert (Forall no_write evs) as Hquiet.
    { eapply Forall_impl; [exact HP|]. intros e He. unfold no_write.
      destruct (isCacheSet e) eqn:Hw; [|done]. destruct (He Hw). tauto. }
    split; [|done]. rewrite Hc. by apply fold_apply_event_no_write.
Qed.

(** ** The response cache across two calls *)

Lemma completions_app evs1 evs2 :
  completions (evs1 ++ evs2) = (completions evs1 + completions evs2)%nat.
Proof. unfold completions. by rewrite List.filter_app, length_app. Qed.

Lemma completions_quiet evs : Forall quiet evs -> completions evs = O.
Proof.
  unfold completions. induction 1 as [|e evs [_ He] _ IH]; simpl; [done|].
  by rewrite He.
Qed.

Lemma fold_apply_event_quiet evs c :
  Forall quiet evs -> fold_left apply_event evs c = c.
Proof.
  intros H. apply fold_apply_event_no_write.
  eapply Forall_impl; [exact H|]. apply quiet_no_write.
Qed.

(** A computation that only reads leaves a state with the same cache and a
    longer trace. *)
Lemma runs_quiet_state {A} (m : M A) s :
  runs quiet m ->
  exists evs, (m s).2 = State (responseCache s) (trace s ++ evs)
              /\ Forall quiet evs.
Proof.
  intros Hm. destruct (Hm s) as (evs & Ht & Hc & HP). exists evs. split; [|done].
  destruct (m s) as [r [c t]]. simpl in *. rewrite Ht, Hc.
  by rewrite fold_apply_event_quiet.
Qed.

(** [getStats] never throws: its [catch] returns zero statistics. *)
Lemma getStats_total w s :
  exists st evs,
    getStats w s = (Returns st, State (responseCache s) (trace s ++ evs))
    /\ Forall quiet evs.
Proof.
  destruct (runs_quiet_state (getStats w) s (getStats_runs w)) as (evs & Hs & HP).
  assert (exists st, (getStats w s).1 = Returns st) as [st Hst].
  { unfold getStats, try_catch. destruct (bind _ _ s) as [[st|e] s']; simpl; eauto. }
  exists st, evs. split; [|done].
  destruct (getStats w s) as [r s']. simpl in *. by subst.
Qed.

Lemma cacheLookup_miss w key s :
  responseCache s !! key = None -> cacheLookup w key [] s = (Returns None, s).
Proof. intros H. unfold cacheLookup, bind, get_cache. simpl. by rewrite H. Qed.

Lemma cacheLookup_entry w key s entry :
  responseCache s !! key = Some entry ->
  cacheLookup w key [] s
  = (Returns (if on_now w (trace s) - timestamp entry <? CACHE_TTL
              then Some (cached_response entry) else None),
     State (responseCache s) (trace s ++ [Now])).
Proof.
  intros H. unfold cacheLookup, bind, get_cache, now, bind, get_trace, emit.
  simpl. rewrite H. simpl.
  by destruct (on_now w (trace s) - timestamp entry <? CACHE_TTL).
Qed.

Section TwoCalls.

Variable w : world.
Variable message jobId : str.

Let cacheKey : str := Str.trim (Str.toLowerCase message).

Hypothesis Hrecruitment : type (classifyQuery message) = recruitment.
Hypothesis HnotJD : isJD message = false.
Hypothesis HnotAnalytics : isAnalytics message = false.
Hypothesis HnotSimilar : asksForSimilar message = false.

(** What is left of [sendMessage] for such a message. *)
Lemma sendMessage_recruitment s :
  sendMessage w message jobId [] s
  = (let* st := getStats w in
     let* cached := cacheLookup w cacheKey [] in
     match cached with
     | Some answer => ret (Text answer)
     | None =>
         generateAndCache w message (classifyQuery message) st
                          (extractRequestedCount message) []
     end) s.
Proof.
  unfold sendMessage, similarCandidates.
  rewrite HnotJD, HnotAnalytics, HnotSimilar, Hrecruitment. reflexivity.
Qed.

(** A generation that returns has called the endpoint once and stored its
    answer under the message. *)
Lemma generateAndCache_returns st requestedCount s r s' :
  generateAndCache w message (classifyQuery message) st requestedCount [] s
  = (Returns r, s') ->
  exists answer t evs,
    r = Text answer
    /\ s' = State (<[cacheKey := CacheEntry answer t]> (responseCache s))
                  (trace s ++ evs)
    /\ completions evs = 1%nat.
Proof.
  unfold generateAndCache. rewrite Hrecruitment. simpl.
  unfold bind at 1. unfold bind at 1.
  destruct (runs_quiet_state _ s (smartSearch_runs w message [] requestedCount))
    as (evs & Hs & HP).
  destruct (smartSearch w message [] requestedCount s) as [[res|e] sa];
    simpl in Hs; subst sa; [|discriminate].
  unfold complete, now, cache_set, bind, get_trace, emit, ret. simpl.
  destruct (on_complete w _ _) as [answer|upstream|msg]; simpl; try discriminate.
  intros [= <- <-]. eexists answer, _, (evs ++ [_; _; _]). split; [done|].
  split.
  - f_equal. by rewrite <- !app_assoc.
  - rewrite completions_app, (completions_quiet _ HP). reflexivity.
Qed.

(** C3 (amended): take a recruitment message that is not handed to the
    job-description, analytics or similar-candidates handlers, sent twice
    with empty history.  If the first call returns and every clock
    reading after it lies within [CACHE_TTL] of the entry it leaves, the
    second call returns the same answer and calls the generation API not
    at all; the two calls together call it at most once, and exactly
    once when the cache held no entry for the message beforehand. *)
Theorem second_call_served_from_cache s0 r1 s1 :
  sendMessage w message jobId [] s0 = (Returns r1, s1) ->
  (forall entry t,
      responseCache s1 !! cacheKey = Some entry ->
      trace s1 `prefix_of` t ->
      on_now w t - timestamp entry < CACHE_TTL) ->
  exists s2 evs1 evs2,
    sendMessage w message jobId [] s1 = (Returns r1, s2)
    /\ trace s1 = trace s0 ++ evs1
    /\ trace s2 = trace s1 ++ evs2
    /\ completions evs2 = O
    /\ (completions evs1 <= 1)%nat
    /\ (responseCache s0 !! cacheKey = None ->
        completions (evs1 ++ evs2) = 1%nat).
Proof.
  intros Hfirst Hfresh.
  (* the first call *)
  assert (exists answer entry evs1,
             r1 = Text answer
             /\ responseCache s1 !! cacheKey = Some entry
             /\ cached_response entry = answer
             /\ trace s1 = trace s0 ++ evs1
             /\ (completions evs1 <= 1)%nat
             /\ (responseCache s0 !! cacheKey = None -> completions evs1 = 1%nat))
    as (answer & entry & evs1 & -> & Hentry & Hanswer & Ht1 & Hle & Hone).
  { rewrite sendMessage_recruitment in Hfirst. unfold bind at 1 in Hfirst.
    destruct (getStats_total w s0) as (st & evs & Hstats & Hq).
    rewrite Hstats in Hfirst. unfold bind at 1 in Hfirst.
    set (sa := State (responseCache s0) (trace s0 ++ evs)) in *.
    destruct (responseCache s0 !! cacheKey) as [entry|] eqn:Hlookup.
    - rewrite (cacheLookup_entry w cacheKey sa entry Hlookup) in Hfirst.
      destruct (_ <? CACHE_TTL).
      + injection Hfirst as <- <-. exists (cached_response entry), entry, (evs ++ [Now]).
        simpl. rewrite completions_app, (completions_quiet _ Hq), app_assoc.
        split; [done|]. split; [done|]. split; [done|]. split; [done|].
        split; [cbn; lia|discriminate].
      + apply generateAndCache_returns in Hfirst as (answer & t & evs' & -> & -> & Hc).
        exists answer, (CacheEntry answer t), ((evs ++ [Now]) ++ evs').
        rewrite !completions_app, (completions_quiet _ Hq), Hc.
        simpl. rewrite lookup_insert_eq, <- !app_assoc.
        split; [done|]. split; [done|]. split; [done|]. split; [done|].
        split; [cbn; lia|discriminate].
    - rewrite (cacheLookup_miss w cacheKey sa Hlookup) in Hfirst.
      apply generateAndCache_returns in Hfirst as (answer & t & evs' & -> & -> & Hc).
      exists answer, (CacheEntry answer t), (evs ++ evs').
      simpl. rewrite lookup_insert_eq, completions_app, (completions_quiet _ Hq), Hc.
      rewrite <- !app_assoc.
      split; [done|]. split; [done|]. split; [done|]. split; [done|].
      split; [cbn; lia|done]. }
  (* the second call *)
  rewrite sendMessage_recruitment. unfold bind at 1.
  destruct (getStats_total w s1) as (st & evs & -> & Hq).
  unfold bind at 1.
  set (sb := State (responseCache s1) (trace s1 ++ evs)).
  rewrite (cacheLookup_entry w cacheKey sb entry Hentry).
  assert ((on_now w (trace sb) - timestamp entry <? CACHE_TTL) = true) as ->.
  { apply Z.ltb_lt, Hfresh; [done|]. by exists evs. }
  rewrite Hanswer.
  exists (State (responseCache sb) (trace sb ++ [Now])), evs1, (evs ++ [Now]).
  split; [done|]. split; [done|]. split; [simpl; by rewrite <- app_assoc|].
  assert (completions (evs ++ [Now]) = O) as Hzero
    by (rewrite completions_app, (completions_quiet _ Hq); reflexivity).
  split; [done|]. split; [done|].
  intros Hnone. rewrite completions_app, Hzero, (Hone Hnone). reflexivity.
Qed.

End TwoCalls.

(** Counterexample to C3: "candidate report" is classified as recruitment
    and is sent twice with empty history while the clock stands still, yet
    the analytics handler answers both times: the generation API is called
    twice and the two answers differ. *)
Lemma analytics_answer_not_cached :
  type (classifyQuery analytics_query) = recruitment
  /\ (forall t, on_now one_candidate_world t = 0)
  /\ (sendMessage one_candidate_world analytics_query $"all" [] initial).1
     = Returns (Text (repeat "a"%char 8))
  /\ (sendMessage one_candidate_world analytics_query $"all" []
        (sendMessage one_candidate_world analytics_query $"all" [] initial).2).1
     = Returns (Text (repeat "a"%char 17))
  /\ completions
       (trace (sendMessage one_candidate_world analytics_query $"all" []
                 (sendMessage one_candidate_world analytics_query $"all" []
                    initial).2).2)
     = 2%nat.
Proof. repeat split; vm_compute; reflexivity. Qed.

(** C3 (amended) at a concrete input: "python candidates" sent twice. *)
Lemma second_call_served_from_cache_witness :
  type (classifyQuery skill_query) = recruitment
  /\ isJD skill_query = false
  /\ isAnalytics skill_query = false
  /\ asksForSimilar skill_query = false
  /\ (sendMessage one_candidate_world skill_query $"all" [] initial).1
     = Returns (Text (repeat "a"%char 7))
  /\ exists s2,
       sendMessage one_candidate_world skill_query $"all" []
         (sendMessage one_candidate_world skill_query $"all" [] initial).2
       = (Returns (Text (repeat "a"%char 7)), s2).
Proof.
  assert (type (classifyQuery skill_query) = recruitment) as H1
    by (vm_compute; reflexivity).
  assert (isJD skill_query = false) as H2 by (vm_compute; reflexivity).
  assert (isAnalytics skill_query = false) as H3 by (vm_compute; reflexivity).
  assert (asksForSimilar skill_query = false) as H4 by (vm_compute; reflexivity).
  assert ((sendMessage one_candidate_world skill_query $"all" [] initial).1
          = Returns (Text (repeat "a"%char 7))) as H5 by (vm_compute; reflexivity).
  split; [exact H1|]. split; [exact H2|]. split; [exact H3|]. split; [exact H4|].
  split; [exact H5|].
  destruct (second_call_served_from_cache one_candidate_world skill_query $"all"
              H1 H2 H3 H4 initial (Text (repeat "a"%char 7))
              (sendMessage one_candidate_world skill_query $"all" [] initial).2)
    as (s2 & _ & _ & Hsecond & _).
  - vm_compute. reflexivity.
  - intros entry t Hentry _. vm_compute in Hentry. injection Hentry as <-.
    vm_compute. reflexivity.
  - exists s2. exact Hsecond.
Defined.

(** The cache is written in the remaining case: a recruitment message
    without history whose answer is generated. *)
Example cache_written_for_skill_query :
  exists entry,
    responseCache (sendMessage one_candidate_world skill_query $"all" [] initial).2
    !! skill_query = Some entry
    /\ cached_response entry = repeat "a"%char 7.
Proof. eexists. split; vm_compute; reflexivity. Qed.

(** ** The matcher finds what [matches] describes *)

Section Matcher.

Variable ic : bool.

Lemma star_loop_sound {A} r (body : mstate -> (mstate -> option A) -> option A) :
  (forall st k a, body st k = Some a ->
                  exists st', matches ic r st st' /\ k st' = Some a) ->
  forall fuel st k a,
    star_loop body fuel st k = Some a ->
    exists st', matches ic (Star r) st st' /\ k st' = Some a.
Proof.
  intros Hbody fuel. induction fuel as [|fuel IH]; intros st k a; simpl.
  - intros H. exists st. split; [constructor|done].
  - destruct (body st _) as [a'|] eqn:Hb.
    + intros [= ->]. apply Hbody in Hb as (st1 & Hm & Hk).
      destruct (_ <? _)%nat eqn:Hlt; [|discriminate].
      apply Nat.ltb_lt in Hlt. apply IH in Hk as (st2 & Hm2 & Hk2).
      exists st2. split; [|done]. by apply (matches_StarCons _ _ _ st1).
    + intros H. exists st. split; [constructor|done].
Qed.

Lemma star_loop_complete {A} r (body : mstate -> (mstate -> option A) -> option A) :
  (forall st k, body st k = None ->
                forall st', matches ic r st st' -> k st' = None) ->
  forall fuel st k,
    (length (rest st) < fuel)%nat ->
    star_loop body fuel st k = None ->
    forall st', matches ic (Star r) st st' -> k st' = None.
Proof.
  intros Hbody fuel. induction fuel as [|fuel IH]; intros st k Hfuel; [lia|].
  simpl. destruct (body st _) as [a'|] eqn:Hb; [discriminate|].
  intros Hk st' Hm. inversion Hm as [| | | | | | |r0 st0|r0 st0 st1 st2 H1 Hlt H2| | |]; subst.
  - done.
  - pose proof (Hbody _ _ Hb _ H1) as Hstep. simpl in Hstep.
    apply Nat.ltb_lt in Hlt as Hlt'. rewrite Hlt' in Hstep.
    apply (IH st1 k); [lia|done..].
Qed.

Lemma step_char_sound {A} ok st (k : mstate -> option A) a :
  step_char ok st k = Some a ->
  exists x s, rest st = x :: s /\ ok x = true
              /\ k (MState (Some x) s (caps st)) = Some a.
Proof.
  unfold step_char. destruct (rest st) as [|x s]; [discriminate|].
  destruct (ok x) eqn:Hok; [|discriminate]. eauto.
Qed.

Lemma step_char_complete {A} ok st (k : mstate -> option A) x s :
  step_char ok st k = None -> rest st = x :: s -> ok x = true ->
  k (MState (Some x) s (caps st)) = None.
Proof. unfold step_char. intros H Hr Hok. by rewrite Hr, Hok in H. Qed.

Lemma rmatch_sound r :
  forall A (k : mstate -> option A) st a,
    rmatch ic r st k = Some a ->
    exists st', matches ic r st st' /\ k st' = Some a.
Proof.
  induction r as [c|items| | |r1 IH1 r2 IH2|r1 IH1 r2 IH2|r IH|i r IH| |];
    intros A k st a; cbn [rmatch].
  - intros H. apply step_char_sound in H as (x & s & Hrest & Hok & Hk).
    destruct st as [p s0 cs]; simpl in *; subst. eexists. split; [|exact Hk].
    by constructor.
  - intros H. apply step_char_sound in H as (x & s & Hrest & Hok & Hk).
    destruct st as [p s0 cs]; simpl in *; subst. eexists. split; [|exact Hk].
    by constructor.
  - intros H. apply step_char_sound in H as (x & s & Hrest & Hok & Hk).
    destruct st as [p s0 cs]; simpl in *; subst. eexists. split; [|exact Hk].
    constructor. by apply negb_true_iff.
  - intros H. exists st. split; [constructor|done].
  - intros H. apply IH1 in H as (st1 & H1 & H). apply IH2 in H as (st2 & H2 & H).
    exists st2. split; [|done]. by apply (matches_Seq _ _ _ _ st1).
  - destruct (rmatch ic r1 st k) as [a'|] eqn:H1.
    + intros [= ->]. apply IH1 in H1 as (st' & Hm & Hk). exists st'.
      split; [by apply matches_AltL|done].
    + intros H. apply IH2 in H as (st' & Hm & Hk). exists st'.
      split; [by apply matches_AltR|done].
  - apply star_loop_sound. intros st0 k0 a0. apply IH.
  - intros H. apply IH in H as (st1 & Hm & Hk). eexists. split; [|exact Hk].
    by constructor.
  - destruct (at_boundary st) eqn:Hb; [|discriminate]. intros H. exists st.
    split; [by constructor|done].
  - destruct (rest st) eqn:Hr; [|discriminate]. intros H. exists st.
    split; [by constructor|done].
Qed.

Lemma rmatch_complete r :
  forall A (k : mstate -> option A) st,
    rmatch ic r st k = None ->
    forall st', matches ic r st st' -> k st' = None.
Proof.
  induction r as [c|items| | |r1 IH1 r2 IH2|r1 IH1 r2 IH2|r IH|i r IH| |];
    intros A k st; cbn [rmatch]; intros H st' Hm; inversion Hm; subst.
  - by eapply (step_char_complete _ (MState _ _ _)) in H.
  - by eapply (step_char_complete _ (MState _ _ _)) in H.
  - eapply (step_char_complete _ (MState _ _ _)) in H; [done..|].
    by apply negb_true_iff.
  - done.
  - match goal with
    | Ha : matches ic r1 st ?st1, Hb : matches ic r2 ?st1 st' |- _ =>
        exact (IH2 _ _ _ (IH1 _ _ _ H _ Ha) _ Hb)
    end.
  - destruct (rmatch ic r1 st k) eqn:H1; [discriminate|]. by eapply IH1.
  - destruct (rmatch ic r1 st k) eqn:H1; [discriminate|]. by eapply IH2.
  - eapply (star_loop_complete r (rmatch ic r)); [intros; by eapply IH| |exact H|done].
    lia.
  - eapply (star_loop_complete r (rmatch ic r)); [intros; by eapply IH| |exact H|done].
    lia.
  - match goal with
    | Ha : matches ic r st ?st1 |- _ => exact (IH _ _ _ H _ Ha)
    end.
  - match goal with Hb : at_boundary st' = true |- _ => by rewrite Hb in H end.
  - match goal with Hr : rest st' = [] |- _ => by rewrite Hr in H end.
Qed.

End Matcher.

Section MatchShapes.

Variable ic : bool.

Lemma consumed_app st st' m : rest st = m ++ rest st' -> consumed st st' = m.
Proof.
  intros H. unfold consumed. rewrite H, length_app.
  replace (length m + length (rest st') - length (rest st'))%nat
    with (length m) by lia.
  by rewrite take_app_length.
Qed.

Let member (items : list citem) (x : ascii) : Prop :=
  existsb (fun it => item_match ic it x) items = true.

Lemma matches_class_inv items st st' :
  matches ic (Class items) st st' ->
  exists x, rest st = x :: rest st' /\ member items x /\ caps st' = caps st.
Proof. inversion 1; subst; simpl; eauto. Qed.

Lemma matches_star_class_inv items st st' :
  matches ic (Star (Class items)) st st' ->
  exists m, rest st = m ++ rest st' /\ Forall (member items) m
            /\ caps st' = caps st.
Proof.
  remember (Star (Class items)) as r eqn:Hr. intros H. revert Hr.
  induction H as [| | | | | | |r0 st|r0 st st1 st2 H1 _ Hlt H2 IH| | |];
    try discriminate; intros [= ->].
  - exists []. by split_and!.
  - destruct (IH eq_refl) as (m & Hm & Hall & Hc).
    apply matches_class_inv in H1 as (x & Hx & Hok & Hc1).
    exists (x :: m). rewrite Hx, Hm, Hc, Hc1.
    split_and!; [done|by constructor|done].
Qed.

Lemma matches_star_class_intro items m :
  Forall (member items) m ->
  forall p cs after,
    exists p', matches ic (Star (Class items)) (MState p (m ++ after) cs)
                       (MState p' after cs).
Proof.
  induction 1 as [|x m Hx _ IH]; intros p cs after; simpl.
  - exists p. constructor.
  - destruct (IH (Some x) cs after) as (p' & Hm). exists p'.
    eapply matches_StarCons; [by constructor| |exact Hm]. simpl. lia.
Qed.

Lemma matches_word_inv w :
  forall st st',
    matches ic (Word w) st st' ->
    exists m, rest st = m ++ rest st'
              /\ Forall2 (fun c x => lit_match ic c x = true) w m
              /\ caps st' = caps st.
Proof.
  induction w as [|c w IH]; intros st st'; simpl; inversion 1; subst.
  - exists []. by split_and!.
  - match goal with
    | Ha : matches ic (Lit c) st ?st1, Hb : matches ic (Word w) ?st1 st' |- _ =>
        inversion Ha; subst; apply IH in Hb as (m & Hm & Hall & Hc)
    end.
    simpl in *. eexists (_ :: m). rewrite Hm, Hc.
    split_and!; [done|by constructor|done].
Qed.

Lemma matches_word_intro w m :
  Forall2 (fun c x => lit_match ic c x = true) w m ->
  forall p cs after,
    exists p', matches ic (Word w) (MState p (m ++ after) cs)
                       (MState p' after cs).
Proof.
  induction 1 as [|c x w m Hx _ IH]; intros p cs after; simpl.
  - exists p. constructor.
  - destruct (IH (Some x) cs after) as (p' & Hm). exists p'.
    eapply matches_Seq; [by constructor|exact Hm].
Qed.

End MatchShapes.

(** ** [exec] returns the leftmost match *)

Section Exec.

Variable p : pattern.

(** No match of the pattern begins right at the text [s]. *)
Let no_match_at (s : str) : Prop :=
  exists before, forall st', ~ matches (icase p) (body p) (MState before s []) st'.

Lemma exec_from_complete s :
  forall before idx,
    exec_from p before idx s = None ->
    forall pre s', s = pre ++ s' -> no_match_at s'.
Proof.
  induction s as [|c s IH]; intros before idx; simpl;
    destruct (rmatch _ _ _ Some) as [st|] eqn:Hm; try discriminate;
    intros H pre s' Heq.
  - destruct pre; [|discriminate]. simpl in Heq. subst s'.
    exists before. intros st' Hst.
    by pose proof (rmatch_complete _ _ _ _ _ Hm _ Hst).
  - destruct pre as [|c' pre]; simpl in Heq.
    + subst s'. exists before. intros st' Hst.
      by pose proof (rmatch_complete _ _ _ _ _ Hm _ Hst).
    + injection Heq as -> ->. by eapply IH.
Qed.

Lemma exec_from_sound s :
  forall before idx m,
    exec_from p before idx s = Some m ->
    exists pre s' b st',
      s = pre ++ s'
      /\ matches (icase p) (body p) (MState b s' []) st'
      /\ m_text m = consumed (MState b s' []) st'
      /\ m_caps m = caps st'
      /\ (forall pre2 s2, s = pre2 ++ s2 ->
                          (length pre2 < length pre)%nat -> no_match_at s2).
Proof.
  induction s as [|c s IH]; intros before idx m; simpl;
    destruct (rmatch _ _ _ Some) as [st|] eqn:Hm; try discriminate.
  - intros [= <-]. apply rmatch_sound in Hm as (st' & Hst & [= ->]).
    exists [], [], before, st. simpl. split_and!; try done. intros; lia.
  - intros [= <-]. apply rmatch_sound in Hm as (st' & Hst & [= ->]).
    exists [], (c :: s), before, st. simpl. split_and!; try done. intros; lia.
  - intros H. apply IH in H as (pre & s' & b & st' & -> & Hst & Htext & Hcaps & Hleft).
    exists (c :: pre), s', b, st'. split_and!; try done.
    intros pre2 s2 Heq Hlen. destruct pre2 as [|c2 pre2]; simpl in *.
    + subst s2. exists before. intros st2 Hst2.
      by pose proof (rmatch_complete _ _ _ _ _ Hm _ Hst2).
    + injection Heq as -> Heq. apply (Hleft pre2 s2 Heq). lia.
Qed.

End Exec.

Section Inversions.

Variable ic : bool.

Lemma matches_seq_inv r1 r2 st st2 :
  matches ic (Seq r1 r2) st st2 ->
  exists st1, matches ic r1 st st1 /\ matches ic r2 st1 st2.
Proof. inversion 1; subst; eauto. Qed.

Lemma matches_alt_inv r1 r2 st st' :
  matches ic (Alt r1 r2) st st' -> matches ic r1 st st' \/ matches ic r2 st st'.
Proof. inversion 1; subst; eauto. Qed.

Lemma matches_group_inv i r st st' :
  matches ic (Group i r) st st' ->
  exists st1, matches ic r st st1
              /\ st' = MState (prev st1) (rest st1)
                              ((i, consumed st st1) :: caps st1).
Proof. inversion 1; subst; eauto. Qed.

End Inversions.

(** ** [extractSalary] *)

Lemma digit_member c :
  existsb (fun it => item_match true it c) [CDigit] = true <-> Char.isDigit c = true.
Proof. simpl. by rewrite orb_false_r. Qed.

Lemma space_member c :
  existsb (fun it => item_match true it c) [CSpace] = true <-> Char.isSpace c = true.
Proof. simpl. by rewrite orb_false_r. Qed.

Lemma lit_match_canon c x :
  lit_match true c x = true <-> Char.canon c = Char.canon x.
Proof. unfold lit_match, Char.eqb. apply Ascii.eqb_eq. Qed.

Lemma Forall2_lit_match w m :
  Forall2 (fun c x => lit_match true c x = true) w m <-> same_ignoring_case w m.
Proof.
  unfold same_ignoring_case. split; intros H; eapply Forall2_impl; try exact H;
    intros c x; by rewrite lit_match_canon.
Qed.

Lemma salaryBody_eq : body salaryPattern = salaryBody.
Proof. reflexivity. Qed.

Lemma salary_match_inv before s st' :
  matches true salaryBody (MState before s []) st' ->
  exists ds ws unit,
    s = ds ++ ws ++ unit ++ rest st'
    /\ ds <> []
    /\ Forall (fun c => Char.isDigit c = true) ds
    /\ Forall (fun c => Char.isSpace c = true) ws
    /\ Exists (fun u => same_ignoring_case u unit) salaryUnits
    /\ caps st' = [(2%nat, unit); (1%nat, ds)].
Proof.
  unfold salaryBody. intros H.
  apply matches_seq_inv in H as (st1 & Hnumber & H).
  apply matches_seq_inv in H as (st2 & Hspaces & Hunit).
  apply matches_group_inv in Hnumber as (sta & Hdigits & ->).
  apply matches_seq_inv in Hdigits as (stb & Hfirst & Hmore).
  apply matches_class_inv in Hfirst as (x & Hx & Hxd & Hcb).
  apply matches_star_class_inv in Hmore as (m & Hm & Hmd & Hca).
  apply matches_star_class_inv in Hspaces as (ws & Hws & Hwsd & Hc2).
  apply matches_group_inv in Hunit as (st3 & Hword & ->).
  simpl in Hx, Hcb, Hm, Hca, Hws, Hc2. simpl.
  assert (exists unit, rest st2 = unit ++ rest st3
                       /\ Exists (fun u => same_ignoring_case u unit) salaryUnits
                       /\ caps st3 = caps st2) as (unit & Hu & Hin & Hc3).
  { apply matches_alt_inv in Hword as [Hw | Hword];
      [|apply matches_alt_inv in Hword as [Hw | Hw]];
      apply matches_word_inv in Hw as (unit & Hu & Hall & Hc3);
      apply Forall2_lit_match in Hall; exists unit; split_and!; try done;
      unfold salaryUnits.
    - by apply Exists_cons_hd.
    - by apply Exists_cons_tl, Exists_cons_hd.
    - by apply Exists_cons_tl, Exists_cons_tl, Exists_cons_hd. }
  exists (x :: m), ws, unit.
  assert (s = (x :: m) ++ rest sta) as Hs by (simpl; by rewrite Hx, Hm).
  split_and!.
  - rewrite Hs, Hws, Hu. done.
  - done.
  - constructor; [by apply digit_member|].
    eapply Forall_impl; [exact Hmd|]. intros c. apply digit_member.
  - eapply Forall_impl; [exact Hwsd|]. intros c. apply space_member.
  - done.
  - rewrite Hc3, Hc2, Hca, Hcb.
    rewrite (consumed_app (MState before s []) sta (x :: m) Hs).
    by rewrite (consumed_app st2 st3 unit Hu).
Qed.

Lemma salary_match_intro ds ws unit after before :
  ds <> [] ->
  Forall (fun c => Char.isDigit c = true) ds ->
  Forall (fun c => Char.isSpace c = true) ws ->
  Exists (fun u => same_ignoring_case u unit) salaryUnits ->
  exists st', matches true salaryBody
                (MState before (ds ++ ws ++ unit ++ after) []) st'.
Proof.
  intros Hne Hds Hws Hunit. destruct ds as [|x m]; [done|].
  apply Forall_cons_1 in Hds as [Hx Hm].
  destruct (matches_star_class_intro true [CDigit] m) with
    (p := Some x) (cs := @nil (nat * str)) (after := ws ++ unit ++ after)
    as (p1 & Hmore).
  { eapply Forall_impl; [exact Hm|]. intros c. apply digit_member. }
  set (caps1 := [(1%nat, consumed (MState before ((x :: m) ++ ws ++ unit ++ after) [])
                                  (MState p1 (ws ++ unit ++ after) []))]).
  destruct (matches_star_class_intro true [CSpace] ws) with
    (p := p1) (cs := caps1) (after := unit ++ after) as (p2 & Hspaces).
  { eapply Forall_impl; [exact Hws|]. intros c. apply space_member. }
  assert (exists p3, matches true (Word $"l" <|> Word $"lakh" <|> Word $"lpa")
                       (MState p2 (unit ++ after) caps1) (MState p3 after caps1))
    as (p3 & Hword).
  { unfold salaryUnits in Hunit. rewrite !Exists_cons in Hunit.
    destruct Hunit as [H | [H | [H | H]]]; [| | |by apply Exists_nil in H];
      apply Forall2_lit_match in H;
      destruct (matches_word_intro true _ _ H p2 caps1 after) as (p3 & Hw);
      exists p3.
    - by apply matches_AltL.
    - by apply matches_AltR, matches_AltL.
    - by apply matches_AltR, matches_AltR. }
  eexists. unfold salaryBody.
  eapply matches_Seq.
  { apply matches_Group. eapply matches_Seq; [|exact Hmore].
    constructor. by apply digit_member. }
  eapply matches_Seq; [exact Hspaces|].
  apply matches_Group. exact Hword.
Qed.

Lemma salary_mention_matches query pre ds before :
  salary_mention query pre ds ->
  exists s' st', query = pre ++ s'
                 /\ matches true salaryBody (MState before s' []) st'.
Proof.
  intros (Hne & Hds & ws & unit & after & -> & Hws & Hunit).
  destruct (salary_match_intro ds ws unit after before Hne Hds Hws Hunit)
    as (st' & Hst). eauto.
Qed.

Lemma exec_salary_none query :
  exec salaryPattern query = None ->
  ~ exists pre ds, salary_mention query pre ds.
Proof.
  intros Hnone (pre & ds & Hmention).
  destruct (salary_mention_matches query pre ds None Hmention) as (s' & _ & Hq & _).
  destruct (exec_from_complete salaryPattern query None 0 Hnone pre s' Hq)
    as (before & Hno).
  destruct (salary_mention_matches query pre ds before Hmention)
    as (s2 & st' & Hq2 & Hst).
  rewrite Hq in Hq2. apply app_inv_head in Hq2 as <-. by apply (Hno st').
Qed.

Lemma exec_salary_some query m :
  exec salaryPattern query = Some m ->
  exists pre ds,
    salary_mention query pre ds
    /\ (forall pre' ds', salary_mention query pre' ds' ->
                         (length pre <= length pre')%nat)
    /\ group m 1 = Some ds.
Proof.
  intros Hsome.
  apply exec_from_sound in Hsome
    as (pre & s' & b & st' & Hq & Hst & _ & Hcaps & Hleft).
  apply salary_match_inv in Hst
    as (ds & ws & unit & Hs & Hne & Hds & Hws & Hunit & Hc).
  exists pre, ds. split_and!.
  - split; [done|]. split; [done|]. exists ws, unit, (rest st').
    by rewrite Hq, Hs.
  - intros pre' ds' Hmention.
    destruct (decide (length pre' < length pre)%nat) as [Hlt|]; [exfalso|lia].
    destruct (salary_mention_matches query pre' ds' None Hmention)
      as (s2 & _ & Hq2 & _).
    destruct (Hleft pre' s2 Hq2 Hlt) as (before & Hno).
    destruct (salary_mention_matches query pre' ds' before Hmention)
      as (s3 & st3 & Hq3 & Hst3).
    rewrite Hq2 in Hq3. apply app_inv_head in Hq3 as <-. by apply (Hno st3).
  - unfold group. by rewrite Hcaps, Hc.
Qed.

(** *** Exact doubles *)

Lemma Qred_scaled a c : 0 < c -> Qred (a * c # Z.to_pos c) = inject_Z a.
Proof.
  intros Hc.
  transitivity (Qred (inject_Z a)).
  - apply Qred_complete. unfold Qeq, inject_Z. simpl.
    rewrite Z2Pos.id by done. lia.
  - unfold Qred, inject_Z.
    pose proof (Z.ggcd_correct_divisors a 1) as Hdiv.
    pose proof (Z.ggcd_gcd a 1) as Hgcd.
    destruct (Z.ggcd a 1) as [g [aa bb]]. simpl in Hgcd.
    rewrite Z.gcd_1_r in Hgcd. subst g. destruct Hdiv as [Ha Hb].
    replace bb with 1 by lia. replace aa with a by lia. done.
Qed.

Lemma floorLog2_integer n : 0 < n -> Double.floorLog2 n 1 = Z.log2 n.
Proof.
  intros Hn. unfold Double.floorLog2.
  change (Z.log2 1) with 0. rewrite Z.sub_0_r.
  pose proof (Z.log2_nonneg n) as Hl.
  rewrite (Z.max_l 0 (- Z.log2 n)), (Z.max_r 0 (Z.log2 n)) by lia.
  destruct (Z.log2_spec n Hn) as [Hlo _].
  rewrite (proj2 (Z.ltb_ge _ _)); [done|]. lia.
Qed.

Lemma nearestEven_multiple m b : 0 < b -> Double.nearestEven (m * b) b = m.
Proof.
  intros Hb. unfold Double.nearestEven.
  rewrite Z.mod_mul, Z.div_mul by lia.
  by replace (2 * 0 ?= b) with Lt by (symmetry; apply Z.compare_lt_iff; lia).
Qed.

Lemma ofZ_positive n :
  0 < n ->
  Double.ofZ n = match Double.roundPositive n 1 with
                 | Some r => Double.finite r
                 | None => Double.infinity false
                 end.
Proof. intros Hn. by destruct n. Qed.

(** An integer with at most 53 significant bits below [2^1024] is a
    double. *)
Lemma ofZ_exact m j :
  0 < m < 2 ^ 53 -> 0 <= j -> m * 2 ^ j < 2 ^ 1024 ->
  Double.ofZ (m * 2 ^ j) = Double.finite (inject_Z (m * 2 ^ j)).
Proof.
  intros Hm Hj Hmax.
  assert (0 < 2 ^ j) as Hpow by (apply Z.pow_pos_nonneg; lia).
  assert (0 < m * 2 ^ j) as Hn by lia.
  assert (Z.log2 (m * 2 ^ j) = j + Z.log2 m) as Hlog
    by (apply Z.log2_mul_pow2; lia).
  assert (0 <= Z.log2 m < 53) as Hlm.
  { split; [apply Z.log2_nonneg|]. apply Z.log2_lt_pow2; lia. }
  rewrite ofZ_positive by done.
  unfold Double.roundPositive.
  rewrite floorLog2_integer, Hlog by done.
  rewrite (Z.max_l (j + Z.log2 m - 52) (-1074)) by lia.
  set (k := j + Z.log2 m - 52).
  destruct (Z.le_gt_cases 0 k) as [Hk|Hk].
  - rewrite (Z.max_l 0 (- k)), (Z.max_r 0 k), Z.mul_1_r, Z.mul_1_l by lia.
    assert (m * 2 ^ j = (m * 2 ^ (j - k)) * 2 ^ k) as Hsplit.
    { rewrite <- Z.mul_assoc, <- Z.pow_add_r by lia. f_equal. f_equal. lia. }
    assert (Double.nearestEven (m * 2 ^ j) (2 ^ k) = m * 2 ^ (j - k)) as ->.
    { rewrite Hsplit. apply nearestEven_multiple, Z.pow_pos_nonneg; lia. }
    rewrite <- Hsplit.
    rewrite (proj2 (Z.leb_le 0 k)), (proj2 (Z.leb_gt _ _)) by lia.
    unfold Double.scaled. rewrite (proj2 (Z.leb_le 0 k)) by lia.
    simpl andb. cbv iota. by rewrite <- Hsplit.
  - rewrite (Z.max_r 0 (- k)), (Z.max_l 0 k) by lia.
    change (1 * 2 ^ 0) with 1.
    assert (Double.nearestEven (m * 2 ^ j * 2 ^ (- k)) 1 = m * 2 ^ j * 2 ^ (- k)) as ->.
    { rewrite <- (Z.mul_1_r (m * 2 ^ j * 2 ^ (- k))) at 1.
      by apply nearestEven_multiple. }
    rewrite (proj2 (Z.leb_gt 0 k)) by lia. simpl andb. cbv iota.
    unfold Double.scaled. rewrite (proj2 (Z.leb_gt 0 k)) by lia.
    f_equal. apply Qred_scaled. apply Z.pow_pos_nonneg; lia.
Qed.

Lemma digitVal_nonneg c : Char.isDigit c = true -> 0 <= Str.digitVal c.
Proof.
  unfold Char.isDigit, Char.between, Str.digitVal.
  intros [Hlo _]%andb_prop. apply N.leb_le in Hlo.
  change (Char.code "0") with 48%N in Hlo. lia.
Qed.

Lemma parseDigits_nonneg ds :
  Forall (fun c => Char.isDigit c = true) ds -> 0 <= Str.parseDigits ds.
Proof.
  unfold Str.parseDigits. intros Hds.
  assert (forall acc, 0 <= acc ->
            0 <= fold_left (fun acc c => 10 * acc + Str.digitVal c) ds acc) as H;
    [|by apply H].
  induction Hds as [|c ds Hc _ IH]; intros acc Hacc; [exact Hacc|].
  simpl. apply IH. pose proof (digitVal_nonneg c Hc). lia.
Qed.

(** The product of a number of digits and 100000 is exact as long as the
    number times 3125 stays below [2^53]. *)
Lemma salary_amount_exact ds :
  ds <> [] ->
  Forall (fun c => Char.isDigit c = true) ds ->
  Str.parseDigits ds * 3125 < 2 ^ 53 ->
  Double.mul (Double.parseInt ds) (Double.finite 100000)
  = Double.finite (inject_Z (Str.parseDigits ds * 100000)).
Proof.
  intros Hne Hds Hsmall.
  pose proof (parseDigits_nonneg ds Hds) as Hpos.
  unfold Double.parseInt. destruct ds as [|c ds]; [done|].
  set (n := Str.parseDigits (c :: ds)) in *.
  destruct (Z.eq_dec n 0) as [->|Hn]; [reflexivity|].
  replace n with (n * 2 ^ 0) at 1 by lia.
  rewrite ofZ_exact by lia.
  rewrite Z.pow_0_r, Z.mul_1_r.
  change (Double.mul (Double.finite (inject_Z n)) (Double.finite 100000))
    with (Double.ofZ (n * 100000)).
  replace (n * 100000) with (n * 3125 * 2 ^ 5) by lia.
  apply ofZ_exact; lia.
Qed.

(** Counterexample to C8: for "2882303761519 lpa" the amount is
    288230376151900032, the double nearest to the product, and not the
    number times 100,000, which is 288230376151900000. *)
Lemma extractSalary_large_number_rounded :
  extractSalary $"2882303761519 lpa"
  = Some (SalaryFilter (Double.finite 288230376151900032) gt)
  /\ Double.finite 288230376151900032
     <> Double.finite (inject_Z (2882303761519 * 100000)).
Proof. split; [vm_compute; reflexivity|vm_compute; discriminate]. Qed.

(** C8 (amended): [extractSalary] returns null exactly when the query
    mentions no number followed (after optional white space) by "l",
    "lakh" or "lpa" in either case; otherwise the amount is the
    double-precision product of that number -- the leftmost such mention --
    and 100,000, which is the number times 100,000 itself as long as the
    number times 3125 is below 2^53 (every number up to 2,882,303,761,517),
    and the operator is [lt] exactly when "below" or "under" occurs in the
    query, [gt] otherwise. *)
Theorem extractSalary_spec query :
  (extractSalary query = None <-> ~ exists pre ds, salary_mention query pre ds)
  /\ (forall f,
        extractSalary query = Some f ->
        exists pre ds,
          salary_mention query pre ds
          /\ (forall pre' ds', salary_mention query pre' ds' ->
                               (length pre <= length pre')%nat)
          /\ amount f = Double.mul (Double.parseInt ds) (Double.finite 100000)
          /\ (Str.parseDigits ds * 3125 < 2 ^ 53 ->
              amount f = Double.finite (inject_Z (Str.parseDigits ds * 100000)))
          /\ sal_operator f
             = if Str.includes query $"below" || Str.includes query $"under"
               then lt else gt).
Proof.
  unfold extractSalary.
  destruct (exec salaryPattern query) as [m|] eqn:Hexec.
  - destruct (exec_salary_some query m Hexec) as (pre & ds & Hmention & Hleft & Hg).
    split.
    + split; [discriminate|]. intros Hno. exfalso. apply Hno. eauto.
    + intros f [= <-]. exists pre, ds. rewrite Hg.
      cbn [amount sal_operator orEmpty]. split_and!; try done.
      destruct Hmention as (Hne & Hds & _). by apply salary_amount_exact.
  - split; [|discriminate]. split; [|done]. intros _.
    by apply exec_salary_none.
Qed.

Example extractSalary_examples :
  extractSalary $"salary below 12 LPA"
  = Some (SalaryFilter (Double.finite 1200000) lt)
  /\ extractSalary $"candidates expecting 8lakh"
     = Some (SalaryFilter (Double.finite 800000) gt)
  /\ extractSalary $"Below 5 l" = Some (SalaryFilter (Double.finite 500000) gt)
  /\ extractSalary $"12 years" = None.
Proof. repeat split; vm_compute; reflexivity. Qed.

(** * Further properties *)

(** ** Normalization *)

Lemma trimStart_snoc a c :
  Str.trimStart (a ++ [c])
  = match Str.trimStart a with
    | [] => if Char.isSpace c then [] else [c]
    | r => r ++ [c]
    end.
Proof.
  induction a as [|x a IH]; simpl; [done|].
  destruct (Char.isSpace x); [exact IH|done].
Qed.

Lemma trimEnd_cons c x :
  Str.trimEnd (c :: x)
  = match Str.trimEnd x with
    | [] => if Char.isSpace c then [] else [c]
    | r => c :: r
    end.
Proof.
  unfold Str.trimEnd. simpl. rewrite trimStart_snoc.
  destruct (Str.trimStart (rev x)) as [|y r] eqn:H; simpl.
  - by destruct (Char.isSpace c).
  - rewrite rev_app_distr. simpl.
    destruct (rev r ++ [y]) eqn:H'; [by destruct (rev r)|done].
Qed.

Lemma join_space_cons c w ws :
  Str.join_space ((c :: w) :: ws) = c :: Str.join_space (w :: ws).
Proof. unfold Str.join_space. simpl. by destruct ws. Qed.

Lemma join_space_two w w' ws :
  Str.join_space (w :: w' :: ws) = w ++ " "%char :: Str.join_space (w' :: ws).
Proof. reflexivity. Qed.

Lemma tokens_words s :
  Forall (fun w => w <> [] /\ Forall (fun c => Char.isSpace c = false /\ c ∈ s) w)
         (tokens s).
Proof.
  induction s as [|c s IH]; simpl; [constructor|].
  assert (Forall (fun w => w <> []
                    /\ Forall (fun x => Char.isSpace x = false /\ x ∈ c :: s) w)
                 (tokens s)) as IH'.
  { eapply Forall_impl; [exact IH|]. intros w [Hne Hw]. split; [done|].
    eapply Forall_impl; [exact Hw|]. intros x [? ?]. split; [done|]. by right. }
  destruct (Char.isSpace c) eqn:Hc; [done|].
  assert (Char.isSpace c = false /\ c ∈ c :: s) as Hhere by (split; [done|by left]).
  destruct (startsWithSpace s).
  - constructor; [|done]. split; [done|]. by constructor.
  - destruct (tokens s) as [|w ws]; [by repeat constructor|].
    apply Forall_cons_1 in IH' as [[Hne Hw] Hws].
    constructor; [|done]. split; [done|]. by constructor.
Qed.

Lemma join_space_nonempty w ws : w <> [] -> Str.join_space (w :: ws) <> [].
Proof. destruct w; [done|]. intros _. rewrite join_space_cons. done. Qed.

Lemma trimEnd_collapseFrom s :
  forall b,
    Str.trimEnd (Str.collapseFrom b s)
    = match tokens s with
      | [] => []
      | ts => (if startsWithSpace s && negb b then [" "%char] else [])
              ++ Str.join_space ts
      end.
Proof.
  induction s as [|c s IH]; intros b; simpl; [done|].
  destruct (Char.isSpace c) eqn:Hc.
  - destruct b; simpl.
    + rewrite IH. destruct (tokens s); [done|]. by destruct (startsWithSpace s).
    + rewrite trimEnd_cons, IH. simpl.
      pose proof (tokens_words s) as Hw.
      destruct (tokens s) as [|w ws]; [done|].
      apply Forall_cons_1 in Hw as [[Hne _] _].
      destruct (startsWithSpace s); simpl;
      (destruct (Str.join_space (w :: ws)) eqn:Hj; [|done]);
      by apply join_space_nonempty in Hj.
  - rewrite andb_false_l. simpl. rewrite trimEnd_cons, IH, andb_true_r, Hc.
    pose proof (tokens_words s) as Hw.
    destruct (startsWithSpace s).
    + destruct (tokens s) as [|w ws]; [done|].
      apply Forall_cons_1 in Hw as [[Hne _] _]. simpl.
      by rewrite join_space_two.
    + destruct (tokens s) as [|w ws]; [done|].
      apply Forall_cons_1 in Hw as [[Hne _] _]. simpl.
      rewrite join_space_cons.
      destruct (Str.join_space (w :: ws)) eqn:Hj; [|done].
      by apply join_space_nonempty in Hj.
Qed.

Lemma trimStart_collapseFrom s :
  forall b, Str.trimStart (Str.collapseFrom b s)
            = Str.collapseFrom true (Str.trimStart s).
Proof.
  induction s as [|c s IH]; intros b; simpl; [done|].
  destruct (Char.isSpace c) eqn:Hc.
  - destruct b; simpl; apply IH.
  - simpl. by rewrite Hc.
Qed.

Lemma tokens_trimStart s : tokens (Str.trimStart s) = tokens s.
Proof.
  induction s as [|c s IH]; simpl; [done|].
  destruct (Char.isSpace c) eqn:Hc; [done|]. simpl. by rewrite Hc.
Qed.

(** [s.replace(/\s+/g, ' ').trim()] joins the tokens of [s] with single
    spaces. *)
Lemma trim_collapseSpaces s :
  Str.trim (Str.collapseSpaces s) = Str.join_space (tokens s).
Proof.
  unfold Str.trim, Str.collapseSpaces.
  rewrite trimStart_collapseFrom, trimEnd_collapseFrom, tokens_trimStart.
  destruct (tokens s); [done|]. by destruct (startsWithSpace _).
Qed.

Lemma lowered_char c :
  let c' := Char.toLower c in
  let c'' := if Char.isWord c' || Char.isSpace c' then c' else " "%char in
  isNormalChar c'' = true \/ Char.isSpace c'' = true.
Proof. destruct c as [[] [] [] [] [] [] [] []]; vm_compute; auto. Qed.

Lemma normal_char_fixed c :
  isNormalChar c = true \/ c = " "%char ->
  Char.toLower c = c
  /\ (if Char.isWord c || Char.isSpace c then c else " "%char) = c.
Proof.
  intros [H | ->]; [|by vm_compute].
  revert H. destruct c as [[] [] [] [] [] [] [] []]; vm_compute; auto; discriminate.
Qed.

Lemma normal_char_not_space c : isNormalChar c = true -> Char.isSpace c = false.
Proof. destruct c as [[] [] [] [] [] [] [] []]; vm_compute; auto. Qed.

Lemma blank_lowered_chars text :
  Forall (fun c => isNormalChar c = true \/ Char.isSpace c = true)
         (Str.blankSpecials (Str.toLowerCase text)).
Proof.
  unfold Str.blankSpecials, Str.toLowerCase. rewrite map_map.
  apply Forall_map, Forall_true. intros c. apply lowered_char.
Qed.

Lemma normalizeForSearch_tokens text :
  normalizeForSearch text
  = Str.join_space (tokens (Str.blankSpecials (Str.toLowerCase text))).
Proof. apply trim_collapseSpaces. Qed.

Lemma tokens_normal text :
  Forall isNormalWord (tokens (Str.blankSpecials (Str.toLowerCase text))).
Proof.
  pose proof (blank_lowered_chars text) as Hchars.
  eapply Forall_impl; [apply tokens_words|]. intros w [Hne Hw]. split; [done|].
  eapply Forall_impl; [exact Hw|]. intros c [Hns Hin]. simpl in *.
  rewrite Forall_forall in Hchars. destruct (Hchars c Hin) as [H|H]; [done|congruence].
Qed.

(** X1: the normalized text is a list of nonempty words of lower-case
    letters, digits and underscores, joined by single spaces. *)
Theorem normalizeForSearch_words text :
  exists ws, normalizeForSearch text = Str.join_space ws /\ Forall isNormalWord ws.
Proof.
  exists (tokens (Str.blankSpecials (Str.toLowerCase text))).
  split; [apply normalizeForSearch_tokens|apply tokens_normal].
Qed.

Lemma tokens_word w rest :
  w <> [] -> Forall (fun c => Char.isSpace c = false) w ->
  rest = [] \/ startsWithSpace rest = true ->
  tokens (w ++ rest) = w :: tokens rest.
Proof.
  intros Hne Hw Hrest. induction Hw as [|c w Hc Hw IH]; [done|]. simpl. rewrite Hc.
  destruct w as [|c' w'].
  - simpl. destruct Hrest as [-> | ->]; done.
  - apply Forall_cons_1 in Hw as Hc'. destruct Hc' as [Hc' _].
    simpl app at 1. cbn [startsWithSpace]. rewrite Hc'.
    change (c' :: w' ++ rest) with ((c' :: w') ++ rest). by rewrite IH.
Qed.

Lemma tokens_join_space ws :
  Forall (fun w => w <> [] /\ Forall (fun c => Char.isSpace c = false) w) ws ->
  tokens (Str.join_space ws) = ws.
Proof.
  induction 1 as [|w ws [Hne Hw] Hws IH]; [done|].
  destruct ws as [|w' ws'].
  - unfold Str.join_space. simpl. rewrite <- (app_nil_r w) at 1.
    rewrite tokens_word; auto.
  - rewrite join_space_two. rewrite tokens_word; auto.
    simpl tokens at 1. by rewrite IH.
Qed.

Lemma Forall_join_space (P : ascii -> Prop) ws :
  P " "%char -> Forall (Forall P) ws -> Forall P (Str.join_space ws).
Proof.
  intros Hsp. induction 1 as [|w ws Hw Hws IH]; [constructor|].
  destruct ws as [|w' ws']; [done|]. rewrite join_space_two.
  apply Forall_app. split; [done|]. by constructor.
Qed.

(** The normal form is a fixed point of the normalization. *)
Lemma normalizeForSearch_join_space ws :
  Forall isNormalWord ws ->
  normalizeForSearch (Str.join_space ws) = Str.join_space ws.
Proof.
  intros Hws.
  assert (Forall (fun c => isNormalChar c = true \/ c = " "%char) (Str.join_space ws))
    as Hchars.
  { apply Forall_join_space; [by right|].
    eapply Forall_impl; [exact Hws|]. intros w [_ Hw].
    eapply Forall_impl; [exact Hw|]. by left. }
  unfold normalizeForSearch.
  assert (Str.toLowerCase (Str.join_space ws) = Str.join_space ws) as ->.
  { unfold Str.toLowerCase. rewrite <- (map_id (Str.join_space ws)) at 2.
    apply map_ext_Forall. eapply Forall_impl; [exact Hchars|].
    intros c Hc. by apply normal_char_fixed. }
  assert (Str.blankSpecials (Str.join_space ws) = Str.join_space ws) as ->.
  { unfold Str.blankSpecials. rewrite <- (map_id (Str.join_space ws)) at 2.
    apply map_ext_Forall. eapply Forall_impl; [exact Hchars|].
    intros c Hc. by apply normal_char_fixed. }
  rewrite trim_collapseSpaces, tokens_join_space; [done|].
  eapply Forall_impl; [exact Hws|]. intros w [Hne Hw]. split; [done|].
  eapply Forall_impl; [exact Hw|]. apply normal_char_not_space.
Qed.

Lemma normalizeForSearch_fixed text :
  normalizeForSearch (normalizeForSearch text) = normalizeForSearch text.
Proof.
  rewrite (normalizeForSearch_tokens text).
  apply normalizeForSearch_join_space, tokens_normal.
Qed.

(** X2: normalizing twice is normalizing once; so the similarity of two
    strings is the similarity of their normal forms. *)
Theorem normalizeForSearch_idempotent :
  (forall text, normalizeForSearch (normalizeForSearch text) = normalizeForSearch text)
  /\ (forall a b, calculateSimilarity (normalizeForSearch a) (normalizeForSearch b)
                  = calculateSimilarity a b).
Proof.
  split; [apply normalizeForSearch_fixed|].
  intros a b. unfold calculateSimilarity. by rewrite !normalizeForSearch_fixed.
Qed.

(** ** Similarity is a ratio *)

Lemma divide_ratio a b :
  (a <= b)%nat -> b <> O ->
  exists q, divide a b = Num q /\ (0 <= q)%Q /\ (q <= 1)%Q.
Proof.
  intros Hle Hb. destruct b as [|b]; [done|]. simpl. eexists. split; [done|].
  unfold Qle. simpl. rewrite <- Pos.of_nat_succ, Zpos_P_of_succ_nat. lia.
Qed.

(** X3: the similarity of two strings is a number between 0 and 1. *)
Theorem calculateSimilarity_bounds a b :
  exists q, calculateSimilarity a b = Num q /\ (0 <= q)%Q /\ (q <= 1)%Q.
Proof.
  destruct (calculateSimilarity_defined a b) as [q Hq]. revert Hq.
  unfold calculateSimilarity.
  set (s1 := normalizeForSearch a). set (s2 := normalizeForSearch b).
  destruct (Str.eqb s1 s2); [intros _; exists 1%Q; by repeat split|].
  destruct (_ || _); [intros _; exists (8 # 10)%Q; by repeat split|].
  set (c1 := list_to_set s1 : gset ascii). set (c2 := list_to_set s2 : gset ascii).
  intros Hq. apply divide_ratio.
  - apply subseteq_size. intros x. rewrite elem_of_filter, elem_of_union. tauto.
  - intros Hz. rewrite Hz in Hq. by destruct (size _).
Qed.

(** ** Containment *)

Lemma startsWith_iff s p : Str.startsWith s p = true <-> exists post, s = p ++ post.
Proof.
  revert s. induction p as [|a p IH]; intros [|b s]; simpl.
  - split; [intros _; by exists []|done].
  - split; [intros _; by exists (b :: s)|done].
  - split; [done|by intros [? ?]].
  - rewrite andb_true_iff, IH. unfold Char.eqb. rewrite Ascii.eqb_eq. split.
    + intros [-> [post ->]]. eauto.
    + intros [post [= -> ->]]. eauto.
Qed.

Lemma includes_iff s p :
  Str.includes s p = true <-> exists pre post, s = pre ++ p ++ post.
Proof.
  induction s as [|c s IH]; cbn [Str.includes].
  - rewrite orb_false_r, startsWith_iff. split.
    + intros [post ->]. by exists [], post.
    + intros (pre & post & H). symmetry in H.
      apply app_eq_nil in H as [-> H]. eauto.
  - rewrite orb_true_iff, startsWith_iff, IH. split.
    + intros [[post ->] | (pre & post & ->)]; [by exists [], post|].
      by exists (c :: pre), post.
    + intros ([|c' pre] & post & H); [left; eauto|].
      injection H as -> ->. right. eauto.
Qed.

Lemma includes_chars s p c : Str.includes s p = true -> c ∈ p -> c ∈ s.
Proof.
  intros (pre & post & ->)%includes_iff Hc. rewrite !elem_of_app. tauto.
Qed.

(** ** The longest vocabulary entry *)

Lemma head_insert_sorted {A} (nonpos : A -> A -> bool) x l :
  head (insert_sorted nonpos x l)
  = match head l with
    | None => Some x
    | Some y => if nonpos x y then Some x else Some y
    end.
Proof. destruct l as [|y l]; simpl; [done|]. by destruct (nonpos x y). Qed.

(** The head of the sorted entries is the first of the longest ones. *)
Lemma head_sort_byLengthDesc l :
  match head (sort byLengthDesc l) with
  | None => l = []
  | Some w =>
      exists pre post,
        l = pre ++ w :: post
        /\ Forall (fun x => (length x < length w)%nat) pre
        /\ Forall (fun x => (length x <= length w)%nat) post
  end.
Proof.
  induction l as [|x l IH]; simpl; [done|].
  rewrite head_insert_sorted.
  destruct (head (sort byLengthDesc l)) as [y|].
  - destruct IH as (pre & post & -> & Hpre & Hpost).
    unfold byLengthDesc. destruct (_ <=? 0) eqn:Hle.
    + apply Z.leb_le in Hle. exists [], (pre ++ y :: post). split_and!; [done..|].
      apply Forall_app. split; [|constructor].
      * eapply Forall_impl; [exact Hpre|]. simpl. lia.
      * lia.
      * eapply Forall_impl; [exact Hpost|]. simpl. lia.
    + apply Z.leb_gt in Hle. exists (x :: pre), post. split_and!; [done| |done].
      constructor; [lia|done].
  - subst l. exists [], []. by split_and!.
Qed.

Lemma filter_split {A} (P : A -> Prop) `{!forall x, Decision (P x)} l pre' w post' :
  filter P l = pre' ++ w :: post' ->
  exists pre post, l = pre ++ w :: post /\ P w
                   /\ filter P pre = pre' /\ filter P post = post'.
Proof.
  revert pre'. induction l as [|x l IH]; intros pre'; [by destruct pre'|].
  rewrite filter_cons. destruct (decide (P x)) as [Hx|Hx].
  - destruct pre' as [|y pre']; simpl.
    + intros [= -> Hl]. exists [], l. by split_and!.
    + intros [= -> Hl]. destruct (IH _ Hl) as (pre & post & -> & Hw & Hpre & Hpost).
      exists (y :: pre), post. split_and!; [done..| |done].
      by rewrite filter_cons_True, Hpre.
  - intros Hl. destruct (IH _ Hl) as (pre & post & -> & Hw & Hpre & Hpost).
    exists (x :: pre), post. split_and!; [done..| |done].
    by rewrite filter_cons_False.
Qed.

Lemma Forall_filter_impl {A} (P : A -> Prop) `{!forall x, Decision (P x)}
    (Q : A -> Prop) l :
  Forall Q (filter P l) -> Forall (fun x => P x -> Q x) l.
Proof.
  intros Hall. apply Forall_forall. intros x Hx HP.
  rewrite Forall_forall in Hall. apply Hall. by apply list_elem_of_filter.
Qed.

Lemma longestMatch_longest vocabulary query :
  longest_contained vocabulary (normalizeForSearch query)
                    (longestMatch vocabulary query).
Proof.
  unfold longestMatch.
  set (text := normalizeForSearch query).
  pose proof (head_sort_byLengthDesc
                (filter (fun w => Str.includes text w = true) vocabulary)) as H.
  destruct (head _) as [w|]; simpl.
  - destruct H as (pre' & post' & Hf & Hpre & Hpost).
    apply filter_split in Hf as (pre & post & -> & Hw & <- & <-).
    exists pre, post. split_and!; [done..| |].
    + exact (Forall_filter_impl (fun x => Str.includes text x = true) _ _ Hpre).
    + exact (Forall_filter_impl (fun x => Str.includes text x = true) _ _ Hpost).
  - apply Forall_forall. intros w Hw.
    destruct (Str.includes text w) eqn:Hin; [|done].
    assert (w ∈ filter (fun w => Str.includes text w = true) vocabulary) as Hf
      by by apply list_elem_of_filter.
    rewrite H in Hf. by apply elem_of_nil in Hf.
Qed.

(** X4: [extractSkill] and [extractJobTitle] return the longest entry
    of their vocabulary that the normalized query contains, the first listed
    among entries of the same length, and null exactly when the query
    contains no entry. *)
Theorem extractSkill_longest query :
  longest_contained skillKeywords (normalizeForSearch query) (extractSkill query)
  /\ longest_contained jobTitles (normalizeForSearch query) (extractJobTitle query).
Proof. split; apply longestMatch_longest. Qed.

Lemma longestMatch_normal vocabulary query w :
  longestMatch vocabulary query = Some w ->
  Forall (fun c => isNormalChar c = true \/ c = " "%char) w.
Proof.
  intros H. pose proof (longestMatch_longest vocabulary query) as Hl.
  rewrite H in Hl. destruct Hl as (_ & _ & _ & Hin & _).
  apply Forall_forall. intros c Hc.
  pose proof (includes_chars _ _ c Hin Hc) as Hq.
  rewrite normalizeForSearch_tokens in Hq.
  clear Hc. revert c Hq. apply Forall_forall.
  apply Forall_join_space; [by right|].
  eapply Forall_impl; [apply tokens_normal|]. intros x [_ Hx].
  eapply Forall_impl; [exact Hx|]. by left.
Qed.

(** X5: an extracted skill or job title consists of lower-case letters,
    digits, underscores and spaces; so the vocabulary entries "c++", "c#",
    "ci/cd" and "ui/ux designer" are never returned, whatever the query. *)
Theorem punctuated_keywords_never_extracted query :
  (forall skill, extractSkill query = Some skill ->
                 Forall (fun c => isNormalChar c = true \/ c = " "%char) skill)
  /\ (forall jobTitle, extractJobTitle query = Some jobTitle ->
                       Forall (fun c => isNormalChar c = true \/ c = " "%char) jobTitle)
  /\ (extractSkill query ∉ [Some $"c++"; Some $"c#"; Some $"ci/cd"])
  /\ extractJobTitle query <> Some $"ui/ux designer".
Proof.
  split_and!.
  - intros skill. apply longestMatch_normal.
  - intros jobTitle. apply longestMatch_normal.
  - intros Hin. rewrite !elem_of_cons in Hin.
    destruct Hin as [H | [H | [H | H]]]; [| | |by apply elem_of_nil in H];
      apply longestMatch_normal in H; rewrite Forall_forall in H.
    + by destruct (H "+"%char) as [?|?]; [set_solver|..].
    + by destruct (H "#"%char) as [?|?]; [set_solver|..].
    + by destruct (H "/"%char) as [?|?]; [set_solver|..].
  - intros H. apply longestMatch_normal in H. rewrite Forall_forall in H.
    by destruct (H "/"%char) as [?|?]; [set_solver|..].
Qed.

(** ** Shapes of the identifiers *)

Section Shapes.

Variable ic : bool.

Let member (items : list citem) (x : ascii) : Prop :=
  existsb (fun it => item_match ic it x) items = true.

(** A match consumes a prefix of the input. *)
Lemma matches_rest r st st' :
  matches ic r st st' -> exists m, rest st = m ++ rest st'.
Proof.
  induction 1; simpl;
    repeat match goal with H : exists _, _ |- _ => destruct H as [? H] end;
    try (by exists []); try (by eauto);
    try match goal with |- exists m, ?x :: ?s = m ++ ?s => by exists [x] end;
    match goal with
    | H1 : rest ?a = ?m1 ++ rest ?b, H2 : rest ?b = ?m2 ++ rest ?c
      |- exists m, rest ?a = m ++ rest ?c =>
        exists (m1 ++ m2); by rewrite H1, H2, app_assoc
    end.
Qed.

Lemma matches_opt_inv r st st' :
  matches ic (Opt r) st st' -> matches ic r st st' \/ st' = st.
Proof.
  intros [H | H]%matches_alt_inv; [by left|]. right. by inversion H.
Qed.

Lemma matches_plus_class_inv items st st' :
  matches ic (Plus (Class items)) st st' ->
  exists m, rest st = m ++ rest st' /\ m <> [] /\ Forall (member items) m
            /\ caps st' = caps st.
Proof.
  intros (st1 & H1 & H2)%matches_seq_inv.
  apply matches_class_inv in H1 as (x & Hx & Hok & Hc1).
  apply matches_star_class_inv in H2 as (m & Hm & Hall & Hc).
  exists (x :: m). rewrite Hx, Hm, Hc, Hc1. split_and!; [done..|by constructor|done].
Qed.

Lemma matches_plus_class_intro items m :
  m <> [] -> Forall (member items) m ->
  forall p cs after,
    exists p', matches ic (Plus (Class items)) (MState p (m ++ after) cs)
                       (MState p' after cs).
Proof.
  intros Hne Hm p cs after. destruct m as [|x m]; [done|].
  apply Forall_cons_1 in Hm as [Hx Hm].
  destruct (matches_star_class_intro ic items m Hm (Some x) cs after) as (p' & Hs).
  exists p'. eapply matches_Seq; [|exact Hs]. by constructor.
Qed.

Lemma matches_rep_class_inv items n :
  forall st st',
    matches ic (Rep n (Class items)) st st' ->
    exists m, rest st = m ++ rest st' /\ length m = n /\ Forall (member items) m
              /\ caps st' = caps st.
Proof.
  induction n as [|n IH]; intros st st'; simpl.
  - inversion 1; subst. exists []. by split_and!.
  - intros (st1 & H1 & H2)%matches_seq_inv.
    apply matches_class_inv in H1 as (x & Hx & Hok & Hc1).
    apply IH in H2 as (m & Hm & Hlen & Hall & Hc).
    exists (x :: m). rewrite Hx, Hm, Hc, Hc1. simpl.
    split_and!; [done|by rewrite Hlen|by constructor|done].
Qed.

Lemma matches_rep_class_intro items m :
  Forall (member items) m ->
  forall p cs after,
    exists p', matches ic (Rep (length m) (Class items)) (MState p (m ++ after) cs)
                       (MState p' after cs).
Proof.
  induction 1 as [|x m Hx _ IH]; intros p cs after; simpl.
  - exists p. constructor.
  - destruct (IH (Some x) cs after) as (p' & Hm). exists p'.
    eapply matches_Seq; [by constructor|exact Hm].
Qed.

Lemma matches_repupto_class_inv items n :
  forall st st',
    matches ic (RepUpTo n (Class items)) st st' ->
    exists m, rest st = m ++ rest st' /\ (length m <= n)%nat
              /\ Forall (member items) m /\ caps st' = caps st.
Proof.
  induction n as [|n IH]; intros st st'; simpl.
  - inversion 1; subst. exists []. by split_and!.
  - intros [H | ->]%matches_opt_inv; [|exists []; split_and!; [done|simpl; lia|done..]].
    apply matches_seq_inv in H as (st1 & H1 & H2).
    apply matches_class_inv in H1 as (x & Hx & Hok & Hc1).
    apply IH in H2 as (m & Hm & Hlen & Hall & Hc).
    exists (x :: m). rewrite Hx, Hm, Hc, Hc1. simpl.
    split_and!; [done|lia|by constructor|done].
Qed.

Lemma matches_repupto_class_intro items m :
  Forall (member items) m ->
  forall n p cs after,
    (length m <= n)%nat ->
    exists p', matches ic (RepUpTo n (Class items)) (MState p (m ++ after) cs)
                       (MState p' after cs).
Proof.
  induction 1 as [|x m Hx _ IH]; intros n p cs after Hlen; simpl.
  - exists p. destruct n; simpl; [constructor|]. apply matches_AltR. constructor.
  - destruct n as [|n]; [simpl in Hlen; lia|].
    destruct (IH n (Some x) cs after) as (p' & Hm); [simpl in Hlen; lia|].
    exists p'. simpl. apply matches_AltL.
    eapply matches_Seq; [by constructor|exact Hm].
Qed.

End Shapes.

(** What [exec] finds is a substring matched by the pattern, and the
    pattern matches at no earlier position. *)
Lemma exec_sound p s m :
  exec p s = Some m ->
  exists pre b st',
    s = pre ++ m_text m ++ rest st'
    /\ matches (icase p) (body p) (MState b (m_text m ++ rest st') []) st'
    /\ m_caps m = caps st'
    /\ (forall pre2 s2,
          s = pre2 ++ s2 -> (length pre2 < length pre)%nat ->
          exists before,
            forall st2, ~ matches (icase p) (body p) (MState before s2 []) st2).
Proof.
  intros H. apply exec_from_sound in H
    as (pre & s' & b & st' & -> & Hst & Htext & Hcaps & Hleft).
  destruct (matches_rest _ _ _ _ Hst) as [t Ht].
  rewrite (consumed_app _ _ t Ht) in Htext. simpl in Ht. subst s'. rewrite Htext.
  by exists pre, b, st'.
Qed.

(** [exec] finds nothing only if the pattern matches nowhere. *)
Lemma exec_none p s pre s' :
  exec p s = None -> s = pre ++ s' ->
  exists before, forall st', ~ matches (icase p) (body p) (MState before s' []) st'.
Proof. intros H Hs. exact (exec_from_complete p s None 0 H pre s' Hs). Qed.

Lemma matches_lit_inv ic c st st' :
  matches ic (Lit c) st st' ->
  exists x, rest st = x :: rest st' /\ lit_match ic c x = true
            /\ caps st' = caps st.
Proof. inversion 1; subst; simpl; eauto. Qed.

Lemma range_member lo hi c :
  existsb (fun it => item_match false it c) [CRange lo hi] = true
  <-> Char.between lo hi c = true.
Proof. simpl. by rewrite !orb_false_r. Qed.

Lemma digit_member_any ic c :
  existsb (fun it => item_match ic it c) [CDigit] = true <-> Char.isDigit c = true.
Proof. simpl. by rewrite orb_false_r. Qed.

Lemma word_member ic c :
  existsb (fun it => item_match ic it c) [CWord] = true <-> Char.isWord c = true.
Proof. simpl. by rewrite orb_false_r. Qed.

Lemma email_member c :
  existsb (fun it => item_match false it c) [CWord; CChar "."; CChar "-"] = true
  <-> isEmailChar c = true.
Proof. unfold isEmailChar. simpl. by rewrite orb_false_r, orb_assoc. Qed.

Lemma letter_member c :
  existsb (fun it => item_match true it c) [CRange "A" "Z"] = true
  <-> isLetter c = true.
Proof. destruct c as [[] [] [] [] [] [] [] []]; vm_compute; split; auto. Qed.

Lemma toUpper_letter c : isLetter c = true -> Char.isUpper (Char.toUpper c) = true.
Proof. destruct c as [[] [] [] [] [] [] [] []]; vm_compute; auto. Qed.

Lemma toUpper_digit c : Char.isDigit c = true -> Char.toUpper c = c.
Proof. destruct c as [[] [] [] [] [] [] [] []]; vm_compute; auto; discriminate. Qed.

(** *** Phone numbers *)

Lemma phone_match_inv before s st' :
  matches false (body phonePattern) (MState before s []) st' ->
  exists prefix p cs,
    s = prefix ++ p ++ rest st' /\ phone_number p /\ caps st' = (2%nat, p) :: cs.
Proof.
  unfold phonePattern. cbn [body]. intros H.
  apply matches_seq_inv in H as (st1 & Hcc & H).
  apply matches_seq_inv in H as (st2 & Hsep & Hnum).
  destruct (matches_rest _ _ _ _ Hcc) as [m1 Hm1].
  destruct (matches_rest _ _ _ _ Hsep) as [m2 Hm2].
  apply matches_group_inv in Hnum as (st3 & Hnum & ->).
  apply matches_seq_inv in Hnum as (sta & Hd & Hds).
  apply matches_class_inv in Hd as (d & Hd & Hdok & _).
  unfold digit in Hds.
  apply matches_rep_class_inv in Hds as (ds & Hds & Hlen & Hall & _).
  assert (rest st2 = (d :: ds) ++ rest st3) as Hp by (simpl; by rewrite Hd, Hds).
  exists (m1 ++ m2), (d :: ds), (caps st3). simpl in Hm1 |- *. split_and!.
  - rewrite Hm1, Hm2, Hp. by rewrite <- app_assoc.
  - exists d, ds. split_and!; [done|by apply range_member|done|].
    eapply Forall_impl; [exact Hall|]. intros c. apply digit_member_any.
  - by rewrite (consumed_app st2 st3 _ Hp).
Qed.

Lemma phone_match_intro p before cs after :
  phone_number p ->
  exists st', matches false (body phonePattern) (MState before (p ++ after) cs) st'.
Proof.
  intros (d & ds & -> & Hd & Hlen & Hds).
  destruct (matches_rep_class_intro false [CDigit] ds) with
    (p := Some d) (cs := cs) (after := after) as (p' & Hrep).
  { eapply Forall_impl; [exact Hds|]. intros c. apply digit_member_any. }
  rewrite Hlen in Hrep.
  eexists. unfold phonePattern. cbn [body].
  eapply matches_Seq; [apply matches_AltR, matches_Eps|].
  eapply matches_Seq; [apply matches_AltR, matches_Eps|].
  apply matches_Group. eapply matches_Seq; [|exact Hrep].
  simpl. constructor. by apply range_member.
Qed.

Lemma extractPhone_some query p :
  extractPhone query = Some p ->
  phone_number p /\ exists pre post, query = pre ++ p ++ post.
Proof.
  unfold extractPhone. destruct (exec phonePattern query) as [m|] eqn:Hexec;
    simpl; [|done].
  apply exec_sound in Hexec as (pre & b & st' & Hq & Hst & Hcaps & _).
  apply phone_match_inv in Hst as (prefix & p' & cs & Hs & Hp & Hc).
  unfold group. rewrite Hcaps, Hc. simpl. intros [= <-]. split; [done|].
  exists (pre ++ prefix), (rest st'). by rewrite Hq, Hs, <- app_assoc.
Qed.

Lemma extractPhone_none query :
  extractPhone query = None -> ~ occurs_in phone_number query.
Proof.
  unfold extractPhone. destruct (exec phonePattern query) as [m|] eqn:Hexec; simpl.
  - apply exec_sound in Hexec as (pre & b & st' & Hq & Hst & Hcaps & _).
    apply phone_match_inv in Hst as (prefix & p' & cs & Hs & Hp & Hc).
    unfold group. by rewrite Hcaps, Hc.
  - intros _ (pre & t & post & Hq & Hp).
    destruct (exec_none _ _ pre (t ++ post) Hexec Hq) as (before & Hno).
    destruct (phone_match_intro t before [] post Hp) as (st' & Hst).
    by apply (Hno st').
Qed.

(** X6: [extractPhone] returns a ten-digit substring of the query that
    begins with a digit from 6 to 9, and null exactly when the query has no
    such substring. *)
Theorem extractPhone_spec query :
  match extractPhone query with
  | Some p => phone_number p /\ exists pre post, query = pre ++ p ++ post
  | None => ~ occurs_in phone_number query
  end.
Proof.
  destruct (extractPhone query) as [p|] eqn:H.
  - by apply extractPhone_some.
  - by apply extractPhone_none.
Qed.

(** *** Email addresses *)

Lemma email_match_inv before s st' :
  matches false emailBody (MState before s []) st' ->
  exists e, s = e ++ rest st' /\ email_address e.
Proof.
  unfold emailBody, emailChar, wordChar. intros H.
  apply matches_seq_inv in H as (st1 & Hlocal & H).
  apply matches_seq_inv in H as (st2 & Hat & H).
  apply matches_seq_inv in H as (st3 & Hdomain & H).
  apply matches_seq_inv in H as (st4 & Hdot & Htld).
  apply matches_plus_class_inv in Hlocal as (local & Hl & Hlne & Hlall & _).
  apply matches_lit_inv in Hat as (x & Hx & <-%Ascii.eqb_eq & _).
  apply matches_plus_class_inv in Hdomain as (domain & Hd & Hdne & Hdall & _).
  apply matches_lit_inv in Hdot as (y & Hy & <-%Ascii.eqb_eq & _).
  apply matches_plus_class_inv in Htld as (tld & Ht & Htne & Htall & _).
  simpl in Hl. exists (local ++ "@"%char :: domain ++ "."%char :: tld). split.
  - rewrite Hl, Hx, Hd, Hy, Ht. by rewrite <- !app_assoc; simpl; rewrite <- !app_assoc.
  - exists local, domain, tld. split_and!; try done.
    + eapply Forall_impl; [exact Hlall|]. intros c. apply email_member.
    + eapply Forall_impl; [exact Hdall|]. intros c. apply email_member.
    + eapply Forall_impl; [exact Htall|]. intros c. apply word_member.
Qed.

Lemma email_match_intro e before cs after :
  email_address e ->
  exists st', matches false emailBody (MState before (e ++ after) cs) st'.
Proof.
  intros (local & domain & tld & -> & Hlne & Hdne & Htne & Hl & Hd & Ht).
  destruct (matches_plus_class_intro false [CWord; CChar "."; CChar "-"] local Hlne)
    with (p := before) (cs := cs)
         (after := "@"%char :: domain ++ "."%char :: tld ++ after) as (p1 & H1).
  { eapply Forall_impl; [exact Hl|]. intros c. apply email_member. }
  destruct (matches_plus_class_intro false [CWord; CChar "."; CChar "-"] domain Hdne)
    with (p := Some "@"%char) (cs := cs) (after := "."%char :: tld ++ after)
    as (p2 & H2).
  { eapply Forall_impl; [exact Hd|]. intros c. apply email_member. }
  destruct (matches_plus_class_intro false [CWord] tld Htne)
    with (p := Some "."%char) (cs := cs) (after := after) as (p3 & H3).
  { eapply Forall_impl; [exact Ht|]. intros c. apply word_member. }
  exists (MState p3 after cs). unfold emailBody, emailChar, wordChar.
  replace ((local ++ "@"%char :: domain ++ "."%char :: tld) ++ after)
    with (local ++ "@"%char :: domain ++ "."%char :: tld ++ after)
    by (by rewrite <- !app_assoc; simpl; rewrite <- !app_assoc).
  eapply matches_Seq; [exact H1|].
  eapply matches_Seq; [by constructor|].
  eapply matches_Seq; [exact H2|].
  eapply matches_Seq; [by constructor|]. exact H3.
Qed.

Lemma extractEmail_some query e :
  extractEmail query = Some e ->
  email_address e
  /\ exists pre post,
       query = pre ++ e ++ post
       /\ forall pre' e' post',
            query = pre' ++ e' ++ post' -> email_address e' ->
            (length pre <= length pre')%nat.
Proof.
  unfold extractEmail. destruct (exec emailPattern query) as [m|] eqn:Hexec;
    simpl; [|done].
  intros [= <-].
  apply exec_sound in Hexec as (pre & b & st' & Hq & Hst & _ & Hleft).
  apply email_match_inv in Hst as (e & He%app_inv_tail & Hshape). subst e.
  split; [done|]. exists pre, (rest st'). split; [done|].
  intros pre' e' post' Hq' He'.
  destruct (decide (length pre' < length pre)%nat) as [Hlt|]; [exfalso|lia].
  destruct (Hleft pre' (e' ++ post') Hq' Hlt) as (before & Hno).
  destruct (email_match_intro e' before [] post' He') as (st2 & Hst2).
  by apply (Hno st2).
Qed.

Lemma extractEmail_none query :
  extractEmail query = None -> ~ occurs_in email_address query.
Proof.
  unfold extractEmail. destruct (exec emailPattern query) as [m|] eqn:Hexec;
    simpl; [done|].
  intros _ (pre & t & post & Hq & Hp).
  destruct (exec_none _ _ pre (t ++ post) Hexec Hq) as (before & Hno).
  destruct (email_match_intro t before [] post Hp) as (st' & Hst).
  by apply (Hno st').
Qed.

(** X7: [extractEmail] returns a substring of the query of the form
    local@domain.tld, one that begins where the first such substring
    begins, and null exactly when the query has no such substring. *)
Theorem extractEmail_spec query :
  match extractEmail query with
  | Some e =>
      email_address e
      /\ exists pre post,
           query = pre ++ e ++ post
           /\ forall pre' e' post',
                query = pre' ++ e' ++ post' -> email_address e' ->
                (length pre <= length pre')%nat
  | None => ~ occurs_in email_address query
  end.
Proof.
  destruct (extractEmail query) as [e|] eqn:H.
  - by apply extractEmail_some.
  - by apply extractEmail_none.
Qed.

(** *** Job identifiers *)

Lemma jobId_match_inv before s st' :
  matches true (body jobIdPattern) (MState before s []) st' ->
  exists letters digits, s = letters ++ digits ++ rest st' /\ job_code letters digits.
Proof.
  unfold jobIdPattern. cbn [body]. unfold RepRange, digit. intros H.
  apply matches_group_inv in H as (st3 & H & ->).
  apply matches_seq_inv in H as (st2 & H & Hdigits).
  apply matches_seq_inv in H as (st1 & Htwo & Hmore).
  apply matches_rep_class_inv in Htwo as (l1 & Hl1 & Hlen1 & Hall1 & _).
  apply matches_repupto_class_inv in Hmore as (l2 & Hl2 & Hlen2 & Hall2 & _).
  apply matches_plus_class_inv in Hdigits as (ds & Hds & Hne & Hdall & _).
  simpl in Hl1, Hlen2 |- *. exists (l1 ++ l2), ds. split.
  - rewrite Hl1, Hl2, Hds. by rewrite <- !app_assoc.
  - split_and!; try done.
    + rewrite length_app. lia.
    + rewrite length_app. lia.
    + apply Forall_app. split.
      * eapply Forall_impl; [exact Hall1|]. intros c. apply letter_member.
      * eapply Forall_impl; [exact Hall2|]. intros c. apply letter_member.
    + eapply Forall_impl; [exact Hdall|]. intros c. apply digit_member_any.
Qed.

Lemma jobId_match_intro letters digits before cs after :
  job_code letters digits ->
  exists st', matches true (body jobIdPattern)
                (MState before (letters ++ digits ++ after) cs) st'.
Proof.
  intros ([Hlo Hhi] & Hl & Hne & Hd).
  rewrite <- (take_drop 2 letters) in Hl |- *.
  apply Forall_app in Hl as [Hl1 Hl2].
  destruct (matches_rep_class_intro true [CRange "A" "Z"] (take 2 letters))
    with (p := before) (cs := cs) (after := drop 2 letters ++ digits ++ after)
    as (p1 & H1).
  { eapply Forall_impl; [exact Hl1|]. intros c. apply letter_member. }
  rewrite length_take in H1. replace (2 `min` length letters)%nat with 2%nat in H1 by lia.
  destruct (matches_repupto_class_intro true [CRange "A" "Z"] (drop 2 letters))
    with (n := 2%nat) (p := p1) (cs := cs) (after := digits ++ after) as (p2 & H2).
  { eapply Forall_impl; [exact Hl2|]. intros c. apply letter_member. }
  { rewrite length_drop. lia. }
  destruct (matches_plus_class_intro true [CDigit] digits Hne)
    with (p := p2) (cs := cs) (after := after) as (p3 & H3).
  { eapply Forall_impl; [exact Hd|]. intros c. apply digit_member_any. }
  eexists. unfold jobIdPattern. cbn [body]. unfold RepRange, digit.
  apply matches_Group. rewrite <- app_assoc.
  eapply matches_Seq; [|exact H3].
  eapply matches_Seq; [exact H1|exact H2].
Qed.

Lemma extractJobId_some query jobId :
  extractJobId query = Some jobId ->
  exists pre letters digits post,
    query = pre ++ letters ++ digits ++ post
    /\ job_code letters digits
    /\ jobId = Str.toUpperCase letters ++ digits
    /\ Forall (fun c => Char.isUpper c = true) (Str.toUpperCase letters).
Proof.
  unfold extractJobId. destruct (exec jobIdPattern query) as [m|] eqn:Hexec;
    simpl; [|done].
  intros [= <-].
  apply exec_sound in Hexec as (pre & b & st' & Hq & Hst & _).
  apply jobId_match_inv in Hst as (letters & digits & Hs & Hcode).
  rewrite app_assoc in Hs. apply app_inv_tail in Hs.
  exists pre, letters, digits, (rest st'). split_and!; [|done| |].
  - by rewrite Hq, Hs, <- !app_assoc.
  - rewrite Hs. unfold Str.toUpperCase. rewrite map_app. f_equal.
    destruct Hcode as (_ & _ & _ & Hd). rewrite <- (map_id digits) at 2.
    apply map_ext_Forall. eapply Forall_impl; [exact Hd|]. apply toUpper_digit.
  - destruct Hcode as (_ & Hl & _). unfold Str.toUpperCase.
    apply Forall_map. eapply Forall_impl; [exact Hl|]. apply toUpper_letter.
Qed.

Lemma extractJobId_none query :
  extractJobId query = None -> ~ has_job_code query.
Proof.
  unfold extractJobId. destruct (exec jobIdPattern query) as [m|] eqn:Hexec;
    simpl; [done|].
  intros _ (pre & letters & digits & post & Hq & Hcode).
  destruct (exec_none _ _ pre (letters ++ digits ++ post) Hexec Hq) as (before & Hno).
  destruct (jobId_match_intro letters digits before [] post Hcode) as (st' & Hst).
  by apply (Hno st').
Qed.

(** X8: [extractJobId] returns two to four upper-case letters followed
    by digits, the upper-cased form of a substring of the query made of two
    to four letters followed by digits; it returns null exactly when the
    query has no such substring. *)
Theorem extractJobId_spec query :
  match extractJobId query with
  | Some jobId =>
      exists pre letters digits post,
        query = pre ++ letters ++ digits ++ post
        /\ job_code letters digits
        /\ jobId = Str.toUpperCase letters ++ digits
        /\ Forall (fun c => Char.isUpper c = true) (Str.toUpperCase letters)
  | None => ~ has_job_code query
  end.
Proof.
  destruct (extractJobId query) as [jobId|] eqn:H.
  - by apply extractJobId_some.
  - by apply extractJobId_none.
Qed.

(** ** Classification *)

Lemma truthy_false_none (o : option str) :
  truthy o = false -> (forall s, o = Some s -> s <> []) -> o = None.
Proof.
  destruct o as [[|c s]|]; simpl; [|done..]. intros _ H. by destruct (H [] eq_refl).
Qed.

Lemma no_identifier query :
  truthy (extractEmail query) || truthy (extractPhone query)
  || truthy (extractJobId query) = false ->
  ~ has_identifier query.
Proof.
  intros H. apply orb_false_iff in H as [H Hjob].
  apply orb_false_iff in H as [Hemail Hphone].
  intros [He | [Hp | Hj]].
  - apply (extractEmail_none query); [|done].
    apply truthy_false_none; [done|]. intros e Hsome.
    apply extractEmail_some in Hsome as [(l & d & t & -> & _) _]. by destruct l.
  - apply (extractPhone_none query); [|done].
    apply truthy_false_none; [done|]. intros p Hsome.
    by apply extractPhone_some in Hsome as [(d & ds & -> & _) _].
  - apply (extractJobId_none query); [|done].
    apply truthy_false_none; [done|]. intros j Hsome.
    apply extractJobId_some in Hsome
      as (_ & letters & digits & _ & _ & (_ & _ & Hne & _) & -> & _).
    destruct letters; [by destruct digits|done].
Qed.

(** X9: a query classified as unclear has at most three space-separated
    words and a query classified as off-topic has more than three; neither
    holds a recruitment keyword, an email address, a phone number or a job
    code. *)
Theorem classifyQuery_unclear_or_off_topic query :
  match type (classifyQuery query) with
  | unclear =>
      (length (Str.split_space query) <= 3)%nat
      /\ includesAny (Str.trim (Str.toLowerCase query)) recruitmentKeywords = false
      /\ ~ has_identifier query
  | off_topic =>
      (3 < length (Str.split_space query))%nat
      /\ includesAny (Str.trim (Str.toLowerCase query)) recruitmentKeywords = false
      /\ ~ has_identifier query
  | _ => True
  end.
Proof.
  unfold classifyQuery.
  destruct (existsb _ greetings); [done|].
  destruct (includesAny _ helpKeywords); [done|].
  destruct (includesAny _ recruitmentKeywords) eqn:Hkw; [done|].
  rewrite orb_false_l.
  destruct (_ || _) eqn:Hid; [done|]. apply no_identifier in Hid.
  destruct (test namePattern query && _); [done|].
  rewrite andb_true_r.
  destruct (_ <=? 3)%nat eqn:Hlen; simpl.
  - apply Nat.leb_le in Hlen. by split_and!.
  - apply Nat.leb_gt in Hlen. by split_and!.
Qed.

Lemma trimEnd_app a b :
  Str.trimEnd (a ++ b)
  = match Str.trimEnd b with
    | [] => Str.trimEnd a
    | r => a ++ r
    end.
Proof.
  induction a as [|c a IH]; simpl.
  - by destruct (Str.trimEnd b).
  - rewrite !trimEnd_cons, IH. destruct (Str.trimEnd b) as [|x r]; [done|].
    by destruct a.
Qed.

Lemma existsb_elem {A} (f : A -> bool) x l : x ∈ l -> f x = true -> existsb f l = true.
Proof.
  intros Hin Hf. apply existsb_exists. exists x. split; [|done].
  by apply list_elem_of_In.
Qed.

(** X10: a message that begins with a greeting word followed by a space
    is classified as a greeting whatever follows, also when the rest names
    candidates, skills or identifiers. *)
Theorem greeting_word_first :
  Forall (fun g =>
            forall g' rest,
              Str.toLowerCase g' = g ->
              type (classifyQuery (g' ++ " "%char :: rest)) = greeting)
         greetings.
Proof.
  assert (forall g, g ∈ greetings ->
            Str.trimStart g = g /\ Str.trimEnd g = g /\ g <> []) as Hplain.
  { intros g Hg. unfold greetings in Hg. rewrite !elem_of_cons in Hg.
    destruct Hg as [->|[->|[->|[->|[->|[->|[->|Hg]]]]]]];
      [by vm_compute..|by apply elem_of_nil in Hg]. }
  apply Forall_forall. intros g Hg g' rest Hlower.
  destruct (Hplain g Hg) as (Hstart & Hend & Hne).
  unfold classifyQuery.
  assert (Str.toLowerCase (g' ++ " "%char :: rest)
          = g ++ " "%char :: Str.toLowerCase rest) as ->.
  { unfold Str.toLowerCase in *. by rewrite map_app, Hlower. }
  set (tail := " "%char :: Str.toLowerCase rest).
  assert (Str.trim (g ++ tail)
          = match Str.trimEnd tail with [] => g | r => g ++ r end) as ->.
  { unfold Str.trim.
    assert (Str.trimStart (g ++ tail) = g ++ tail) as ->.
    { destruct g as [|c g]; [done|]. simpl in *.
      destruct (Char.isSpace c); [|done].
      exfalso. apply (f_equal length) in Hstart. simpl in Hstart.
      assert (length (Str.trimStart g) <= length g)%nat; [|lia].
      clear. induction g as [|x g IH]; simpl; [lia|].
      destruct (Char.isSpace x); simpl; lia. }
    by rewrite trimEnd_app, Hend. }
  assert (existsb
            (fun g0 => Str.eqb match Str.trimEnd tail with [] => g | r => g ++ r end g0
                       || Str.startsWith
                            match Str.trimEnd tail with [] => g | r => g ++ r end
                            (g0 ++ $" ")) greetings = true) as ->; [|done].
  apply (existsb_elem _ g); [done|].
  unfold tail. rewrite trimEnd_cons.
  destruct (Str.trimEnd (Str.toLowerCase rest)) as [|x r]; simpl.
  - by rewrite str_eqb_refl.
  - apply orb_true_iff. right. apply startsWith_iff. exists (x :: r).
    by rewrite <- app_assoc.
Qed.

(** ** What the router returns *)

Lemma ensures_ret {A} (Q : A -> Prop) E a : Q a -> ensures Q E (ret a).
Proof. intros H s. exact H. Qed.

Lemma ensures_bind {A B} (Q1 : A -> Prop) (Q : B -> Prop) E (m : M A) (f : A -> M B) :
  ensures Q1 E m -> (forall a, Q1 a -> ensures Q E (f a)) -> ensures Q E (bind m f).
Proof.
  intros Hm Hf s. unfold bind. specialize (Hm s).
  destruct (m s) as [[a|e] s1]; simpl in *; [|done]. by apply Hf.
Qed.

Lemma ensures_try_catch {A} (Q : A -> Prop) E1 E (m : M A) (h : str -> M A) :
  ensures Q E1 m -> (forall e, E1 e -> ensures Q E (h e)) ->
  ensures Q E (try_catch m h).
Proof.
  intros Hm Hh s. unfold try_catch. specialize (Hm s).
  destruct (m s) as [[a|e] s1]; simpl in *; [done|]. by apply Hh.
Qed.

Lemma ensures_true {A} (m : M A) : ensures (fun _ => True) (fun _ => True) m.
Proof. intros s. by destruct (m s).1. Qed.

Lemma ensures_read w o r :
  ensures (answered w r) (fun _ => rejects w) (read w o r).
Proof.
  intros s. unfold read, await, bind, get_trace, emit. simpl.
  destruct (on_read w (trace s) r) as [rows|err|msg] eqn:H; simpl; [eauto|done|].
  by exists (trace s), r, msg.
Qed.

Lemma ifRows_some ty make d r :
  ifRows ty make d = Some r ->
  exists x l, d = Some (x :: l) /\ r = SearchResult ty (Some (make (x :: l))).
Proof.
  unfold ifRows, found. destruct d as [[|x l]|]; simpl; try done.
  intros [= <-]. eauto.
Qed.

Lemma nonempty_some {A} (d : option (list A)) l :
  nonempty d = Some l -> d = Some l /\ l <> [].
Proof. destruct d as [[|x l']|]; simpl; try done. by intros [= <-]. Qed.

(** One step of a proof that a strategy [ensures] the invariant. *)
Ltac ensures_step :=
  lazymatch goal with
  | |- ensures _ _ (ret _) => apply ensures_ret
  | |- ensures _ _ (bind (read _ _ _) _) =>
      eapply ensures_bind; [apply ensures_read|intros ? ?]
  | |- ensures _ _ (match ?x with _ => _ end) => destruct x eqn:?
  | |- ensures _ _ (let _ := _ in _) => cbv zeta
  end.

(** A result made by [ifRows] or [found] from nonempty rows, of a type
    without a filter of its own. *)
Ltac plain_result :=
  cbv beta;
  lazymatch goal with
  | |- forall r, None = Some r -> _ => by intros ? [=]
  | |- forall r, ifRows _ _ _ = Some r -> _ =>
      let r := fresh "r" in
      let H := fresh "H" in
      intros r H; apply ifRows_some in H as (? & ? & _ & ->);
      split_and!; [by eexists|done..]
  | |- forall r, found _ _ = Some r -> _ =>
      let r := fresh "r" in
      intros r [= <-]; split_and!;
      [ eexists; split; [done|]; simpl;
        first [ done
              | match goal with
                | H : nonempty _ = Some _ |- _ => by apply nonempty_some in H as [_ ?]
                end ]
      | done.. ]
  end.

Section RouterResults.

Variable w : world.
Variable query : str.
Variable conversationHistory : list turn.
Variable requestedLimit : option Z.

Local Abbreviation inv :=
  (fun o : option search_result =>
     forall r, o = Some r -> result_inv w query (defaultLimitOf requestedLimit) r).

Lemma skillSearch_inv :
  ensures inv (fun _ => rejects w) (skillSearch w query requestedLimit).
Proof.
  unfold skillSearch.
  destruct (extractSkill query) as [[|c cs]|] eqn:Hskill;
    try (apply ensures_ret; by intros ? [=]).
  eapply ensures_bind; [apply ensures_read|]. intros d Hd.
  destruct (nonempty d) as [l|] eqn:Hl; [|apply ensures_ret; by intros ? [=]].
  apply nonempty_some in Hl as [-> _].
  apply ensures_ret. intros r Hr. apply ifRows_some in Hr as (x & rows & [= Hrows] & ->).
  split_and!; [by eexists|done..| |done].
  intros _. exists (c :: cs), l. split_and!; [done|exact Hd|]. simpl. by rewrite Hrows.
Qed.

Lemma experienceSearch_inv :
  ensures inv (fun _ => rejects w) (experienceSearch w query).
Proof.
  unfold experienceSearch.
  destruct (extractExperience query) as [f|] eqn:Hf;
    [|apply ensures_ret; by intros ? [=]].
  eapply ensures_bind; [apply ensures_read|]. intros d Hd.
  apply ensures_ret. intros r Hr. apply ifRows_some in Hr as (x & rows & [= Hrows] & ->).
  destruct d as [all|]; [|done].
  split_and!; [by eexists|done..|].
  intros _. exists f, all. split_and!; [done|exact Hd|]. simpl. by rewrite Hrows.
Qed.

Lemma semanticSearch_inv :
  ensures inv (fun _ => rejects w) (semanticSearch w query).
Proof.
  unfold semanticSearch. destruct (shouldUseSemanticSearch query);
    [|apply ensures_ret; by intros ? [=]].
  apply (ensures_try_catch _ (fun _ => True));
    [|intros; apply ensures_ret; by intros ? [=]].
  eapply ensures_bind; [apply ensures_true|]. intros l _.
  apply ensures_ret. plain_result.
Qed.

Lemma strategies_inv :
  Forall (ensures inv (fun _ => rejects w))
         (strategies w query conversationHistory requestedLimit).
Proof.
  unfold strategies. split_Forall.
  - unfold topForCriterion. repeat ensures_step; plain_result.
  - unfold topByScore. repeat ensures_step; plain_result.
  - unfold allCandidates. repeat ensures_step; plain_result.
  - unfold followUp. repeat ensures_step; plain_result.
  - unfold emailSearch. repeat ensures_step; plain_result.
  - unfold phoneSearch. repeat ensures_step; plain_result.
  - unfold jobIdSearch. repeat ensures_step; plain_result.
  - apply semanticSearch_inv.
  - apply experienceSearch_inv.
  - unfold scoreSearch. repeat ensures_step; plain_result.
  - unfold salarySearch. repeat ensures_step; plain_result.
  - apply skillSearch_inv.
  - unfold jobTitleSearch. repeat ensures_step; plain_result.
  - unfold statusSearch. repeat ensures_step; plain_result.
  - unfold locationSearch. repeat ensures_step; plain_result.
  - unfold clientSearch. repeat ensures_step; plain_result.
  - unfold jobSearch. repeat ensures_step; plain_result.
  - unfold statusTypes. repeat ensures_step; plain_result.
  - unfold catchAll. repeat ensures_step; plain_result.
  - unfold nameSearch. repeat ensures_step; plain_result.
Qed.

Lemma firstResult_ensures {Q : search_result -> Prop} E l :
  Forall (ensures (fun o => forall r, o = Some r -> Q r) E) l ->
  ensures (fun o => forall r, o = Some r -> Q r) E (firstResult l).
Proof.
  induction 1 as [|m l Hm Hl IH]; simpl; [apply ensures_ret; by intros ? [=]|].
  eapply ensures_bind; [exact Hm|]. intros [r|] Hr; [by apply ensures_ret|exact IH].
Qed.

(** The outcome of the router: the "no results" marker, a result of a
    strategy, or the error marker after a rejected read. *)
Lemma smartSearch_outcome s :
  exists r,
    (smartSearch w query conversationHistory requestedLimit s).1 = Returns r
    /\ (r = SearchResult no_results None
        \/ result_inv w query (defaultLimitOf requestedLimit) r
        \/ (r = SearchResult error None /\ rejects w)).
Proof.
  pose proof (firstResult_ensures _ _ strategies_inv s) as H.
  unfold smartSearch, route, try_catch, bind.
  destruct (firstResult _ s) as [[[r|]|e] s1]; simpl in *; eauto 6.
Qed.

End RouterResults.

(** X11: [smartSearch] always returns.  Its result is the "no results"
    marker without data, or the error marker without data -- which takes a
    store that rejects some read --, or a result of another type that
    carries data with at least one row. *)
Theorem smartSearch_result_shape w query history requestedLimit s :
  exists r,
    (smartSearch w query history requestedLimit s).1 = Returns r
    /\ match res_type r with
       | no_results => data r = None
       | error => data r = None /\ rejects w
       | _ => exists d, data r = Some d /\ result_rows d <> []
       end.
Proof.
  destruct (smartSearch_outcome w query history requestedLimit s)
    as (r & Hr & Hcases).
  exists r. split; [exact Hr|].
  destruct Hcases as [-> | [(Hrows & Hn & He & _) | [-> Hrej]]]; [done| |done].
  by destruct (res_type r).
Qed.

Lemma slice0_sublist {A} n (l : list A) : slice0 n l `sublist_of` l.
Proof. unfold slice0. destruct (n <? 0); apply sublist_take. Qed.

Lemma slice0_length {A} n (l : list A) :
  0 <= n -> Z.of_nat (length (slice0 n l)) <= n.
Proof.
  intros Hn. unfold slice0. destruct (n <? 0) eqn:Hneg; [lia|].
  rewrite length_take. lia.
Qed.

Lemma Forall_sublist {A} (P : A -> Prop) l1 l2 :
  l1 `sublist_of` l2 -> Forall P l2 -> Forall P l1.
Proof.
  rewrite !Forall_forall. intros Hsub H x Hx. eapply H, elem_of_sublist; eauto.
Qed.

Lemma filter_sublist {A} (f : A -> bool) l : List.filter f l `sublist_of` l.
Proof.
  induction l as [|x l IH]; simpl; [done|].
  destruct (f x); [by apply sublist_skip|by apply sublist_cons].
Qed.

Lemma Forall_filter_true {A} (f : A -> bool) l :
  Forall (fun x => f x = true) (List.filter f l).
Proof.
  induction l as [|x l IH]; simpl; [constructor|].
  destruct (f x) eqn:Hx; [by constructor|done].
Qed.

(** X12: when [smartSearch] answers with candidates by skill, the query
    names a skill of the vocabulary, and the candidates are rows of the
    store's sample of a hundred, in the store's order, each with a skill
    that matches; there is at least one and, for a limit that is not
    negative, at most as many as the limit. *)
Theorem skill_results_have_skill w query history requestedLimit s rows :
  (smartSearch w query history requestedLimit s).1
  = Returns (SearchResult candidates_by_skill (Some (Candidates rows))) ->
  exists skill all,
    extractSkill query = Some skill
    /\ (exists t, on_read w t skillRequest = Data all)
    /\ rows `sublist_of` all
    /\ Forall (fun c => hasSkill skill c = true) rows
    /\ rows <> []
    /\ (0 <= defaultLimitOf requestedLimit ->
        Z.of_nat (length rows) <= defaultLimitOf requestedLimit).
Proof.
  intros Hres.
  destruct (smartSearch_outcome w query history requestedLimit s)
    as (r & Hr & Hcases).
  rewrite Hres in Hr. injection Hr as <-.
  destruct Hcases as [[=] | [(Hrows & _ & _ & Hskill & _) | [[=] _]]].
  destruct (Hskill eq_refl) as (skill & all & Hextract & Hstore & [= ->]).
  destruct Hrows as (d & [= <-] & Hne).
  exists skill, all. split_and!; [done..| | |done|].
  - etransitivity; [apply slice0_sublist|apply filter_sublist].
  - eapply Forall_sublist; [apply slice0_sublist|]. apply Forall_filter_true.
  - apply slice0_length.
Qed.

Lemma skill_results_have_skill_witness :
  (smartSearch one_candidate_world skill_query [] None initial).1
  = Returns (SearchResult candidates_by_skill (Some (Candidates [asha])))
  /\ exists skill all,
    extractSkill skill_query = Some skill
    /\ (exists t, on_read one_candidate_world t skillRequest = Data all)
    /\ [asha] `sublist_of` all
    /\ Forall (fun c => hasSkill skill c = true) [asha]
    /\ [asha] <> []
    /\ (0 <= defaultLimitOf None -> Z.of_nat (length [asha]) <= defaultLimitOf None).
Proof.
  assert ((smartSearch one_candidate_world skill_query [] None initial).1
          = Returns (SearchResult candidates_by_skill (Some (Candidates [asha]))))
    as H by (vm_compute; reflexivity).
  split; [exact H|].
  exact (skill_results_have_skill one_candidate_world skill_query [] None initial
           [asha] H).
Defined.




(** ** What [sendMessage] does for each kind of message *)

(** A computation whose events do not write the cache leaves the cache as
    it was. *)
Lemma runs_state {A} (P : event -> Prop) (m : M A) s :
  (forall e, P e -> no_write e) -> runs P m ->
  exists evs, (m s).2 = State (responseCache s) (trace s ++ evs) /\ Forall P evs.
Proof.
  intros HP Hm. destruct (Hm s) as (evs & Ht & Hc & Hall). exists evs. split; [|done].
  destruct (m s) as [r [c t]]. simpl in *. rewrite Ht, Hc.
  rewrite fold_apply_event_no_write; [done|]. eapply Forall_impl; eauto.
Qed.

Lemma getStats_events w s :
  exists st evs,
    getStats w s = (Returns st, State (responseCache s) (trace s ++ evs))
    /\ Forall (fun e => isStatsEvent e = true) evs.
Proof.
  assert (runs (fun e => isStatsEvent e = true) (getStats w)) as Hruns.
  { unfold getStats, countAll. runs_io.
    - apply emitAll_runs; by repeat constructor.
    - apply resolveCounts_runs. }
  destruct (runs_state (fun e => isStatsEvent e = true) (getStats w) s)
    as (evs & Hs & HP); [|exact Hruns|].
  { intros e He. by destruct e. }
  assert (exists st, (getStats w s).1 = Returns st) as [st Hst].
  { unfold getStats, try_catch. destruct (bind _ _ s) as [[st|e] s']; simpl; eauto. }
  exists st, evs. split; [|done].
  destruct (getStats w s) as [r s']. simpl in *. by subst.
Qed.

(** X14: a greeting is answered with one of three fixed greetings and
    an unclear message with a request to clarify made from the trimmed
    message; either way only the statistics are fetched: no search runs,
    the generation API is not called, and the cache is left as it was. *)
Theorem greeting_and_unclear_replies w message jobId history s :
  match type (classifyQuery message) with
  | greeting =>
      exists (st : stats) (i : nat) (evs : list event),
        sendMessage w message jobId history s
        = (Returns (GreetingText i st),
           State (responseCache s) (trace s ++ evs ++ [Random]))
        /\ (i < 3)%nat /\ Forall (fun e => isStatsEvent e = true) evs
  | unclear =>
      exists (st : stats) (evs : list event),
        sendMessage w message jobId history s
        = (Returns (Clarification (Str.trim message)),
           State (responseCache s) (trace s ++ evs))
        /\ Forall (fun e => isStatsEvent e = true) evs
  | _ => True
  end.
Proof.
  destruct (getStats_events w s) as (st & evs & Hstats & Hevs).
  unfold sendMessage, bind. rewrite Hstats.
  destruct (type (classifyQuery message)); try done.
  - exists st, (on_random w (trace s ++ evs) mod 3)%nat, evs.
    split_and!; [by rewrite app_assoc| |done].
    apply Nat.mod_upper_bound. lia.
  - by exists st, evs.
Qed.

Section Outside.

Variable w : world.

Let outside (e : event) : Prop := isRouterRead e = false.

Lemma getStats_outside : runs outside (getStats w).
Proof.
  unfold getStats, countAll. runs_io.
  - apply emitAll_runs; by repeat constructor.
  - apply resolveCounts_runs.
Qed.

Lemma getRankedCandidatesFromJD_outside jobDescription :
  runs outside (getRankedCandidatesFromJD w jobDescription).
Proof.
  unfold getRankedCandidatesFromJD, completeOrThrow, complete,
    EmbeddingService.matchCandidatesToJD, EmbeddingService.generateEmbedding.
  runs_io.
Qed.

Lemma getAnalyticsReport_outside userQuery :
  runs outside (getAnalyticsReport w userQuery).
Proof.
  unfold getAnalyticsReport, completeOrThrow, complete, rpcOrThrow, rpc. runs_io.
Qed.

Lemma similarCandidates_outside message : runs outside (similarCandidates w message).
Proof.
  unfold similarCandidates, EmbeddingService.findSimilarCandidates. runs_io.
Qed.

Lemma sendMessage_outside message jobId history :
  type (classifyQuery message) <> recruitment ->
  runs outside (sendMessage w message jobId history).
Proof.
  intros Hnot. unfold sendMessage. apply runs_bind; [apply getStats_outside|].
  intros st.
  assert (bool_decide (type (classifyQuery message) = recruitment) = false) as Hdec
    by by apply bool_decide_eq_false.
  destruct (type (classifyQuery message)) eqn:Htype; try done.
  - unfold randomIndex. runs_io.
  - destruct (isJD message); [apply getRankedCandidatesFromJD_outside|].
    destruct (isAnalytics message); [apply getAnalyticsReport_outside|].
    apply runs_bind; [apply similarCandidates_outside|].
    intros [reply|]; [apply runs_ret|].
    unfold generateAndCache, complete. rewrite Htype, !Hdec. simpl. runs_io.
  - destruct (isJD message); [apply getRankedCandidatesFromJD_outside|].
    destruct (isAnalytics message); [apply getAnalyticsReport_outside|].
    apply runs_bind; [apply similarCandidates_outside|].
    intros [reply|]; [apply runs_ret|].
    unfold generateAndCache, complete. rewrite Htype, !Hdec. simpl. runs_io.
  - apply runs_ret.
Qed.

End Outside.

(** X15: for a message that is not classified as recruitment,
    [sendMessage] never consults the router: every read it issues is one of
    the statistics or of a handler, none is a read of a retrieval
    strategy. *)
Theorem router_only_for_recruitment w message jobId history s :
  type (classifyQuery message) <> recruitment ->
  exists evs,
    trace (sendMessage w message jobId history s).2 = trace s ++ evs
    /\ Forall (fun e => isRouterRead e = false) evs.
Proof.
  intros Hnot.
  destruct (sendMessage_outside w message jobId history Hnot s) as (evs & Ht & _ & HP).
  by exists evs.
Qed.

Lemma router_only_for_recruitment_witness :
  type (classifyQuery help_query) <> recruitment
  /\ exists evs,
       trace (sendMessage one_candidate_world help_query $"all" [] initial).2
       = trace initial ++ evs
       /\ Forall (fun e => isRouterRead e = false) evs.
Proof.
  assert (type (classifyQuery help_query) <> recruitment) as H
    by (vm_compute; discriminate).
  split; [exact H|].
  exact (router_only_for_recruitment one_candidate_world help_query $"all" []
           initial H).
Defined.

(** With history, a generation that returns has called the endpoint once
    and has left the cache as it was. *)
Lemma generateAndCache_history w message cls st requestedCount history s r s' :
  history <> [] ->
  generateAndCache w message cls st requestedCount history s = (Returns r, s') ->
  exists answer evs,
    r = Text answer
    /\ s' = State (responseCache s) (trace s ++ evs)
    /\ completions evs = 1%nat.
Proof.
  intros Hne. unfold generateAndCache.
  assert (bool_decide (type cls = recruitment) && (length history =? 0)%nat = false)
    as -> by (destruct history; [done|]; apply andb_false_r).
  unfold bind at 1.
  assert (exists o evs,
             (if bool_decide (type cls = recruitment)
              then let* r := smartSearch w message history requestedCount in
                   ret (Some r)
              else ret None) s
             = (Returns o, State (responseCache s) (trace s ++ evs))
             /\ Forall quiet evs) as (o & evs & -> & HP).
  { destruct (bool_decide _).
    - unfold bind.
      destruct (runs_quiet_state _ s (smartSearch_runs w message history requestedCount))
        as (evs & Hs & HP).
      destruct (smartSearch_returns w message history requestedCount s) as [res Hres].
      destruct (smartSearch _ _ _ _ s) as [x sa]. simpl in *. subst. eauto.
    - exists None, []. rewrite app_nil_r. split; [by destruct s|constructor]. }
  unfold complete, bind, get_trace, emit, ret. simpl.
  destruct (on_complete w _ _) as [answer|upstream|msg]; simpl; try discriminate.
  intros [= <- <-]. exists answer. eexists (evs ++ [_]). split; [done|].
  split; [by rewrite <- app_assoc|].
  rewrite completions_app, (completions_quiet _ HP). reflexivity.
Qed.

(** X16: a message sent with conversation history is never answered
    from the cache.  When it reaches the generation step -- it is neither a
    greeting nor unclear nor taken by the job-description, analytics or
    similar-candidates handlers -- and [sendMessage] returns, the answer was
    generated by exactly one call of the generation API, whatever the cache
    holds, and the cache is left as it was. *)
Theorem history_bypasses_cache w message jobId history s r s' :
  history <> [] ->
  type (classifyQuery message) <> greeting ->
  type (classifyQuery message) <> unclear ->
  isJD message = false ->
  isAnalytics message = false ->
  asksForSimilar message = false ->
  sendMessage w message jobId history s = (Returns r, s') ->
  exists answer evs,
    r = Text answer
    /\ s' = State (responseCache s) (trace s ++ evs)
    /\ completions evs = 1%nat.
Proof.
  intros Hne Hg Hu HnotJD HnotAnalytics HnotSimilar.
  unfold sendMessage, similarCandidates.
  rewrite HnotJD, HnotAnalytics, HnotSimilar.
  unfold bind at 1.
  destruct (getStats_total w s) as (st & evs0 & -> & Hq0).
  set (s0 := State (responseCache s) (trace s ++ evs0)).
  assert (forall s1 evs1,
             s1 = State (responseCache s) (trace s ++ evs0 ++ evs1) ->
             Forall quiet evs1 ->
             generateAndCache w message (classifyQuery message) st
               (extractRequestedCount message) history s1 = (Returns r, s') ->
             exists answer evs,
               r = Text answer
               /\ s' = State (responseCache s) (trace s ++ evs)
               /\ completions evs = 1%nat) as Hgen.
  { intros s1 evs1 -> Hq1 H.
    apply generateAndCache_history in H as (answer & evs & -> & -> & Hc); [|done].
    exists answer, (evs0 ++ evs1 ++ evs). simpl. split; [done|].
    split; [by rewrite <- !app_assoc|].
    by rewrite !completions_app, (completions_quiet _ Hq0), (completions_quiet _ Hq1). }
  assert (forall k : option str -> M chat_response,
             bind (cacheLookup w (Str.trim (Str.toLowerCase message)) history) k s0
             = k None (State (responseCache s) (trace s ++ evs0 ++ [])) \/
             bind (cacheLookup w (Str.trim (Str.toLowerCase message)) history) k s0
             = k None (State (responseCache s) (trace s ++ evs0 ++ [Now]))) as Hlookup.
  { intros k. unfold bind.
    unfold cacheLookup, bind, get_cache, now, bind, get_trace, emit. simpl.
    destruct (responseCache s !! _) as [entry|]; simpl.
    - right. destruct history; [done|]. simpl. rewrite andb_false_r.
      by rewrite <- app_assoc.
    - left. by rewrite app_nil_r. }
  destruct (type (classifyQuery message)) eqn:Htype; try done.
  - simpl. unfold bind at 1. simpl.
    destruct (Hlookup (fun cached =>
                match cached with
                | Some answer => ret (Text answer)
                | None => generateAndCache w message (classifyQuery message) st
                            (extractRequestedCount message) history
                end)) as [-> | ->].
    + apply (Hgen _ []); [done|constructor].
    + apply (Hgen _ [Now]); [done|by repeat constructor].
  - simpl. unfold bind at 1. simpl. unfold bind at 1. simpl.
    apply (Hgen s0 []); [by rewrite app_nil_r|constructor].
  - simpl. unfold bind at 1. simpl. unfold bind at 1. simpl.
    apply (Hgen s0 []); [by rewrite app_nil_r|constructor].
Qed.

Lemma history_bypasses_cache_witness :
  responseCache fresh_cache !! skill_query = Some (CacheEntry $"cached answer" 0)
  /\ (sendMessage one_candidate_world skill_query $"all" earlier_turns
        fresh_cache).1
     = Returns (Text (repeat "a"%char 8))
  /\ exists answer evs,
       Text (repeat "a"%char 8) = Text answer
       /\ (sendMessage one_candidate_world skill_query $"all" earlier_turns
             fresh_cache).2
          = State (responseCache fresh_cache) (trace fresh_cache ++ evs)
       /\ completions evs = 1%nat.
Proof.
  split; [vm_compute; reflexivity|]. split; [vm_compute; reflexivity|].
  apply (history_bypasses_cache one_candidate_world skill_query $"all"
           earlier_turns fresh_cache).
  - discriminate.
  - vm_compute. discriminate.
  - vm_compute. discriminate.
  - vm_compute. reflexivity.
  - vm_compute. reflexivity.
  - vm_compute. reflexivity.
  - vm_compute. reflexivity.
Defined.

(** X17: an entry of the cache that is [CACHE_TTL] old or older is not
    served.  For a recruitment message without history that is not taken
    by the job-description, analytics or similar-candidates handlers, a call
    that returns has generated the answer with exactly one call of the
    generation API and has replaced the entry by the new answer. *)
Theorem stale_entry_regenerated w message jobId s entry r s' :
  type (classifyQuery message) = recruitment ->
  isJD message = false ->
  isAnalytics message = false ->
  asksForSimilar message = false ->
  responseCache s !! Str.trim (Str.toLowerCase message) = Some entry ->
  (forall t, trace s `prefix_of` t -> CACHE_TTL <= on_now w t - timestamp entry) ->
  sendMessage w message jobId [] s = (Returns r, s') ->
  exists answer t evs,
    r = Text answer
    /\ s' = State (<[Str.trim (Str.toLowerCase message) := CacheEntry answer t]>
                    (responseCache s))
                  (trace s ++ evs)
    /\ completions evs = 1%nat.
Proof.
  intros Hrec HnotJD HnotAnalytics HnotSimilar Hentry Hstale Hsend.
  rewrite (sendMessage_recruitment w message jobId Hrec HnotJD HnotAnalytics
             HnotSimilar) in Hsend.
  unfold bind at 1 in Hsend.
  destruct (getStats_total w s) as (st & evs0 & Hstats & Hq0).
  rewrite Hstats in Hsend. unfold bind at 1 in Hsend.
  set (sa := State (responseCache s) (trace s ++ evs0)) in *.
  rewrite (cacheLookup_entry w _ sa entry Hentry) in Hsend.
  assert ((on_now w (trace sa) - timestamp entry <? CACHE_TTL) = false) as Hold.
  { apply Z.ltb_ge, Hstale. by exists evs0. }
  rewrite Hold in Hsend.
  apply (generateAndCache_returns w message Hrec) in Hsend
    as (answer & t & evs & -> & -> & Hc).
  exists answer, t, ((evs0 ++ [Now]) ++ evs). simpl. split; [done|].
  split; [by rewrite <- !app_assoc|].
  rewrite !completions_app, (completions_quiet _ Hq0), Hc. reflexivity.
Qed.

Lemma stale_entry_regenerated_witness :
  responseCache stale_cache !! skill_query
  = Some (CacheEntry $"cached answer" (- CACHE_TTL))
  /\ exists answer t evs,
       Text (repeat "a"%char 8) = Text answer
       /\ (sendMessage one_candidate_world skill_query $"all" [] stale_cache).2
          = State (<[Str.trim (Str.toLowerCase skill_query) := CacheEntry answer t]>
                     (responseCache stale_cache))
                  (trace stale_cache ++ evs)
       /\ completions evs = 1%nat.
Proof.
  split; [vm_compute; reflexivity|].
  apply (stale_entry_regenerated one_candidate_world skill_query $"all" stale_cache
           (CacheEntry $"cached answer" (- CACHE_TTL))).
  - vm_compute. reflexivity.
  - vm_compute. reflexivity.
  - vm_compute. reflexivity.
  - vm_compute. reflexivity.
  - vm_compute. reflexivity.
  - intros t _. vm_compute. discriminate.
  - vm_compute. reflexivity.
Defined.

(** ** Statistics *)

Lemma emitAll_state l s :
  emitAll l s = (Returns tt, State (responseCache s) (trace s ++ l)).
Proof.
  revert s. induction l as [|e l IH]; intros s; simpl.
  - rewrite app_nil_r. by destruct s.
  - unfold bind, emit. simpl. rewrite IH. simpl. by rewrite <- app_assoc.
Qed.

Lemma resolveCounts_state w t tables s : (resolveCounts w t tables s).2 = s.
Proof.
  revert t. induction tables as [|tb tables IH]; intros t; simpl; [done|].
  destruct (on_count w t tb); try done; unfold bind;
    specialize (IH (t ++ [CountRows tb]));
    by destruct (resolveCounts w _ tables s) as [[l|e] s1].
Qed.

Lemma resolveCounts_rejected w tables tb :
  tb ∈ tables -> (forall t, exists msg, on_count w t tb = Rejected msg) ->
  forall t s, exists msg, (resolveCounts w t tables s).1 = Throws msg.
Proof.
  intros Hin Hrej. induction tables as [|tb' tables IH]; intros t s;
    [by apply elem_of_nil in Hin|].
  simpl. destruct (on_count w t tb') as [n|err|msg] eqn:Hc; [| |by eexists].
  - apply elem_of_cons in Hin as [-> | Hin].
    { destruct (Hrej t) as [msg Hmsg]. congruence. }
    unfold bind. destruct (IH Hin (t ++ [CountRows tb']) s) as [msg Hmsg].
    destruct (resolveCounts w _ tables s) as [[l|e] s1]; simpl in *; [done|by eexists].
  - apply elem_of_cons in Hin as [-> | Hin].
    { destruct (Hrej t) as [msg Hmsg]. congruence. }
    unfold bind. destruct (IH Hin (t ++ [CountRows tb']) s) as [msg Hmsg].
    destruct (resolveCounts w _ tables s) as [[l|e] s1]; simpl in *; [done|by eexists].
Qed.

Lemma countAll_run w tables s :
  countAll w tables s
  = ((resolveCounts w (trace s) tables
        (State (responseCache s) (trace s ++ map CountRows tables))).1,
     State (responseCache s) (trace s ++ map CountRows tables)).
Proof.
  unfold countAll, bind, get_trace. simpl. rewrite emitAll_state.
  pose proof (resolveCounts_state w (trace s) tables
                (State (responseCache s) (trace s ++ map CountRows tables))) as H.
  destruct (resolveCounts _ _ _ _) as [r s1]. simpl in *. by subst.
Qed.

Lemma read_run w o r s :
  read w o r s
  = (match on_read w (trace s) r with
     | Data rows => Returns (Some rows)
     | Failure _ => Returns None
     | Rejected msg => Throws msg
     end,
     State (responseCache s) (trace s ++ [Read o r])).
Proof.
  unfold read, await, bind, get_trace, emit. simpl.
  by destruct (on_read w (trace s) r).
Qed.

(** X18: [getStats] never throws and leaves the cache alone.  It
    issues the five head counts, then at most the one read of the scored
    candidates; when a head count or that read is rejected, it returns the
    statistics that are all zero. *)
Theorem getStats_never_throws w s :
  exists st evs,
    getStats w s
    = (Returns st,
       State (responseCache s) (trace s ++ map CountRows statsTables ++ evs))
    /\ (evs = [] \/ evs = [Read Other statsRequest])
    /\ ((exists tb, tb ∈ statsTables
                    /\ forall t, exists msg, on_count w t tb = Rejected msg) ->
        st = zeroStats /\ evs = [])
    /\ ((forall t, exists msg, on_read w t statsRequest = Rejected msg) ->
        st = zeroStats).
Proof.
  unfold getStats, try_catch. unfold bind at 1.
  change [hr_jobs; hr_job_candidates; hr_clients; hr_client_contacts; job_statuses]
    with statsTables.
  rewrite countAll_run.
  set (s0 := State (responseCache s) (trace s ++ map CountRows statsTables)).
  destruct (resolveCounts w (trace s) statsTables s0).1 as [counts|e] eqn:Hcounts;
    cbv beta iota zeta.
  - assert (forall tb, tb ∈ statsTables ->
              ~ forall t, exists msg, on_count w t tb = Rejected msg) as Hcounted.
    { intros tb Hin Hrej.
      destruct (resolveCounts_rejected w statsTables tb Hin Hrej (trace s) s0)
        as [msg Hmsg]. congruence. }
    unfold bind at 1. rewrite read_run.
    change (candidates_table .> selecting $"overall_score, status, interview_result"
              .> where_also (f_not_null $"overall_score")) with statsRequest.
    destruct (on_read w (trace s0) statsRequest) as [rows|err|msg] eqn:Hread;
      cbv beta iota zeta; unfold ret; eexists _, [Read Other statsRequest];
      unfold s0; cbn [responseCache trace]; rewrite <- app_assoc;
      (split_and!; [done|by right| |]).
    + intros (tb & Hin & Hrej). by destruct (Hcounted tb Hin).
    + intros Hrej. destruct (Hrej (trace s0)) as [msg Hmsg]. congruence.
    + intros (tb & Hin & Hrej). by destruct (Hcounted tb Hin).
    + intros Hrej. destruct (Hrej (trace s0)) as [msg Hmsg]. congruence.
    + intros (tb & Hin & Hrej). by destruct (Hcounted tb Hin).
    + done.
  - exists zeroStats, []. rewrite app_nil_r. by split_and!; [|left|..].
Qed.

(** ** The values the status strategy filters on *)

(** X19: whatever the query, the status strategy filters on one of five
    column and value pairs, the value being the capitalized status key.
    The values for [interview_result] are therefore "Selected", "Rejected"
    and "Interview": a row that passes such an exact-match filter is not
    one that [getStats] counts as selected or rejected, since it compares
    with the lower-case "selected" and "rejected". *)
Theorem statusFilter_values lowerQuery :
  (statusFilter lowerQuery = None
   \/ exists pair, statusFilter lowerQuery = Some pair /\ pair ∈ statusPairs)
  /\ (forall value c,
        statusFilter lowerQuery = Some ($"interview_result", value) ->
        isText interview_result value c = true ->
        isText interview_result $"selected" c = false
        /\ isText interview_result $"rejected" c = false).
Proof.
  assert (statusFilter lowerQuery = None
          \/ exists pair, statusFilter lowerQuery = Some pair /\ pair ∈ statusPairs)
    as Hvalues.
  { unfold statusFilter, matchedStatusKey, statusKeywords. cbn [List.find snd].
    repeat (destruct (includesAny lowerQuery _);
            [right; eexists; split; [reflexivity|];
             apply (bool_decide_unpack _); by vm_compute|]).
    by left. }
  split; [exact Hvalues|].
  intros value c Hfilter Hrow. destruct Hvalues as [Hnone | (pair & Hsome & Hin)];
    [congruence|].
  rewrite Hfilter in Hsome. injection Hsome as <-.
  unfold isText in *. destruct (interview_result c) as [v|]; [|done].
  apply bool_decide_eq_true in Hrow. subst v.
  unfold statusPairs in Hin. rewrite !elem_of_cons in Hin.
  destruct Hin as [[=]|[[= ->]|[[= ->]|[[= ->]|[[=]|Hin]]]]];
    [by vm_compute..|by apply elem_of_nil in Hin].
Qed.

(** ** The embedding service *)

(** Unfold the plumbing of a computation, leaving the calls of the oracles. *)
Ltac run_monad :=
  cbv beta iota zeta
      delta [bind try_catch ret throw emit get_trace get_cache await read
             complete completeOrThrow rpc rpcOrThrow
             EmbeddingService.generateEmbedding];
  cbn [trace responseCache fst snd].

(** Split on the answer of the next oracle. *)
Ltac next_oracle :=
  match goal with
  | |- context [match on_embed ?w ?t ?x with _ => _ end] =>
      destruct (on_embed w t x) eqn:?
  | |- context [match on_match ?w ?t ?c with _ => _ end] =>
      destruct (on_match w t c) as [[|? ?]| |] eqn:?
  | |- context [match on_rpc ?w ?t ?c with _ => _ end] =>
      destruct (on_rpc w t c) eqn:?
  | |- context [match on_read ?w ?t ?r with _ => _ end] =>
      destruct (on_read w t r) eqn:?
  | |- context [match on_read_one ?w ?t ?r with _ => _ end] =>
      destruct (on_read_one w t r) eqn:?
  | |- context [match on_complete ?w ?t ?c with _ => _ end] =>
      destruct (on_complete w t c) eqn:?
  | |- context [match parse_skills ?w ?x with _ => _ end] =>
      destruct (parse_skills w x) eqn:?
  end.

Ltac case_oracle := next_oracle; cbv beta iota; cbn [trace responseCache].

(** X20: [generateEmbedding] never throws.  It sends one request, for
    the words of the text joined by single spaces and cut to 8000
    characters, and returns what the endpoint answers. *)
Theorem generateEmbedding_request w text s :
  exists input,
    EmbeddingService.generateEmbedding w text s
    = (Returns (on_embed w (trace s) input),
       State (responseCache s) (trace s ++ [Embed input]))
    /\ Z.of_nat (length input) <= 8000
    /\ input `prefix_of` Str.join_space (tokens text).
Proof.
  exists (cleanText text). split_and!.
  - reflexivity.
  - unfold cleanText. rewrite length_take. lia.
  - unfold cleanText. rewrite trim_collapseSpaces. apply prefix_take.
Qed.

(** X21: the two vector searches never throw.  Each first requests the
    embedding of its text; when that request fails, or the match procedure
    fails or finds nothing, the search returns no rows, and it issues no
    further call after a failed embedding.  Every row that
    [searchSimilarCandidates] returns carries a similarity score. *)
Theorem vector_searches_never_throw w text limit threshold s :
  (exists rows evs,
      EmbeddingService.searchSimilarCandidates w text limit threshold s
      = (Returns rows,
         State (responseCache s) (trace s ++ Embed (cleanText text) :: evs))
      /\ Forall (fun c => is_Some (similarity_score c)) rows
      /\ (length evs <= 2)%nat
      /\ (on_embed w (trace s) (cleanText text) = None -> rows = [] /\ evs = [])
      /\ (rows <> [] -> length evs = 2%nat))
  /\ (exists rows evs,
        EmbeddingService.matchCandidatesToJD w text limit threshold s
        = (Returns rows,
           State (responseCache s) (trace s ++ Embed (cleanText text) :: evs))
        /\ (length evs <= 1)%nat
        /\ (on_embed w (trace s) (cleanText text) = None -> rows = [] /\ evs = [])
        /\ (rows <> [] -> length evs = 1%nat)).
Proof.
  split.
  - unfold EmbeddingService.searchSimilarCandidates. run_monad.
    change (take (Z.to_nat 8000) (Str.trim (Str.collapseSpaces text)))
      with (cleanText text).
    destruct (on_embed w (trace s) (cleanText text)) as [embedding|] eqn:Hembed.
    + case_oracle.
      * eexists [], [_]. rewrite <- app_assoc. split_and!; [reflexivity|try done; try (simpl; lia)..].
      * case_oracle.
        -- eexists _, [_; _]. rewrite <- !app_assoc.
           split_and!; [reflexivity| |try done; try (simpl; lia)..].
           apply Forall_map, Forall_true. intros c. by eexists.
        -- eexists [], [_; _]. rewrite <- !app_assoc. split_and!; [reflexivity|try done; try (simpl; lia)..].
        -- eexists [], [_; _]. rewrite <- !app_assoc. split_and!; [reflexivity|try done; try (simpl; lia)..].
      * eexists [], [_]. rewrite <- app_assoc. split_and!; [reflexivity|try done; try (simpl; lia)..].
      * eexists [], [_]. rewrite <- app_assoc. split_and!; [reflexivity|try done; try (simpl; lia)..].
    + exists [], []. split_and!; [reflexivity|try done; try (simpl; lia)..].
  - unfold EmbeddingService.matchCandidatesToJD. run_monad.
    change (take (Z.to_nat 8000) (Str.trim (Str.collapseSpaces text)))
      with (cleanText text).
    destruct (on_embed w (trace s) (cleanText text)) as [embedding|] eqn:Hembed.
    + case_oracle.
      * eexists _, [_]. rewrite <- app_assoc. split_and!; [reflexivity|try done; try (simpl; lia)..].
      * eexists [], [_]. rewrite <- app_assoc. split_and!; [reflexivity|try done; try (simpl; lia)..].
      * eexists [], [_]. rewrite <- app_assoc. split_and!; [reflexivity|try done; try (simpl; lia)..].
    + exists [], []. split_and!; [reflexivity|try done; try (simpl; lia)..].
Qed.

(** X22: [findSimilarCandidates] asks for one match more than the
    limit and drops the candidate itself: the candidates it reads are named
    by at most [limit] ids, none of them the id it was given. *)
Theorem findSimilarCandidates_excludes_self w candidateId (n : nat) s :
  exists evs,
    trace (EmbeddingService.findSimilarCandidates w candidateId (Z.of_nat n) s).2
    = trace s ++ evs
    /\ Forall (excludes candidateId n) evs
    /\ (forall c, Rpc c ∈ evs ->
                  exists e, c = match_candidates e (7 # 10) (Z.of_nat n + 1)).
Proof.
  set (P := fun e => excludes candidateId n e
                     /\ forall c, e = Rpc c ->
                          exists x, c = match_candidates x (7 # 10) (Z.of_nat n + 1)).
  assert (runs P (EmbeddingService.findSimilarCandidates w candidateId (Z.of_nat n)))
    as Hruns.
  { unfold EmbeddingService.findSimilarCandidates.
    apply runs_try_catch; [|intros; apply runs_ret].
    apply runs_bind; [by apply runs_await|].
    intros [embeddingRow|]; [|apply runs_throw].
    destruct (parse_embedding w _) as [query_embedding|]; [|apply runs_throw].
    cbv zeta. apply runs_bind.
    { apply runs_await; [|done]. split; [done|]. intros c [= <-]. by eexists. }
    intros matched. rewrite Nat2Z.id.
    set (similarIds := match matched with
                       | Some l => take n (map candidate_id
                                     (filter (fun d => candidate_id d <> candidateId) l))
                       | None => []
                       end).
    assert ((candidateId ∉ similarIds) /\ (length similarIds <= n)%nat)
      as [Hnot Hlen].
    { unfold similarIds. destruct matched as [l|]; [|split; [set_solver|simpl; lia]].
      split; [|rewrite length_take; lia].
      intros Hin. eapply elem_of_sublist in Hin; [|apply sublist_take].
      apply list_elem_of_fmap in Hin as (d & -> & Hd).
      by apply list_elem_of_filter in Hd as [Hd _]. }
    destruct similarIds as [|x ids] eqn:Hids; [apply runs_ret|].
    apply runs_bind; [|intros; apply runs_ret].
    apply runs_read. split; [|done]. by exists (x :: ids). }
  destruct (Hruns s) as (evs & Ht & _ & HP). exists evs. split_and!; [done| |].
  - eapply Forall_impl; [exact HP|]. by intros e [He _].
  - intros c Hc. rewrite Forall_forall in HP. by apply (HP _ Hc).
Qed.

(** ** The job-description and analytics handlers *)

(** Close a leaf of a case analysis on the oracles: the state reached is
    the initial one extended by the events issued on the way. *)
Ltac leaf :=
  eexists _, _; split;
  [ rewrite <- ?app_assoc; reflexivity
  | cbn; try done; try lia; try (split; [done|lia]) ].

(** X23: [getRankedCandidatesFromJD] never throws and leaves the cache
    alone.  Vector matches are returned as they are, without a call of the
    generation API; otherwise the skills are extracted by one call, and the
    candidates found for them are ranked by a second one; an error reply
    comes after one or two calls. *)
Theorem getRankedCandidatesFromJD_replies w jobDescription s :
  exists r evs,
    getRankedCandidatesFromJD w jobDescription s
    = (Returns r, State (responseCache s) (trace s ++ evs))
    /\ match r with
       | JDMatchList matches => matches <> [] /\ completions evs = 0%nat
       | JDNoCandidates => completions evs = 1%nat
       | JDRanking _ => completions evs = 2%nat
       | JDError _ => (1 <= completions evs <= 2)%nat
       | _ => False
       end.
Proof.
  unfold getRankedCandidatesFromJD, EmbeddingService.matchCandidatesToJD. run_monad.
  set (input := take (Z.to_nat 8000) (Str.trim (Str.collapseSpaces jobDescription))).
  repeat first
         [ case_oracle
         | match goal with
           | |- context [match ?l with [] => _ | _ :: _ => _ end] =>
               is_var l; destruct l; cbv beta iota; cbn [trace responseCache]
           | |- context [nonempty (Some ?l)] =>
               is_var l; destruct l; cbn [nonempty]; cbv beta iota;
               cbn [trace responseCache]
           | |- context [nonempty None] =>
               cbn [nonempty]; cbv beta iota; cbn [trace responseCache]
           end ].
  all: leaf.
Qed.

(** X24: [getAnalyticsReport] never throws and leaves the cache alone.
    It calls at most two aggregation procedures and then, at most once,
    the generation API, and nothing else: a report is the answer of exactly
    one generation call, an error reply comes after at most one. *)
Theorem getAnalyticsReport_replies w userQuery s :
  exists r evs,
    getAnalyticsReport w userQuery s
    = (Returns r, State (responseCache s) (trace s ++ evs))
    /\ reportCalls 2 evs = true
    /\ match r with
       | Text _ => completions evs = 1%nat
       | AnalyticsError _ => (completions evs <= 1)%nat
       | _ => False
       end.
Proof.
  unfold getAnalyticsReport. run_monad.
  destruct (Str.includes userQuery $"top jobs" || _);
    destruct (Str.includes userQuery $"pipeline" || _);
    cbv beta iota; cbn [trace responseCache];
    repeat case_oracle;
    (eexists _, _; split_and!;
     [rewrite <- ?app_assoc; reflexivity|reflexivity|cbn; try done; lia]).
Qed.

(** ** The name taken from the conversation *)

Lemma lastN_app {A} n (older recent : list A) :
  (n <= length recent)%nat -> lastN n (older ++ recent) = lastN n recent.
Proof.
  intros Hlen. unfold lastN. rewrite length_app.
  replace (length older + length recent - n)%nat
    with (length older + (length recent - n))%nat by lia.
  by rewrite drop_app_add.
Qed.

(** X25: [extractNameFromHistory] reads only the last three assistant
    turns: user turns and whatever precedes these three turns do not change
    its result.  Among the three the oldest one comes first: a name in bold
    in it is returned whatever the two later turns say. *)
Theorem extractNameFromHistory_recent :
  (forall older recent,
      (3 <= length (filter isAssistant recent))%nat ->
      extractNameFromHistory (older ++ recent) = extractNameFromHistory recent)
  /\ (forall history,
        extractNameFromHistory (filter isAssistant history)
        = extractNameFromHistory history)
  /\ (forall a1 a2 a3 m,
        isAssistant a1 -> isAssistant a2 -> isAssistant a3 ->
        exec boldNamePattern (content a1) = Some m ->
        extractNameFromHistory [a1; a2; a3] = group m 1).
Proof.
  split_and!.
  - intros older recent Hlen. unfold extractNameFromHistory.
    change (fun m => msg_role m = assistant) with isAssistant.
    by rewrite filter_app, lastN_app.
  - intros history. unfold extractNameFromHistory.
    change (fun m => msg_role m = assistant) with isAssistant.
    by rewrite list_filter_filter_l.
  - intros a1 a2 a3 m H1 H2 H3 Hexec. unfold extractNameFromHistory.
    change (fun m => msg_role m = assistant) with isAssistant.
    rewrite !filter_cons_True by done. unfold lastN. simpl. by rewrite Hexec.
Qed.

Lemma generateEmbedding_run w text s :
  EmbeddingService.generateEmbedding w text s
  = (Returns (on_embed w (trace s) (cleanText text)),
     State (responseCache s) (trace s ++ [Embed (cleanText text)])).
Proof. reflexivity. Qed.

(** X26: [generateBatchEmbeddings] never throws.  It sends one
    embedding request per text, in the order of the texts, and returns one
    result per text: the answer to the request for that text. *)
Theorem generateBatchEmbeddings_in_order w texts delayMs s :
  exists results,
    EmbeddingService.generateBatchEmbeddings w texts delayMs s
    = (Returns results,
       State (responseCache s)
             (trace s ++ map (fun text => Embed (cleanText text)) texts))
    /\ length results = length texts
    /\ (forall i text,
          texts !! i = Some text ->
          results !! i
          = Some (on_embed w
                    (trace s ++ map (fun text => Embed (cleanText text)) (take i texts))
                    (cleanText text))).
Proof.
  revert s. induction texts as [|text texts IH]; intros s.
  - exists []. simpl. rewrite app_nil_r. split_and!; [by destruct s|done..].
  - cbn [EmbeddingService.generateBatchEmbeddings]. unfold bind at 1.
    rewrite generateEmbedding_run. unfold bind at 1.
    destruct (IH (State (responseCache s) (trace s ++ [Embed (cleanText text)])))
      as (results & -> & Hlen & Hnth).
    eexists. split_and!.
    + unfold ret. cbn [trace responseCache map]. by rewrite <- app_assoc.
    + simpl. by rewrite Hlen.
    + intros [|i] text' Hi; simpl in *.
      * injection Hi as <-. by rewrite app_nil_r.
      * rewrite (Hnth i text' Hi). cbn [trace]. by rewrite <- app_assoc.
Qed.

(** X27: [getAllJobs] never throws: it issues one read, for the fifty
    most recently posted jobs, and returns the rows of the answer, or no
    rows when the read reports an error or is rejected. *)
Theorem getAllJobs_never_throws w s :
  exists allJobs,
    getAllJobs w s
    = (Returns allJobs,
       State (responseCache s) (trace s ++ [Read Other allJobsRequest]))
    /\ match on_read w (trace s) allJobsRequest with
       | Data rows => allJobs = rows
       | _ => allJobs = []
       end.
Proof.
  unfold getAllJobs. run_monad. fold allJobsRequest.
  destruct (on_read w (trace s) allJobsRequest); by eexists.
Qed.

(** ** The catch-all strategy ranks by score *)

Lemma byScoreDesc_iff a b :
  byScoreDesc a b = true <-> (scoreOrZero b <= scoreOrZero a)%Q.
Proof.
  unfold byScoreDesc. rewrite Qle_bool_iff.
  rewrite (Qle_minus_iff (scoreOrZero b - scoreOrZero a) 0).
  rewrite (Qle_minus_iff (scoreOrZero b) (scoreOrZero a)).
  assert (0 + - (scoreOrZero b - scoreOrZero a) == scoreOrZero a + - scoreOrZero b)%Q
    as -> by ring.
  done.
Qed.

Lemma Forall_insert_sorted {A} (nonpos : A -> A -> bool) (P : A -> Prop) x l :
  P x -> Forall P l -> Forall P (insert_sorted nonpos x l).
Proof.
  intros Hx. induction 1 as [|y l Hy Hl IH]; simpl; [by repeat constructor|].
  destruct (nonpos x y); by repeat constructor.
Qed.

Lemma insert_sorted_bestFirst x l :
  bestFirst l -> bestFirst (insert_sorted byScoreDesc x l).
Proof.
  induction l as [|y l IH]; simpl; [by split|]. intros [Hy Hl].
  destruct (byScoreDesc x y) eqn:Hxy; simpl.
  - apply byScoreDesc_iff in Hxy. split_and!; [|done..].
    constructor; [done|]. eapply Forall_impl; [exact Hy|].
    intros z Hz. simpl in Hz. by apply Qle_trans with (scoreOrZero y).
  - split; [|by apply IH]. apply Forall_insert_sorted; [|done].
    apply Qlt_le_weak, Qnot_le_lt. intros Hle.
    apply byScoreDesc_iff in Hle. congruence.
Qed.

Lemma sort_bestFirst l : bestFirst (sort byScoreDesc l).
Proof.
  induction l as [|x l IH]; simpl; [done|]. by apply insert_sorted_bestFirst.
Qed.

Lemma sublist_bestFirst l1 l2 : l1 `sublist_of` l2 -> bestFirst l2 -> bestFirst l1.
Proof.
  induction 1 as [|x l1 l2 Hsub IH|x l1 l2 Hsub IH]; simpl; [done| |].
  - intros [Hx Hl]. split; [|by apply IH]. by apply (Forall_sublist _ l1 l2).
  - intros [_ Hl]. by apply IH.
Qed.

(** X28: the candidates that the catch-all strategy returns are ranked
    by score: each is followed only by candidates whose score, taken as 0
    when missing, is no higher.  There is at least one and, for a limit
    that is not negative, at most as many as the limit. *)
Theorem catchAll_best_first w query requestedLimit s r s' :
  catchAll w query requestedLimit s = (Returns (Some r), s') ->
  exists rows searchTerms,
    r = SearchResult candidates_broad_search
          (Some (CandidatesBroad rows searchTerms))
    /\ rows <> [] /\ bestFirst rows
    /\ (0 <= defaultLimitOf requestedLimit ->
        Z.of_nat (length rows) <= defaultLimitOf requestedLimit).
Proof.
  unfold catchAll. destruct (_ <? _)%nat; [|done].
  unfold bind at 1. rewrite read_run.
  destruct (on_read w _ _) as [[|c l]| |]; try done.
  cbv beta iota zeta. unfold ret. intros [= Hr _].
  apply ifRows_some in Hr as (x & rows & [= Hrows] & ->).
  eexists _, _. split; [reflexivity|]. rewrite <- Hrows. split_and!.
  - by rewrite Hrows.
  - eapply sublist_bestFirst; [apply slice0_sublist|apply sort_bestFirst].
  - apply slice0_length.
Qed.

Lemma catchAll_best_first_witness :
  (catchAll unranked_world cobol_query None initial).1
  = Returns (Some (SearchResult candidates_broad_search
                     (Some (CandidatesBroad [esha; asha; bina; chen] cobol_query))))
  /\ exists rows searchTerms,
       SearchResult candidates_broad_search
         (Some (CandidatesBroad [esha; asha; bina; chen] cobol_query))
       = SearchResult candidates_broad_search
           (Some (CandidatesBroad rows searchTerms))
       /\ rows <> [] /\ bestFirst rows
       /\ (0 <= defaultLimitOf None ->
           Z.of_nat (length rows) <= defaultLimitOf None).
Proof.
  split; [vm_compute; reflexivity|].
  apply (catchAll_best_first unranked_world cobol_query None initial _
           (catchAll unranked_world cobol_query None initial).2).
  vm_compute. reflexivity.
Defined.

(** ** The router only retrieves *)

Section Retrieval.

Variable w : world.
Variable query : str.
Variable conversationHistory : list turn.
Variable requestedLimit : option Z.
Variable P : event -> Prop.

Hypothesis Hread : forall o r, P (Read o r).
Hypothesis Hsemantic : runs P (semanticSearch w query).

Lemma strategies_run_reads :
  Forall (runs P) (strategies w query conversationHistory requestedLimit).
Proof.
  unfold strategies. split_Forall; try exact Hsemantic.
  - unfold topForCriterion. runs_io.
  - unfold topByScore. runs_io.
  - unfold allCandidates. runs_io.
  - unfold followUp. runs_io.
  - unfold emailSearch. runs_io.
  - unfold phoneSearch. runs_io.
  - unfold jobIdSearch. runs_io.
  - unfold experienceSearch. runs_io.
  - unfold scoreSearch. runs_io.
  - unfold salarySearch. runs_io.
  - unfold skillSearch. runs_io.
  - unfold jobTitleSearch. runs_io.
  - unfold statusSearch. runs_io.
  - unfold locationSearch. runs_io.
  - unfold clientSearch. runs_io.
  - unfold jobSearch. runs_io.
  - unfold statusTypes. runs_io.
  - unfold catchAll. runs_io.
  - unfold nameSearch. runs_io.
Qed.

End Retrieval.

(** X29: [smartSearch] only retrieves.  Whatever the query and the
    answers of the store, it returns, leaves the cache as it was, and issues
    nothing but reads of the store, embedding requests and vector matches;
    it issues reads only, unless the query holds one of the phrases that
    call for semantic search. *)
Theorem smartSearch_read_only w query history requestedLimit s :
  exists r evs,
    smartSearch w query history requestedLimit s
    = (Returns r, State (responseCache s) (trace s ++ evs))
    /\ Forall (fun e => isRetrieval e = true) evs
    /\ (shouldUseSemanticSearch query = false ->
        Forall (fun e => isRead e = true) evs).
Proof.
  assert (runs (fun e => isRetrieval e = true)
               (smartSearch w query history requestedLimit)) as Hretrieval.
  { apply route_runs, strategies_run_reads; [done|].
    unfold semanticSearch, EmbeddingService.searchSimilarCandidates,
      EmbeddingService.generateEmbedding. runs_io. }
  destruct (smartSearch_returns w query history requestedLimit s) as [r Hr].
  destruct (runs_state (fun e => isRetrieval e = true)
              (smartSearch w query history requestedLimit) s)
    as (evs & Hs & Hevs); [|exact Hretrieval|].
  { intros e He. by destruct e. }
  exists r, evs. split_and!; [|done|].
  - destruct (smartSearch _ _ _ _ s) as [o s1]. simpl in *. by subst.
  - intros Hno.
    assert (runs (fun e => isRead e = true)
                 (smartSearch w query history requestedLimit)) as Hreads.
    { apply route_runs, strategies_run_reads; [done|].
      unfold semanticSearch. rewrite Hno. apply runs_ret. }
    destruct (Hreads s) as (evs' & Ht & _ & Hall).
    rewrite Hs in Ht. simpl in Ht. apply app_inv_head in Ht. by subst.
Qed.

(** ** What [sendMessage] can throw *)

Lemma ensures_returns {A} (m : M A) E :
  (forall s, exists a, (m s).1 = Returns a) -> ensures (fun _ => True) E m.
Proof. intros H s. by destruct (H s) as [a ->]. Qed.

Lemma try_catch_returns {A} (m : M A) (h : str -> A) s :
  exists a, (try_catch m (fun e => ret (h e)) s).1 = Returns a.
Proof. unfold try_catch. destruct (m s) as [[a|e] s1]; simpl; eauto. Qed.

Section Throws.

Variable w : world.

Local Abbreviation safe := (ensures (fun _ => True) (generation_failure w)).

Lemma similarCandidates_throws message : safe (similarCandidates w message).
Proof.
  unfold similarCandidates. destruct (asksForSimilar message); [|by apply ensures_ret].
  destruct (extractNameFromQuery message) as [[|c cs]|]; try by apply ensures_ret.
  cbv zeta. eapply ensures_bind with (Q1 := fun _ => True).
  - intros s. unfold await, bind, get_trace, emit. simpl.
    destruct (on_read_one w (trace s) _) as [a|err|msg] eqn:H; simpl; try done.
    right. right. eauto.
  - intros [candidate|] _; [|by apply ensures_ret].
    apply ensures_returns. intros s. unfold try_catch.
    destruct (bind _ _ s) as [[a|e] s1]; simpl; eauto.
Qed.

Lemma generateAndCache_throws message cls st requestedCount history :
  safe (generateAndCache w message cls st requestedCount history).
Proof.
  unfold generateAndCache.
  eapply ensures_bind with (Q1 := fun _ => True).
  { destruct (bool_decide _); [|by apply ensures_ret].
    apply ensures_returns. intros s. unfold bind.
    destruct (smartSearch_returns w message history requestedCount s) as [r Hr].
    destruct (smartSearch _ _ _ _ s) as [o s1]. simpl in *. subst. simpl. eauto. }
  intros searchResults _.
  eapply ensures_bind with (Q1 := fun r => exists t c, on_complete w t c = r).
  { intros s. unfold complete, bind, get_trace, emit, ret. simpl. eauto. }
  intros [answer|upstream|msg] (t & c & Hc).
  - apply ensures_returns. intros s. unfold bind, now, bind, get_trace, emit, ret.
    destruct (_ && _); simpl; eauto.
  - intros s. simpl. left. eauto.
  - intros s. simpl. right. left. eauto.
Qed.

Lemma sendMessage_throws message jobId history :
  safe (sendMessage w message jobId history).
Proof.
  unfold sendMessage. eapply ensures_bind with (Q1 := fun _ => True).
  { apply ensures_returns. intros s.
    destruct (getStats_total w s) as (st & evs & -> & _). eauto. }
  intros st _.
  assert (safe
    (if isJD message then getRankedCandidatesFromJD w message
     else if isAnalytics message
     then getAnalyticsReport w (Str.trim (Str.toLowerCase message))
     else
       let* similar := similarCandidates w message in
       match similar with
       | Some reply => ret reply
       | None =>
           let* cached :=
             if bool_decide (type (classifyQuery message) = recruitment)
             then cacheLookup w (Str.trim (Str.toLowerCase message)) history
             else ret None in
           match cached with
           | Some answer => ret (Text answer)
           | None =>
               generateAndCache w message (classifyQuery message) st
                 (extractRequestedCount message) history
           end
       end)) as Hrest.
  { destruct (isJD message).
    { apply ensures_returns. intros s. apply try_catch_returns. }
    destruct (isAnalytics message).
    { apply ensures_returns. intros s. apply try_catch_returns. }
    eapply ensures_bind; [apply similarCandidates_throws|].
    intros [reply|] _; [by apply ensures_ret|].
    eapply ensures_bind with (Q1 := fun _ => True).
    { destruct (bool_decide _); [|by apply ensures_ret].
      apply ensures_returns. intros s.
      unfold cacheLookup, bind, get_cache, now, bind, get_trace, emit, ret. simpl.
      destruct (responseCache s !! _); [|simpl; eauto].
      simpl. destruct (_ && _); simpl; eauto. }
    intros [answer|] _; [by apply ensures_ret|]. apply generateAndCache_throws. }
  destruct (type (classifyQuery message)); try exact Hrest.
  - apply ensures_returns. intros s.
    unfold randomIndex, bind, get_trace, emit, ret. simpl. eauto.
  - by apply ensures_ret.
Qed.

End Throws.

(** X30: [sendMessage] throws only what the generation step or the
    similar-candidates lookup throws: the message "OpenAI: " followed by
    the upstream message of an error status of the generation endpoint, the
    failure of reading an answer of that endpoint, or the rejection of a
    single-candidate lookup.  So with a generation endpoint that always
    answers and a lookup that is never rejected it never throws, whatever
    the store, the embedding endpoint and the procedures do. *)
Theorem sendMessage_throws_only w message jobId history s failure s' :
  sendMessage w message jobId history s = (Throws failure, s') ->
  generation_failure w failure.
Proof.
  intros H. pose proof (sendMessage_throws w message jobId history s) as Hs.
  by rewrite H in Hs.
Qed.

Lemma sendMessage_throws_only_witness :
  (sendMessage unavailable_world skill_query $"all" [] initial).1
  = Throws $"OpenAI: unavailable"
  /\ generation_failure unavailable_world $"OpenAI: unavailable".
Proof.
  split; [vm_compute; reflexivity|].
  apply (sendMessage_throws_only unavailable_world skill_query $"all" [] initial _
           (sendMessage unavailable_world skill_query $"all" [] initial).2).
  vm_compute. reflexivity.
Defined.
